(** * sclassifier: the image pre-processing pipeline

    A shallow embedding of [sclassifier/preprocessing.py]: the stages that
    transform a multi-channel image cube, and the [DataPreprocessor] that
    chains them.

    Conventions of the embedding.
    - A pixel is an IEEE binary64 number: Rocq's primitive [float], whose
      operations are the processor's.  NaN, the infinities and the two
      zeros behave as they do in numpy.
    - An image cube [data] of shape (ny, nx, nchan) is kept as the list of
      its channel planes: the plane [data[:,:,i]] is the [i]-th element,
      itself a list of rows.  [pix data y x c] is [data[y,x,c]].
    - A Python call either returns or raises: [outcome].  A returned
      [None] is [Ret None].
    - Functions of other packages (astropy's sigma clipping and zscale
      interval, OpenCV's erosion, numpy's [log10]) are parameters of the
      stages that call them.
    - So are scikit-image's functions, [np.percentile], the generator
      behind [np.random] and the resize function of utils.py.  A stage
      that computes with numpy.ma can hand back a numpy.ma array: its
      result type says so. *)

From Stdlib Require Import ZArith List Bool Lia.
From Stdlib Require Import Floats.
From stdpp Require Import base option list gmap.

Set Default Proof Using "Type".

(** A decimal literal stands for the nearest binary64 number, as it does
    in Python. *)
Set Warnings "-inexact-float".

(** ** Python outcomes *)

Inductive pyexn : Set :=
  | ValueError | IndexError | NameError | AttributeError | OverflowError.

Inductive outcome (A : Type) : Type :=
  | Ret (a : A)
  | Raise (e : pyexn).
Arguments Ret {A} a.
Arguments Raise {A} e.

#[global] Instance outcome_ret : MRet outcome := @Ret.
#[global] Instance outcome_bind : MBind outcome := fun A B f m =>
  match m with
  | Ret a => f a
  | Raise e => Raise e
  end.

(** ** Pixels *)

(** [np.logical_and(data!=0, np.isfinite(data))] at one pixel. *)
Definition is_valid (v : float) : bool :=
  negb (v =? 0)%float && is_finite v.

(** numpy's [minimum] and [maximum] of two numbers: a NaN wins. *)
Definition fmin (a b : float) : float :=
  if is_nan a then a else if is_nan b then b
  else if (b <? a)%float then b else a.

Definition fmax (a b : float) : float :=
  if is_nan a then a else if is_nan b then b
  else if (a <? b)%float then b else a.

(** Conversion of a Python [int] to a [float] (round to nearest even). *)
Definition float_of_Z (z : Z) : float :=
  SF2Prim (binary_normalize prec emax z 0 false).

(** Python's [int(f)]: truncation towards zero; NaN and the infinities
    raise. *)
Definition py_int (f : float) : outcome Z :=
  match Prim2SF f with
  | S754_zero _ => Ret 0%Z
  | S754_finite s m e =>
      let a := match e with
               | Zneg p => Z.shiftr (Zpos m) (Zpos p)
               | _ => Z.shiftl (Zpos m) e
               end in
      Ret (if s then (- a)%Z else a)
  | S754_infinity _ => Raise OverflowError
  | S754_nan => Raise ValueError
  end.

(** ** Arrays *)

Module Np.

Abbreviation plane A := (list (list A)) (only parsing).
Abbreviation image := (list (list float)) (only parsing).
Abbreviation tensor := (list (list (list float))) (only parsing).

Definition map2d {A B} (f : A -> B) (a : plane A) : plane B :=
  (fun row : list A => f <$> row) <$> a.

Definition zip2d {A B C} (f : A -> B -> C) (a : plane A) (b : plane B)
  : plane C :=
  zip_with (zip_with f) a b.

Definition imap2d {A B} (f : nat -> nat -> A -> B) (a : plane A) : plane B :=
  imap (fun y row => imap (fun x v => f y x v) row) a.

Definition map3d {A B} (f : A -> B) (t : list (plane A)) : list (plane B) :=
  (fun ch : plane A => map2d f ch) <$> t.

Definition zip3d {A B C} (f : A -> B -> C)
    (a : list (plane A)) (b : list (plane B)) : list (plane C) :=
  zip_with (zip2d f) a b.

(** [a[y,x]] and [data[y,x,c]]. *)
Definition pix2 {A} (a : plane A) (y x : nat) : option A :=
  a !! y ≫= (.!! x).

Definition pix {A} (t : list (plane A)) (y x c : nat) : option A :=
  t !! c ≫= fun ch => pix2 ch y x.

(** [data.shape[-1]], and the two leading dimensions of a plane. *)
Definition nchans {A} (t : list (plane A)) : nat := length t.
Definition nrows {A} (a : plane A) : nat := length a.
Definition ncols {A} (a : plane A) : nat := length (hd [] a).

(** [a.shape == (ny, nx)], and the same of every plane of a cube: what
    numpy guarantees of any array it builds. *)
Definition has_shape {A} (ny nx : nat) (a : plane A) : bool :=
  (length a =? ny)%nat && forallb (fun row => (length row =? nx)%nat) a.

Definition has_shape3d {A} (ny nx : nat) (t : list (plane A)) : bool :=
  forallb (has_shape ny nx) t.

(** [data[:,:,i]] for [i] in range: a copy of the plane's values. *)
Definition get_chan {A} (t : list (plane A)) (i : nat)
  : outcome (plane A) :=
  match t !! i with
  | Some ch => Ret ch
  | None => Raise IndexError
  end.

(** An index along an axis of length [n]: a negative one counts from
    the end. *)
Definition index (n : nat) (i : Z) : outcome nat :=
  if (0 <=? i)%Z && (i <? Z.of_nat n)%Z then Ret (Z.to_nat i)
  else if (- Z.of_nat n <=? i)%Z && (i <? 0)%Z
       then Ret (Z.to_nat (i + Z.of_nat n))
       else Raise IndexError.

(** [data[:,:,i] = ch]. *)
Definition set_chan {A} (i : nat) (ch : plane A) (t : list (plane A))
  : list (plane A) :=
  <[i := ch]> t.

(** [np.logical_and(a!=0, np.isfinite(a))]. *)
Definition valid2d (a : image) : plane bool := map2d is_valid a.
Definition valid3d (t : tensor) : list (plane bool) := map3d is_valid t.

(** [a[m]]: the elements selected by a boolean mask, in row-major
    order. *)
Definition select {A} (a : plane A) (m : plane bool) : list A :=
  concat (zip_with
            (fun (row : list A) (mrow : list bool) =>
               zip row mrow ≫= fun p : A * bool =>
                 if snd p then [fst p] else [])
            a m).

(** [a[m] = v] and [a[~m] = v]. *)
Definition assign_where {A} (m : plane bool) (v : A) (a : plane A)
  : plane A :=
  zip2d (fun b x => if b : bool then v else x) m a.

Definition assign_unless {A} (m : plane bool) (v : A) (a : plane A)
  : plane A :=
  assign_where (map2d negb m) v a.

Definition assign_unless3d {A} (m : list (plane bool)) (v : A)
    (t : list (plane A)) : list (plane A) :=
  zip_with (fun mc ch => assign_unless mc v ch) m t.

(** [a.min()] and [a.max()] of a one-dimensional array: numpy refuses
    an empty array. *)
Definition min (l : list float) : outcome float :=
  match l with
  | [] => Raise ValueError
  | v :: l' => Ret (foldl fmin v l')
  end.

Definition max (l : list float) : outcome float :=
  match l with
  | [] => Raise ValueError
  | v :: l' => Ret (foldl fmax v l')
  end.

(** [data op v] for a list [v] with one entry per channel: numpy
    broadcasts [v] along the last axis. *)
Definition broadcast (f : float -> float -> float) (t : tensor)
    (v : list float) : tensor :=
  zip_with (fun ch s => map2d (fun d => f d s) ch) t v.

End Np.

(** [for i in range(n)] over the array being built.  The body gives the
    array after the iteration; [Ret None] is a [return None] from inside
    the loop. *)
Fixpoint for_range (rng : list nat)
    (body : nat -> Np.tensor -> outcome (option Np.tensor))
    (acc : Np.tensor) : outcome (option Np.tensor) :=
  match rng with
  | [] => Ret (Some acc)
  | i :: rng' =>
      match body i acc with
      | Ret (Some acc') => for_range rng' body acc'
      | r => r
      end
  end.

(** A loop whose body only ever writes channel [i] at iteration [i]. *)
Definition writes_own_channel
    (body : nat -> list (list (list float)) ->
            outcome (option (list (list (list float))))) : Prop :=
  forall i a a', body i a = Ret (Some a') ->
    length a' = length a /\ forall j, j <> i -> a' !! j = a !! j.

(** ** Stages *)

Module MinMaxNormalizer.

Record t := { norm_min : float; norm_max : float }.

Definition call (self : t) (data : option Np.tensor)
  : outcome (option Np.tensor) :=
  match data with
  | None => Ret None
  | Some data =>
      let data_norm := data in
      for_range (seq 0 (Np.nchans data)) (fun i data_norm =>
        data_ch ← Np.get_chan data i;
        let cond := Np.valid2d data_ch in
        let data_ch_1d := Np.select data_ch cond in
        if Nat.eqb (length data_ch_1d) 0 then Ret None else
        data_ch_min ← Np.min data_ch_1d;
        data_ch_max ← Np.max data_ch_1d;
        let data_ch_norm :=
          Np.map2d (fun v =>
            (v - data_ch_min) / (data_ch_max - data_ch_min)
              * (norm_max self - norm_min self) + norm_min self)%float
            data_ch in
        let data_ch_norm := Np.assign_unless cond 0%float data_ch_norm in
        Ret (Some (Np.set_chan i data_ch_norm data_norm)))
        data_norm
  end.

End MinMaxNormalizer.

Module MinShifter.

(** [chid = -1]: every channel; otherwise only the selected one. *)
Record t := { chid : Z }.

Definition call (self : t) (data : option Np.tensor)
  : outcome (option Np.tensor) :=
  match data with
  | None => Ret None
  | Some data =>
      let data_shifted := data in
      for_range (seq 0 (Np.nchans data)) (fun i data_shifted =>
        if negb (chid self =? -1)%Z && negb (Z.of_nat i =? chid self)%Z
        then Ret (Some data_shifted) else
        data_ch ← Np.get_chan data i;
        let cond := Np.valid2d data_ch in
        let data_ch_1d := Np.select data_ch cond in
        data_ch_min ← Np.min data_ch_1d;
        let data_ch_shifted :=
          Np.map2d (fun v => v - data_ch_min)%float data_ch in
        let data_ch_shifted :=
          Np.assign_unless cond 0%float data_ch_shifted in
        Ret (Some (Np.set_chan i data_ch_shifted data_shifted)))
        data_shifted
  end.

End MinShifter.

Module Shifter.

Record t := { offsets : list float }.

Definition call (self : t) (data : option Np.tensor)
  : outcome (option Np.tensor) :=
  match data with
  | None => Ret None
  | Some data =>
      let nchannels := Np.nchans data in
      let noffsets := length (offsets self) in
      if (noffsets <=? 0)%nat || negb (noffsets =? nchannels)%nat
      then Ret None else
      let cond := Np.valid3d data in
      let data_shifted := Np.broadcast PrimFloat.sub data (offsets self) in
      let data_shifted := Np.assign_unless3d cond 0%float data_shifted in
      Ret (Some data_shifted)
  end.

End Shifter.

Module Standardizer.

Record t := { means : list float; sigmas : list float }.

Definition call (self : t) (data : option Np.tensor)
  : outcome (option Np.tensor) :=
  match data with
  | None => Ret None
  | Some data =>
      let nchannels := Np.nchans data in
      let nmeans := length (means self) in
      if (nmeans <=? 0)%nat || negb (nmeans =? nchannels)%nat
      then Ret None else
      let nsigmas := length (sigmas self) in
      if (nsigmas <=? 0)%nat || negb (nsigmas =? nchannels)%nat
      then Ret None else
      let cond := Np.valid3d data in
      let data_norm :=
        Np.broadcast PrimFloat.div
          (Np.broadcast PrimFloat.sub data (means self)) (sigmas self) in
      let data_norm := Np.assign_unless3d cond 0%float data_norm in
      Ret (Some data_norm)
  end.

End Standardizer.

Module Scaler.

Record t := { scale_factors : list float }.

(** [__init__] reads [self.scale_factors] to assign it to itself: on a
    new object the attribute does not exist yet. *)
Definition init (scale_factors : list float) : outcome t :=
  Raise AttributeError.

Definition call (self : t) (data : option Np.tensor)
  : outcome (option Np.tensor) :=
  match data with
  | None => Ret None
  | Some data =>
      let nchannels := Np.nchans data in
      let nscales := length (scale_factors self) in
      if (nscales <=? 0)%nat || negb (nscales =? nchannels)%nat
      then Ret None else
      let data_scaled :=
        Np.broadcast PrimFloat.mul data (scale_factors self) in
      Ret (Some data_scaled)
  end.

End Scaler.

Module LogStretcher.

(** [chid = -1]: every channel; otherwise the selected one is skipped. *)
Record t := {
  chid : Z;
  minmaxnorm : bool;
  data_norm_min : float;
  data_norm_max : float;
  clip_neg : bool
}.

Section external.

Variable log10 : float -> float.
(** [np.log10(a, where=m)] allocates its result and writes only where
    [m] holds: the other entries keep whatever the memory held. *)
Variable uninit : float.

Definition call (self : t) (data : option Np.tensor)
  : outcome (option Np.tensor) :=
  match data with
  | None => Ret None
  | Some data =>
      let data_transf := data in
      for_range (seq 0 (Np.nchans data)) (fun i data_transf =>
        if negb (chid self =? -1)%Z && (Z.of_nat i =? chid self)%Z
        then Ret (Some data_transf) else
        data_ch ← Np.get_chan data i;
        let badpix_cond :=
          Np.map2d (fun v => (v =? 0)%float || negb (is_finite v))
            data_ch in
        let cond_ch :=
          Np.map2d (fun v => (0 <? v)%float && is_finite v) data_ch in
        let data_ch_1d := Np.select data_ch cond_ch in
        if (length data_ch_1d <=? 0)%nat then Ret None else
        let data_ch_lg :=
          Np.zip2d (fun v (c : bool) => if c then log10 v else uninit)
            data_ch cond_ch in
        let data_ch_lg_1d := Np.select data_ch_lg cond_ch in
        data_ch_lg_min ← Np.min data_ch_lg_1d;
        let data_ch_lg :=
          Np.assign_unless cond_ch data_ch_lg_min data_ch_lg in
        let data_ch_lg :=
          if minmaxnorm self then
            let data_ch_lg_norm :=
              Np.map2d (fun v =>
                (v - data_norm_min self)
                  / (data_norm_max self - data_norm_min self))%float
                data_ch_lg in
            let data_ch_lg_norm :=
              if clip_neg self
              then Np.map2d (fun v => if (v <? 0)%float then 0%float
                                      else v) data_ch_lg_norm
              else data_ch_lg_norm in
            Np.assign_where badpix_cond 0%float data_ch_lg_norm
          else data_ch_lg in
        Ret (Some (Np.set_chan i data_ch_lg data_transf)))
        data_transf
  end.

End external.

End LogStretcher.

Module SigmaClipper.

(** [chid = -1]: every channel; otherwise only the selected one. *)
Record t := { sigma_low : float; sigma_up : float; chid : Z }.

Section external.

(** astropy's [sigma_clip(a, sigma_lower, sigma_upper, masked=True,
    return_bounds=True)]: the two bounds it returns. *)
Variable sigma_clip :
  list float -> float -> float -> outcome (float * float).

Definition clip (self : t) (data : Np.image) : outcome Np.image :=
  let cond := Np.valid2d data in
  let data_1d := Np.select data cond in
  res ← sigma_clip data_1d (sigma_low self) (sigma_up self);
  let thr_low := fst res in
  let thr_up := snd res in
  let data_clipped := data in
  let data_clipped :=
    Np.map2d (fun v => if (v <? thr_low)%float then thr_low else v)
      data_clipped in
  let data_clipped :=
    Np.map2d (fun v => if (thr_up <? v)%float then thr_up else v)
      data_clipped in
  let data_clipped := Np.assign_unless cond 0%float data_clipped in
  Ret data_clipped.

Definition call (self : t) (data : option Np.tensor)
  : outcome (option Np.tensor) :=
  match data with
  | None => Ret None
  | Some data =>
      let data_clipped := data in
      for_range (seq 0 (Np.nchans data)) (fun i data_clipped =>
        if negb (chid self =? -1)%Z && negb (Z.of_nat i =? chid self)%Z
        then Ret (Some data_clipped) else
        data_ch ← Np.get_chan data i;
        data_ch_clipped ← clip self data_ch;
        Ret (Some (Np.set_chan i data_ch_clipped data_clipped)))
        data_clipped
  end.

End external.

End SigmaClipper.

Module ZScaleTransformer.

Record t := { contrasts : list float }.

Section external.

(** astropy's [ZScaleInterval(contrast=c)(a)]: an array of the shape
    of [a], given here by its value at each position. *)
Variable zscale : float -> Np.image -> outcome (nat -> nat -> float).

Definition call (self : t) (data : option Np.tensor)
  : outcome (option Np.tensor) :=
  match data with
  | None => Ret None
  | Some data =>
      let cond := Np.valid3d data in
      let nchans := Np.nchans data in
      if (length (contrasts self) <? nchans)%nat then Ret None else
      let data_stretched := data in
      r ← for_range (seq 0 (Np.nchans data)) (fun i data_stretched =>
             data_ch ← Np.get_chan data_stretched i;
             contrast ← match contrasts self !! i with
                        | Some c => Ret c
                        | None => Raise IndexError
                        end;
             transform ← zscale contrast data_ch;
             let data_transf :=
               Np.imap2d (fun y x _ => transform y x) data_ch in
             Ret (Some (Np.set_chan i data_transf data_stretched)))
             data_stretched;
      match r with
      | None => Ret None
      | Some data_stretched =>
          Ret (Some (Np.assign_unless3d cond 0%float data_stretched))
      end
  end.

End external.

End ZScaleTransformer.

Module ChanDivider.

Record t := {
  chref : Z;
  logtransf : bool;
  strip_chref : bool;
  trim : bool;
  trim_min : float;
  trim_max : float
}.

Section external.

Variable log10 : float -> float.

Definition call (self : t) (data : option Np.tensor)
  : outcome (option Np.tensor) :=
  match data with
  | None => Ret None
  | Some data =>
      let cond := Np.valid3d data in
      iref ← Np.index (Np.nchans data) (chref self);
      data_ref ← Np.get_chan data iref;
      let cond_ref := Np.valid2d data_ref in
      let data_norm := data in
      let data_denom := data_ref in
      let data_denom :=
        Np.map2d (fun v => if (v =? 0)%float then 1%float else v)
          data_denom in
      r ← for_range (seq 0 (Np.nchans data_norm)) (fun i data_norm =>
             if (Z.of_nat i =? chref self)%Z
             then Ret (Some (Np.set_chan i data_ref data_norm))
             else
               ch ← Np.get_chan data_norm i;
               let dn := Np.zip2d PrimFloat.div ch data_denom in
               let dn := Np.assign_unless cond_ref 0%float dn in
               Ret (Some (Np.set_chan i dn data_norm)))
             data_norm;
      match r with
      | None => Ret None
      | Some data_norm =>
          let data_norm := Np.assign_unless3d cond 0%float data_norm in
          data_norm ←
            (if logtransf self then
               let data_transf := data_norm in
               let data_transf :=
                 Np.map3d (fun v => if (v <=? 0)%float then 1%float
                                    else v) data_transf in
               let data_transf_lg := Np.map3d log10 data_transf in
               let data_transf := data_transf_lg in
               let data_transf :=
                 Np.assign_unless3d cond 0%float data_transf in
               let data_transf :=
                 if trim self then
                   let d :=
                     Np.map3d (fun v => if (trim_max self <? v)%float
                                        then trim_max self else v)
                       data_transf in
                   Np.map3d (fun v => if (v <? trim_min self)%float
                                      then trim_min self else v) d
                 else data_transf in
               ref_norm ← Np.get_chan data_norm iref;
               Ret (Np.set_chan iref ref_norm data_transf)
             else Ret data_norm);
          (* [np.delete(data_norm, chref, axis=2)]: the method has no
             variable [chref], only the attribute [self.chref]. *)
          if strip_chref self then Raise NameError
          else Ret (Some data_norm)
      end
  end.

End external.

End ChanDivider.

Module ChanResizer.

Record t := { nchans : Z }.

Definition nchans_max : Z := 1000.

(** The pipeline hands every stage a three-dimensional cube, so
    [data.ndim] is 3 and [nchans_curr] is [data.shape[-1]]. *)
Definition call (self : t) (data : option Np.tensor)
  : outcome (option Np.tensor) :=
  match data with
  | None => Ret None
  | Some data =>
      if (nchans_max <? nchans self)%Z || (nchans self <=? 0)%Z
      then Ret None else
      let cond := Np.valid3d data in
      let nchans_curr := Np.nchans data in
      if (nchans self =? Z.of_nat nchans_curr)%Z then Ret (Some data) else
      let expanding := (Z.of_nat nchans_curr <? nchans self)%Z in
      let data_resized :=
        replicate (Z.to_nat (nchans self))
          (replicate (Np.nrows (hd [] data))
             (replicate (Np.ncols (hd [] data)) 0%float)) in
      if expanding then
        for_range (seq 0 (Z.to_nat (nchans self))) (fun i data_resized =>
          if (i <? nchans_curr)%nat then
            ch ← Np.get_chan data i;
            Ret (Some (Np.set_chan i ch data_resized))
          else
            last ← Np.index nchans_curr (Z.of_nat nchans_curr - 1);
            ch ← Np.get_chan data last;
            Ret (Some (Np.set_chan i ch data_resized)))
          data_resized
      else
        for_range (seq 0 (Z.to_nat (nchans self))) (fun i data_resized =>
          ch ← Np.get_chan data i;
          Ret (Some (Np.set_chan i ch data_resized)))
          data_resized
  end.

End ChanResizer.

(** ** The pipeline *)

(** What a stage object can be called with: the data, or [None].  [W] is
    whatever a call may read and change besides its argument (the random
    generators of an augmenter, an array the caller still holds). *)
Definition callable (W : Type) : Type :=
  option Np.tensor -> W -> outcome (option Np.tensor) * W.

(** The classes of the module. *)
Module Class.
Inductive t : Set :=
  | MinMaxNormalizer | AbsMinMaxNormalizer | MaxScaler | AbsMaxScaler
  | ChanMaxScaler | MinShifter | Shifter | Standardizer
  | NegativeDataFixer | Scaler | LogStretcher | BorderMasker
  | BkgSubtractor | SigmaClipShifter | SigmaClipper | Resizer
  | ChanDivider | ZScaleTransformer | ChanResizer | Augmenter
  | MaskShrinker.

#[global] Instance eq_dec : EqDecision t.
Proof. solve_decision. Defined.
End Class.

Module Utils.

Section fcns.

Context {W : Type}.

(** [lambda x: f(g(x))]. *)
Definition compose2 (f g : callable W) : callable W :=
  fun x w =>
    match g x w with
    | (Ret y, w') => f y w'
    | (Raise e, w') => (Raise e, w')
    end.

(** Modelled from the spec: [Utils.compose_fcns] is defined in
    utils.py, which is not among the sources.  The spec gives the
    composed function as [stage_{n-1} o ... o stage_0] for the stage
    list, and the caller reverses that list because "fcn compose take
    functions in the opposite order": [compose_fcns(f1, ..., fn)] is
    [f1 o ... o fn], the last function applied first.  Of an empty
    list the spec says nothing; the identity stands for it here. *)
Definition compose_fcns (funcs : list (callable W))
  : outcome (callable W) :=
  match funcs with
  | [] => Ret (fun x w => (Ret x, w))
  | f :: funcs' => Ret (foldl compose2 f funcs')
  end.

End fcns.

End Utils.

Module DataPreprocessor.

Section pipeline.

Context {W : Type}.

(** A stage object: its class and its [__call__]. *)
Record stage := { class_of : Class.t; __call__ : callable W }.

(** The bound method [stage.__call__]. *)
Record method := { __self__ : stage }.

Definition invoke (m : method) : callable W := __call__ (__self__ m).

Definition isinstance (s : stage) (c : Class.t) : bool :=
  bool_decide (class_of s = c).

Variable compose_fcns : list (callable W) -> outcome (callable W).

Record t := { fcns : list method; pipeline : callable W }.

Definition init (stages : list stage) : outcome t :=
  let fcns := foldl (fun fcns stage => fcns ++ [{| __self__ := stage |}])
                [] stages in
  let fcns := reverse fcns in
  pipeline ← compose_fcns (invoke <$> fcns);
  Ret {| fcns := fcns; pipeline := pipeline |}.

Definition call (self : t) (data : option Np.tensor) : W ->
  outcome (option Np.tensor) * W :=
  pipeline self data.

(** The method changes [self]; the object after the call is
    returned. *)
Definition disable_augmentation (self : t) : outcome t :=
  let '(recreate_pipeline, fcns_new) :=
    foldl (fun (st : bool * list method) (f : method) =>
             let is_augmenter :=
               isinstance (__self__ f) Class.Augmenter in
             if is_augmenter then (true, snd st)
             else (fst st, snd st ++ [f]))
      (false, []) (fcns self) in
  if recreate_pipeline then
    pipeline ← compose_fcns (invoke <$> fcns_new);
    Ret {| fcns := fcns_new; pipeline := pipeline |}
  else Ret self.

(** The same method, with the object as the call leaves it also when
    composing raises: [self.fcns] is assigned before
    [Utils.compose_fcns] is called, [self.pipeline] only once it has
    returned. *)
Definition disable_augmentation_in_place (self : t) : outcome unit * t :=
  let '(recreate_pipeline, fcns_new) :=
    foldl (fun (st : bool * list method) (f : method) =>
             let is_augmenter :=
               isinstance (__self__ f) Class.Augmenter in
             if is_augmenter then (true, snd st)
             else (fst st, snd st ++ [f]))
      (false, []) (fcns self) in
  if recreate_pipeline then
    let self := {| fcns := fcns_new; pipeline := pipeline self |} in
    match compose_fcns (invoke <$> fcns self) with
    | Ret pipeline => (Ret (), {| fcns := fcns self; pipeline := pipeline |})
    | Raise e => (Raise e, self)
    end
  else (Ret (), self).

End pipeline.

Arguments stage : clear implicits.
Arguments method : clear implicits.
Arguments t : clear implicits.

End DataPreprocessor.

(** A stage that only computes a new array from its argument. *)
Definition pure_call {W : Type}
    (f : option Np.tensor -> outcome (option Np.tensor)) : callable W :=
  fun x w => (f x, w).

(** The stages of a list called one after the other, each on what the
    previous one returned; an exception ends the run. *)
Fixpoint run_in_order {W : Type} (stages : list (DataPreprocessor.stage W))
  : callable W :=
  match stages with
  | [] => fun x w => (Ret x, w)
  | s :: rest => fun x w =>
      match DataPreprocessor.__call__ s x w with
      | (Ret y, w') => run_in_order rest y w'
      | (Raise e, w') => (Raise e, w')
      end
  end.

(** [self.fcns] after [__init__]: the bound methods, last stage first. *)
Definition fcns_of {W : Type} (stages : list (DataPreprocessor.stage W))
  : list (DataPreprocessor.method W) :=
  reverse ((fun s => {| DataPreprocessor.__self__ := s |}) <$> stages).

Definition not_augmenter {W : Type} (s : DataPreprocessor.stage W) : bool :=
  negb (DataPreprocessor.isinstance s Class.Augmenter).

(** ** Stages that write into their argument *)

(** Arrays are objects: a variable holds a reference, and [data[:,:,i]]
    is a view that shares the memory of [data]. *)
Module Mem.

Abbreviation loc := nat (only parsing).
Abbreviation heap := (gmap nat (list (list (list float)))) (only parsing).

Definition M (A : Type) : Type := heap -> outcome A * heap.

#[global] Instance M_ret : MRet M := fun A a h => (Ret a, h).
#[global] Instance M_bind : MBind M := fun A B f m h =>
  match m h with
  | (Ret a, h') => f a h'
  | (Raise e, h') => (Raise e, h')
  end.

Definition lift {A} (o : outcome A) : M A := fun h => (o, h).

(** The array a reference points to. *)
Definition deref (l : loc) : M Np.tensor := fun h =>
  match h !! l with
  | Some t => (Ret t, h)
  | None => (Raise NameError, h)
  end.

(** A new object holding [t], and the update of an existing one. *)
Definition alloc (t : Np.tensor) : M loc := fun h =>
  let l' := fresh (dom h) in (Ret l', <[l' := t]> h).

Definition update (l : loc) (t : Np.tensor) : M unit := fun h =>
  (Ret (), <[l := t]> h).

(** [np.copy(data)]: a new object. *)
Definition np_copy (l : loc) : M loc :=
  t ← deref l;
  alloc t.

(** The view [data[:,:,i]]. *)
Record view := { base : loc; chan : nat }.

Definition read (v : view) : M Np.image :=
  t ← deref (base v);
  lift (Np.get_chan t (chan v)).

(** [v[m] = x] through a view: the write lands in the base array. *)
Definition assign_where (v : view) (m : Np.plane bool) (x : float)
  : M unit :=
  t ← deref (base v);
  a ← lift (Np.get_chan t (chan v));
  update (base v) (Np.set_chan (chan v) (Np.assign_where m x a) t).

(** [dst[:,:,i] = src] for a view [src]. *)
Definition store_chan (dst : loc) (i : nat) (src : view) : M unit :=
  a ← read src;
  t ← deref dst;
  update dst (Np.set_chan i a t).

(** [for i in range(n)]. *)
Fixpoint for_each (rng : list nat) (body : nat -> M unit) : M unit :=
  match rng with
  | [] => mret ()
  | i :: rng' => body i ;; for_each rng' body
  end.

End Mem.

(** The bounds of [a[start:stop]] on an axis of length [n]. *)
Definition slice_bound (n : nat) (i : Z) : Z :=
  let i := if (i <? 0)%Z then (i + Z.of_nat n)%Z else i in
  Z.min (Z.max i 0) (Z.of_nat n).

Definition in_slice (n : nat) (start stop : Z) (k : nat) : bool :=
  (slice_bound n start <=? Z.of_nat k)%Z
  && (Z.of_nat k <? slice_bound n stop)%Z.

Module BorderMasker.

Record t := { mask_fract : float }.

(** [mask = np.zeros(data_shape); mask[ymin:ymax, xmin:xmax] = 1], then
    [mask==0]: the pixels outside the centred box. *)
Definition outside (self : t) (ny nx : nat) : outcome (Np.plane bool) :=
  xc ← py_int (float_of_Z (Z.of_nat nx) / 2)%float;
  yc ← py_int (float_of_Z (Z.of_nat ny) / 2)%float;
  dy ← py_int (float_of_Z (Z.of_nat ny) * mask_fract self / 2)%float;
  dx ← py_int (float_of_Z (Z.of_nat nx) * mask_fract self / 2)%float;
  let xmin := (xc - dx)%Z in
  let xmax := (xc + dx)%Z in
  let ymin := (yc - dy)%Z in
  let ymax := (yc + dy)%Z in
  let mask := replicate ny (replicate nx false) in
  let mask :=
    Np.imap2d (fun y x (b : bool) =>
      if in_slice ny ymin ymax y && in_slice nx xmin xmax x
      then true else b) mask in
  Ret (Np.map2d negb mask).

Definition call (self : t) (data : option nat)
  : Mem.M (option nat) :=
  match data with
  | None => mret None
  | Some data =>
      data_masked ← Mem.np_copy data;
      shape ← Mem.deref data;
      Mem.for_each (seq 0 (Np.nchans shape)) (fun i =>
        let data_ch := {| Mem.base := data; Mem.chan := i |} in
        a ← Mem.read data_ch;
        let cond := Np.valid2d a in
        let data_ch_1d := Np.select a cond in
        data_min ← Mem.lift (Np.min data_ch_1d);
        mask0 ← Mem.lift (outside self (Np.nrows a) (Np.ncols a));
        Mem.assign_where data_ch mask0 0%float;;
        Mem.store_chan data_masked i data_ch);;
      mret (Some data_masked)
  end.

End BorderMasker.

Module MaskShrinker.

Record t := { kernsize : Z }.

Section external.

(** OpenCV: the structuring element of [cv2.getStructuringElement
    (cv2.MORPH_ELLIPSE, (k, k))], and where the result of
    [cv2.erode(mask, structel, iterations=1)] is not zero. *)
Variable kernel : Type.
Variable getStructuringElement : Z -> outcome kernel.
Variable erode :
  Np.plane bool -> kernel -> outcome (nat -> nat -> bool).

Definition call (self : t) (data : option nat)
  : Mem.M (option nat) :=
  match data with
  | None => mret None
  | Some data =>
      structel ← Mem.lift (getStructuringElement (kernsize self));
      data_shrinked ← Mem.np_copy data;
      shape ← Mem.deref data;
      Mem.for_each (seq 0 (Np.nchans shape)) (fun i =>
        a ← Mem.read {| Mem.base := data; Mem.chan := i |};
        let mask := Np.valid2d a in
        mask_eroded ← Mem.lift (erode mask structel);
        let img_eroded := {| Mem.base := data; Mem.chan := i |} in
        let gone :=
          Np.imap2d (fun y x (_ : bool) => negb (mask_eroded y x))
            mask in
        Mem.assign_where img_eroded gone 0%float;;
        Mem.store_chan data_shrinked i img_eroded);;
      mret (Some data_shrinked)
  end.

End external.

End MaskShrinker.

(** What the two loops above do with channel [i]: compute a mask from
    the plane, write 0 through the view of [data] where the mask holds,
    and copy the plane to the new array. *)
Definition mask_channel (data data_new : nat)
    (maskf : Np.image -> outcome (Np.plane bool)) (i : nat) : Mem.M unit :=
  a ← Mem.read {| Mem.base := data; Mem.chan := i |};
  m ← Mem.lift (maskf a);
  Mem.assign_where {| Mem.base := data; Mem.chan := i |} m 0%float;;
  Mem.store_chan data_new i {| Mem.base := data; Mem.chan := i |}.

(** The mask of BorderMasker for a plane (its [min()] is taken first),
    and the mask of MaskShrinker. *)
Definition border_mask (self : BorderMasker.t) (a : Np.image)
  : outcome (Np.plane bool) :=
  _ ← Np.min (Np.select a (Np.valid2d a));
  BorderMasker.outside self (Np.nrows a) (Np.ncols a).

Definition eroded_mask {kernel : Type}
    (erode : Np.plane bool -> kernel -> outcome (nat -> nat -> bool))
    (structel : kernel) (a : Np.image) : outcome (Np.plane bool) :=
  mask_eroded ← erode (Np.valid2d a) structel;
  Ret (Np.imap2d (fun y x (_ : bool) => negb (mask_eroded y x))
         (Np.valid2d a)).

(** The order of the finite numbers other than zero, on their sign,
    exponent and mantissa: what [<] computes on them. *)
Definition lt_finite (f1 f2 : spec_float) : Prop :=
  match f1, f2 with
  | S754_finite s1 m1 e1, S754_finite s2 m2 e2 =>
      match s1, s2 with
      | true, false => True
      | false, true => False
      | false, false => (e1 < e2 \/ (e1 = e2 /\ Zpos m1 < Zpos m2))%Z
      | true, true => (e2 < e1 \/ (e1 = e2 /\ Zpos m2 < Zpos m1))%Z
      end
  | _, _ => False
  end.

(** ** Stages that shift or subtract *)

Module NegativeDataFixer.

Definition call (data : option Np.tensor) : outcome (option Np.tensor) :=
  match data with
  | None => Ret None
  | Some data =>
      let data_shifted := data in
      for_range (seq 0 (Np.nchans data)) (fun i data_shifted =>
        data_ch ← Np.get_chan data i;
        let cond := Np.valid2d data_ch in
        let data_ch_1d := Np.select data_ch cond in
        data_ch_min ← Np.min data_ch_1d;
        data_ch_max ← Np.max data_ch_1d;
        if (0 <? data_ch_max)%float then Ret (Some data_shifted) else
        let data_ch_shifted :=
          Np.map2d (fun v => v - data_ch_min)%float data_ch in
        let data_ch_shifted :=
          Np.assign_unless cond 0%float data_ch_shifted in
        Ret (Some (Np.set_chan i data_ch_shifted data_shifted)))
        data_shifted
  end.

End NegativeDataFixer.

(** The box [ymin:ymax, xmin:xmax] centred in a plane of [ny] x [nx]
    pixels that several stages compute from [mask_fract]. *)
Definition centre_box (mask_fract : float) (ny nx : nat)
  : outcome (Z * Z * Z * Z) :=
  xc ← py_int (float_of_Z (Z.of_nat nx) / 2)%float;
  yc ← py_int (float_of_Z (Z.of_nat ny) / 2)%float;
  dy ← py_int (float_of_Z (Z.of_nat ny) * mask_fract / 2)%float;
  dx ← py_int (float_of_Z (Z.of_nat nx) * mask_fract / 2)%float;
  let xmin := (xc - dx)%Z in
  let xmax := (xc + dx)%Z in
  let ymin := (yc - dy)%Z in
  let ymax := (yc + dy)%Z in
  Ret (ymin, ymax, xmin, xmax).

Definition in_box (box : Z * Z * Z * Z) (ny nx y x : nat) : bool :=
  let '(ymin, ymax, xmin, xmax) := box in
  in_slice ny ymin ymax y && in_slice nx xmin xmax x.

Module BkgSubtractor.

(** [chid = -1]: every channel; otherwise only the selected one. *)
Record t := {
  sigma : float;
  use_mask_box : bool;
  mask_fract : float;
  chid : Z
}.

Section external.

(** astropy's [sigma_clipped_stats(a, sigma=s)]: the mean, the median
    and the standard deviation of the clipped sample. *)
Variable sigma_clipped_stats :
  list float -> float -> outcome (float * float * float).

(** The arguments of a [logger.debug] call are computed whatever the
    log level: [min()] and [max()] of an empty selection raise. *)
Definition subtract_bkg (self : t) (data : Np.image) : outcome Np.image :=
  let cond := Np.valid2d data in
  let bkgdata := data in
  bkgdata ←
    (if use_mask_box self then
       box ← centre_box (mask_fract self) (Np.nrows data) (Np.ncols data);
       Ret (Np.imap2d (fun y x v =>
              if in_box box (Np.nrows data) (Np.ncols data) y x
              then 0%float else v) bkgdata)
     else Ret bkgdata);
  let cond_bkg := Np.valid2d bkgdata in
  let bkgdata_1d := Np.select bkgdata cond_bkg in
  _ ← Np.min bkgdata_1d;
  _ ← Np.max bkgdata_1d;
  stats ← sigma_clipped_stats bkgdata_1d (sigma self);
  let bkgval := fst (fst stats) in
  let data_bkgsub := Np.map2d (fun v => v - bkgval)%float data in
  let data_bkgsub := Np.assign_unless cond 0%float data_bkgsub in
  let cond_bkgsub := Np.valid2d data_bkgsub in
  let data_bkgsub_1d := Np.select data_bkgsub cond_bkgsub in
  _ ← Np.min data_bkgsub_1d;
  _ ← Np.max data_bkgsub_1d;
  Ret data_bkgsub.

Definition call (self : t) (data : option Np.tensor)
  : outcome (option Np.tensor) :=
  match data with
  | None => Ret None
  | Some data =>
      let data_bkgsub := data in
      for_range (seq 0 (Np.nchans data)) (fun i data_bkgsub =>
        if negb (chid self =? -1)%Z && negb (Z.of_nat i =? chid self)%Z
        then Ret (Some data_bkgsub) else
        data_ch ← Np.get_chan data i;
        data_ch_bkgsub ← subtract_bkg self data_ch;
        Ret (Some (Np.set_chan i data_ch_bkgsub data_bkgsub)))
        data_bkgsub
  end.

End external.

End BkgSubtractor.

Module SigmaClipShifter.

(** [chid = -1]: every channel; otherwise only the selected one. *)
Record t := { sigma : float; chid : Z }.

Section external.

Variable sigma_clipped_stats :
  list float -> float -> outcome (float * float * float).

Definition clip (self : t) (data : Np.image) : outcome Np.image :=
  let cond := Np.valid2d data in
  let data_1d := Np.select data cond in
  stats ← sigma_clipped_stats data_1d (sigma self);
  let clipmean := fst (fst stats) in
  let stddev := snd stats in
  let newzero := (clipmean + sigma self * stddev)%float in
  let data_clipped := data in
  let data_clipped := Np.map2d (fun v => v - newzero)%float data_clipped in
  let data_clipped :=
    Np.map2d (fun v => if (v <? 0)%float then 0%float else v)
      data_clipped in
  let data_clipped := Np.assign_unless cond 0%float data_clipped in
  let cond_clipped := Np.valid2d data_clipped in
  let data_clipped_1d := Np.select data_clipped cond_clipped in
  _ ← Np.min data_clipped_1d;
  _ ← Np.max data_clipped_1d;
  Ret data_clipped.

Definition call (self : t) (data : option Np.tensor)
  : outcome (option Np.tensor) :=
  match data with
  | None => Ret None
  | Some data =>
      let data_clipped := data in
      for_range (seq 0 (Np.nchans data)) (fun i data_clipped =>
        if negb (chid self =? -1)%Z && negb (Z.of_nat i =? chid self)%Z
        then Ret (Some data_clipped) else
        data_ch ← Np.get_chan data i;
        data_ch_clipped ← clip self data_ch;
        Ret (Some (Np.set_chan i data_ch_clipped data_clipped)))
        data_clipped
  end.

End external.

End SigmaClipShifter.

(** ** Resizer *)

Module Resizer.

Record t := {
  resize_size : Z;
  preserve_range : bool;
  upscale : bool;
  downscale_with_antialiasing : bool;
  set_pad_val_to_min : bool
}.

Section external.

(** [Utils.resize_img_v2(data, min_dim, max_dim, min_scale=None,
    mode="square", order=1, anti_aliasing, preserve_range)[0]]: the
    function is defined in utils.py, which is not among the sources; the
    first entry of what it returns may be [None].  [img_as_float64] is
    scikit-image's conversion. *)
Variable resize_img_v2 :
  Np.tensor -> option Z -> Z -> bool -> bool -> outcome (option Np.tensor).
Variable img_as_float64 : Np.tensor -> outcome Np.tensor.

Definition call (self : t) (data : option Np.tensor)
  : outcome (option Np.tensor) :=
  match data with
  | None => Ret None
  | Some data =>
      let nx := Z.of_nat (Np.ncols (hd [] data)) in
      let ny := Z.of_nat (Np.nrows (hd [] data)) in
      let is_same_size :=
        (nx =? resize_size self)%Z && (ny =? resize_size self)%Z in
      if is_same_size then Ret (Some data) else
      let max_dim := resize_size self in
      let min_dim := if upscale self then Some (resize_size self)
                     else None in
      let downscaling :=
        (resize_size self <? nx)%Z && (resize_size self <? ny)%Z in
      let antialiasing :=
        downscaling && downscale_with_antialiasing self in
      (* try: ... except: ... inside try: ... except Exception *)
      let ret :=
        match resize_img_v2 data min_dim max_dim antialiasing
                (preserve_range self) with
        | Ret r => Ret r
        | Raise _ =>
            data64 ← img_as_float64 data;
            resize_img_v2 data64 min_dim max_dim antialiasing
              (preserve_range self)
        end in
      match ret with
      | Raise _ => Ret None
      | Ret data_resized =>
          if set_pad_val_to_min self then
            match data_resized with
            | None => Raise AttributeError
            | Some data_resized =>
                for_range (seq 0 (Np.nchans data_resized))
                  (fun i data_resized =>
                     data_ch ← Np.get_chan data_resized i;
                     let cond_ch := Np.valid2d data_ch in
                     let data_ch_1d := Np.select data_ch cond_ch in
                     data_min ← Np.min data_ch_1d;
                     let data_ch :=
                       Np.assign_unless cond_ch data_min data_ch in
                     Ret (Some (Np.set_chan i data_ch data_resized)))
                  data_resized
            end
          else Ret data_resized
      end
  end.

End external.

End Resizer.

(** ** Stages that scale by a maximum *)

(** numpy.ma: [np.ma.masked_where(~cond, a).max()] is the largest of
    the elements that are not masked, or the constant [masked] when
    every element is; [min()] likewise. *)
Module Ma.

Definition max (unmasked : list float) : option float :=
  match unmasked with
  | [] => None
  | v :: l => Some (foldl fmax v l)
  end.

Definition min (unmasked : list float) : option float :=
  match unmasked with
  | [] => None
  | v :: l => Some (foldl fmin v l)
  end.

(** What a stage hands back: a plain array, or a numpy.ma array when it
    computed with the constant [masked]. *)
Inductive result : Type :=
  | Array (a : Np.tensor)
  | MaskedArray.

End Ma.

(** [l[start:stop]] and [a[ymin:ymax, xmin:xmax]]. *)
Definition slice {A} (start stop : Z) (l : list A) : list A :=
  let lo := Z.to_nat (slice_bound (length l) start) in
  let hi := Z.to_nat (slice_bound (length l) stop) in
  take (hi - lo) (drop lo l).

Definition slice2d {A} (box : Z * Z * Z * Z) (a : Np.plane A) : Np.plane A :=
  let '(ymin, ymax, xmin, xmax) := box in
  (fun row : list A => slice xmin xmax row) <$> slice ymin ymax a.

Module MaxScaler.

Section external.

(** numpy.ma's default fill value for floats (1e20): what [.data] shows
    for the maximum of a channel that is masked everywhere. *)
Variable fill_value : float.

Definition call (data : option Np.tensor) : outcome (option Np.tensor) :=
  match data with
  | None => Ret None
  | Some data =>
      let cond := Np.valid3d data in
      let data_max :=
        (fun ch : Np.image =>
           default fill_value (Ma.max (Np.select ch (Np.valid2d ch))))
        <$> data in
      let data_scaled := Np.broadcast PrimFloat.div data data_max in
      let data_scaled := Np.assign_unless3d cond 0%float data_scaled in
      Ret (Some data_scaled)
  end.

End external.

End MaxScaler.

Module AbsMaxScaler.

Record t := { use_mask_box : bool; mask_fract : float }.

(** The maximum is taken over the whole cube; its value does not depend
    on the order in which the pixels are visited. *)
Definition call (self : t) (data : option Np.tensor)
  : outcome (option Ma.result) :=
  match data with
  | None => Ret None
  | Some data =>
      let cond := Np.valid3d data in
      let ny := Np.nrows (hd [] data) in
      let nx := Np.ncols (hd [] data) in
      cond_max ←
        (if use_mask_box self then
           box ← centre_box (mask_fract self) ny nx;
           let border_mask :=
             (fun ch : Np.image =>
                Np.imap2d (fun y x (_ : float) => in_box box ny nx y x) ch)
             <$> data in
           Ret (Np.zip3d andb cond border_mask)
         else Ret cond);
      let data_max := Ma.max (concat (zip_with Np.select data cond_max)) in
      match data_max with
      | Some data_max =>
          let data_scaled := Np.map3d (fun v => v / data_max)%float data in
          let data_scaled := Np.assign_unless3d cond 0%float data_scaled in
          Ret (Some (Ma.Array data_scaled))
      | None => Ret (Some Ma.MaskedArray)
      end
  end.

End AbsMaxScaler.

Module AbsMinMaxNormalizer.

Record t := { norm_min : float; norm_max : float }.

(** The minimum and the maximum are taken over the valid pixels of the
    whole cube; their values do not depend on the order in which the
    pixels are visited. *)
Definition call (self : t) (data : option Np.tensor)
  : outcome (option Ma.result) :=
  match data with
  | None => Ret None
  | Some data =>
      let cond := Np.valid3d data in
      let unmasked := concat (zip_with Np.select data cond) in
      let data_min := Ma.min unmasked in
      let data_max := Ma.max unmasked in
      match data_min, data_max with
      | Some data_min, Some data_max =>
          let data_norm :=
            Np.map3d (fun v =>
              (v - data_min) / (data_max - data_min)
                * (norm_max self - norm_min self) + norm_min self)%float
              data in
          let data_norm := Np.assign_unless3d cond 0%float data_norm in
          Ret (Some (Ma.Array data_norm))
      | _, _ => Ret (Some Ma.MaskedArray)
      end
  end.

End AbsMinMaxNormalizer.

Module ChanMaxScaler.

Record t := { chref : Z; use_mask_box : bool; mask_fract : float }.

Definition crop (box : option (Z * Z * Z * Z)) (a : Np.image) : Np.image :=
  match box with
  | Some box => slice2d box a
  | None => a
  end.

Definition call (self : t) (data : option Np.tensor)
  : outcome (option Ma.result) :=
  match data with
  | None => Ret None
  | Some data =>
      let cond := Np.valid3d data in
      iref ← Np.index (Np.nchans data) (chref self);
      data_ch ← Np.get_chan data iref;
      box ←
        (if use_mask_box self then
           box ← centre_box (mask_fract self) (Np.nrows data_ch)
                   (Np.ncols data_ch);
           Ret (Some box)
         else Ret None);
      let data_ch := crop box data_ch in
      let cond_ch := Np.valid2d data_ch in
      let data_max := Ma.max (Np.select data_ch cond_ch) in
      (* the loop only checks: it returns None or goes on *)
      checked ←
        for_range (seq 0 (Np.nchans data)) (fun i unchanged =>
          data_ch ← Np.get_chan data i;
          let data_ch := crop box data_ch in
          let cond_ch := Np.valid2d data_ch in
          let data_ch_1d := Np.select data_ch cond_ch in
          data_ch_max ← Np.max data_ch_1d;
          if (data_ch_max <=? 0)%float || negb (is_finite data_ch_max)
          then Ret None else Ret (Some unchanged))
          data;
      match checked with
      | None => Ret None
      | Some _ =>
          match data_max with
          | Some data_max =>
              let data_scaled :=
                Np.map3d (fun v => v / data_max)%float data in
              let data_scaled :=
                Np.assign_unless3d cond 0%float data_scaled in
              Ret (Some (Ma.Array data_scaled))
          | None => Ret (Some Ma.MaskedArray)
          end
      end
  end.

End ChanMaxScaler.

(** ** The custom augmenters *)

(** ZScaleAugmenter, PercentileThrAugmenter and SigmoidStretchAugmenter
    share one [_augment_batch_], up to the names: it picks a list of
    parameters (contrasts, percentiles, gains), one per channel, when
    the list is empty, and applies the class's image function to every
    image of the batch in place.  [np.random] is the global generator:
    its state is threaded through. *)
Module CustomAugmenter.

(** What a batch run can raise: a built-in exception, or the plain
    [Exception] of the [raise] statement. *)
Inductive raised : Set :=
  | Builtin (e : pyexn)
  | Exception.

(** [param]: contrast, percentile or gain; [random_param],
    [random_param_per_ch], [param_min], [param_max], [seed]. *)
Record t := {
  param : float;
  random_param : bool;
  random_param_per_ch : bool;
  param_min : float;
  param_max : float;
  seed : option Z
}.

Section batch.

(** The state of [np.random], [np.random.seed(s)] and
    [np.random.uniform(low, high)]. *)
Variable G : Type.
Variable seed_rng : Z -> G.
Variable uniform : float -> float -> G -> float * G.

(** The image function of the class: [__get_zscale_image] and the
    like. *)
Variable transform :
  option Np.tensor -> list float -> outcome (option Np.tensor).

(** The parameters for [nb_channels] channels, fixed or random. *)
Definition choose (self : t) (nb_channels : nat) (g : G)
  : list float * G :=
  if random_param self then
    if random_param_per_ch self then
      foldl (fun (st : list float * G) (k : nat) =>
               let '(param_rand, g') :=
                 uniform (param_min self) (param_max self) (snd st) in
               (fst st ++ [param_rand], g'))
        ([], g) (seq 0 nb_channels)
    else
      let '(param_rand, g') := uniform (param_min self) (param_max self) g in
      (replicate nb_channels param_rand, g')
  else (replicate nb_channels (param self), g).

(** The loop over the batch: the exception raised, if any, the images
    as the loop leaves them, and the generator. *)
Fixpoint loop (self : t) (rng : list nat) (params : list float)
    (images : list (option Np.tensor)) (g : G)
  : option raised * list (option Np.tensor) * G :=
  match rng with
  | [] => (None, images, g)
  | i :: rng' =>
      match images !! i with
      | None => (Some (Builtin IndexError), images, g)
      | Some None => (Some (Builtin AttributeError), images, g)
      | Some (Some image) =>
          let nb_channels := Np.nchans image in
          let '(params, g) :=
            match params with
            | [] => choose self nb_channels g
            | _ => (params, g)
            end in
          match transform (Some image) params with
          | Raise e => (Some (Builtin e), images, g)
          | Ret r =>
              let images := <[i := r]> images in
              match r with
              | None => (Some Exception, images, g)
              | Some _ => loop self rng' params images g
              end
          end
      end
  end.

Definition augment_batch (self : t)
    (images : option (list (option Np.tensor))) (g : G)
  : option raised * option (list (option Np.tensor)) * G :=
  match images with
  | None => (None, None, g)
  | Some images =>
      let nb_images := length images in
      let params := [] in
      let g := match seed self with
               | Some s => seed_rng s
               | None => g
               end in
      let '(e, images, g) := loop self (seq 0 nb_images) params images g in
      (e, Some images, g)
  end.

End batch.

End CustomAugmenter.

Module ZScaleAugmenter.

Section external.

Variable zscale : float -> Np.image -> outcome (nat -> nat -> float).

(** The message of the error branch reads [self.contrasts], an
    attribute the object does not have. *)
Definition get_zscale_image (data : option Np.tensor)
    (contrasts : list float) : outcome (option Np.tensor) :=
  match data with
  | None => Ret None
  | Some data =>
      let cond := Np.valid3d data in
      let nchans := Np.nchans data in
      if (length contrasts <? nchans)%nat then Raise AttributeError else
      let data_stretched := data in
      r ← for_range (seq 0 (Np.nchans data)) (fun i data_stretched =>
             data_ch ← Np.get_chan data_stretched i;
             contrast ← match contrasts !! i with
                        | Some c => Ret c
                        | None => Raise IndexError
                        end;
             transform ← zscale contrast data_ch;
             let data_transf :=
               Np.imap2d (fun y x _ => transform y x) data_ch in
             Ret (Some (Np.set_chan i data_transf data_stretched)))
             data_stretched;
      match r with
      | None => Ret None
      | Some data_stretched =>
          Ret (Some (Np.assign_unless3d cond 0%float data_stretched))
      end
  end.

Definition augment_batch (G : Type) (seed_rng : Z -> G)
    (uniform : float -> float -> G -> float * G) :=
  CustomAugmenter.augment_batch G seed_rng uniform get_zscale_image.

End external.

End ZScaleAugmenter.

Module PercentileThrAugmenter.

Section external.

(** [np.percentile(a, q)] of a whole cube. *)
Variable percentile : Np.tensor -> float -> outcome float.

Definition get_percentile_thresholded_image (data : option Np.tensor)
    (percentiles : list float) : outcome (option Np.tensor) :=
  match data with
  | None => Ret None
  | Some data =>
      let cond := Np.valid3d data in
      let nchans := Np.nchans data in
      if (length percentiles <? nchans)%nat then Raise AttributeError else
      let data_thresholded := data in
      r ← for_range (seq 0 (Np.nchans data)) (fun i data_thresholded =>
             q ← match percentiles !! i with
                 | Some q => Ret q
                 | None => Raise IndexError
                 end;
             data_ch ← Np.get_chan data_thresholded i;
             let cond_ch := Np.valid2d data_ch in
             p ← percentile data q;
             let data_ch :=
               Np.map2d (fun v => if (v <? p)%float then 0%float else v)
                 data_ch in
             let data_ch := Np.assign_unless cond_ch 0%float data_ch in
             Ret (Some (Np.set_chan i data_ch data_thresholded)))
             data_thresholded;
      match r with
      | None => Ret None
      | Some data_thresholded =>
          Ret (Some (Np.assign_unless3d cond 0%float data_thresholded))
      end
  end.

Definition augment_batch (G : Type) (seed_rng : Z -> G)
    (uniform : float -> float -> G -> float * G) :=
  CustomAugmenter.augment_batch G seed_rng uniform
    get_percentile_thresholded_image.

End external.

End PercentileThrAugmenter.

Module SigmoidStretchAugmenter.

Section external.

(** scikit-image: [rescale_intensity(a, out_range=(0.,1.))] and
    [adjust_sigmoid(a, cutoff, gain, inv=False)]. *)
Variable rescale_intensity : Np.image -> outcome Np.image.
Variable adjust_sigmoid : Np.image -> float -> float -> outcome Np.image.

Definition get_transformed_image (cutoff : float)
    (data : option Np.tensor) (gains : list float)
  : outcome (option Np.tensor) :=
  match data with
  | None => Ret None
  | Some data =>
      let cond := Np.valid3d data in
      let nchans := Np.nchans data in
      if (length gains <? nchans)%nat then Raise AttributeError else
      let data_transformed := data in
      r ← for_range (seq 0 (Np.nchans data)) (fun i data_transformed =>
             data_ch ← Np.get_chan data i;
             data_ch_min ← Np.min (concat data_ch);
             data_ch ← (if (data_ch_min <? 0)%float
                        then rescale_intensity data_ch
                        else Ret data_ch);
             gain ← match gains !! i with
                    | Some gain => Ret gain
                    | None => Raise IndexError
                    end;
             stretched ← adjust_sigmoid data_ch cutoff gain;
             Ret (Some (Np.set_chan i stretched data_transformed)))
             data_transformed;
      match r with
      | None => Ret None
      | Some data_transformed =>
          Ret (Some (Np.assign_unless3d cond 0%float data_transformed))
      end
  end.

Definition augment_batch (G : Type) (seed_rng : Z -> G)
    (uniform : float -> float -> G -> float * G) (cutoff : float) :=
  CustomAugmenter.augment_batch G seed_rng uniform
    (get_transformed_image cutoff).

End external.

End SigmoidStretchAugmenter.

(** The stage [Augmenter]: whatever imgaug raises is caught. *)
Module Augmenter.

Section external.

(** [self.augmenter.augment_image(data)], with the generators imgaug
    draws from. *)
Variable W : Type.
Variable augment_image : Np.tensor -> W -> outcome Np.tensor * W.

Definition call (data : option Np.tensor) (w : W)
  : outcome (option Np.tensor) * W :=
  match data with
  | None => (Ret None, w)
  | Some data =>
      match augment_image data w with
      | (Ret data_aug, w') => (Ret (Some data_aug), w')
      | (Raise _, w') => (Ret None, w')
      end
  end.

End external.

End Augmenter.

(** ** Inputs and stand-ins used by the examples *)

Module Example.

(** Two channels of 2 x 2 pixels, each with numbers, a zero and a NaN. *)
Definition mixed : Np.tensor :=
  [ [[1; nan]; [0; 4]]; [[2; 3]; [nan; 0]] ]%float.

(** One channel with a number, a NaN and a zero. *)
Definition row_with_nan : Np.tensor := [ [[1; nan; 0]] ]%float.

(** A sigma clipping that clips nothing, and a zscale stretch that
    answers one half everywhere. *)
Definition no_clipping (a : list float) (lo up : float)
  : outcome (float * float) :=
  Ret (neg_infinity, infinity).


(** A clipper of every channel, and a divider by channel 1 that takes
    logarithms and trims with the default bounds. *)
Definition clipper : SigmaClipper.t :=
  {| SigmaClipper.sigma_low := 10; SigmaClipper.sigma_up := 10;
     SigmaClipper.chid := -1 |}.


(** One channel whose only pixel is masked. *)
Definition dark : Np.tensor := [ [[0]] ]%float.

(** The channel-divide scenario: a reference channel of fives and a
    second channel, and the same with a zero and a NaN in the reference
    channel. *)
Definition ratio_scene : Np.tensor := [ [[5; 5; 5]]; [[10; 0; 15]] ]%float.
Definition ratio_scene_bad_ref : Np.tensor :=
  [ [[5; 0; nan]]; [[10; 7; 15]] ]%float.

Definition divider : ChanDivider.t :=
  {| ChanDivider.chref := 0; ChanDivider.logtransf := false;
     ChanDivider.strip_chref := false; ChanDivider.trim := false;
     ChanDivider.trim_min := -6; ChanDivider.trim_max := 6 |}.

Definition stripping_divider : ChanDivider.t :=
  {| ChanDivider.chref := 0; ChanDivider.logtransf := false;
     ChanDivider.strip_chref := true; ChanDivider.trim := false;
     ChanDivider.trim_min := -6; ChanDivider.trim_max := 6 |}.

(** The log-stretch scenario: 0.01, 1, 100 and one masked pixel, and the
    stage with its default options. *)
Definition log_scene : Np.tensor := [ [[0.01; 1]; [100; 0]] ]%float.

Definition log_stretcher : LogStretcher.t :=
  {| LogStretcher.chid := -1; LogStretcher.minmaxnorm := false;
     LogStretcher.data_norm_min := -6; LogStretcher.data_norm_max := 6;
     LogStretcher.clip_neg := false |}.

(** The min/max scenario: one channel with 2, 4, 6 and 8. *)
Definition ramp : Np.tensor := [ [[2; 4]; [6; 8]] ]%float.

(** A cube of two channels, for the channel resizer. *)
Definition two_chans : Np.tensor := [ [[1; 2]]; [[3; 4]] ]%float.

(** A pipeline of three stages over a counter of the random draws: a
    resizer given images of its target size (it returns them as they
    are), an augmenter that draws a number, and a normalizer. *)
Definition resizer : DataPreprocessor.stage nat :=
  {| DataPreprocessor.class_of := Class.Resizer;
     DataPreprocessor.__call__ := pure_call (fun x => Ret x) |}.

Definition augmenter : DataPreprocessor.stage nat :=
  {| DataPreprocessor.class_of := Class.Augmenter;
     DataPreprocessor.__call__ := fun x w => (Ret x, S w) |}.

Definition normalizer : DataPreprocessor.stage nat :=
  {| DataPreprocessor.class_of := Class.MinMaxNormalizer;
     DataPreprocessor.__call__ :=
       pure_call (MinMaxNormalizer.call
                    {| MinMaxNormalizer.norm_min := 0;
                       MinMaxNormalizer.norm_max := 1 |}) |}.

(** A heap with one array, a 4 x 4 plane with a masked pixel, and an
    erosion by a cross of five pixels standing for OpenCV's. *)
Definition board : Np.tensor :=
  [ [[1; 2; 3; 4]; [5; 6; 7; 8]; [9; 0; 11; 12]; [13; 14; 15; 16]] ]%float.

Definition heap0 : Mem.heap := {[ 0 := board ]}.

Definition erode_cross (mask : Np.plane bool) (structel : unit)
  : outcome (nat -> nat -> bool) :=
  Ret (fun y x =>
         forallb (fun d : nat * nat =>
                    default true
                      (Np.pix2 mask (y + fst d - 1) (x + snd d - 1)))
           [(1, 1); (0, 1); (2, 1); (1, 0); (1, 2)]).

(** [log10] on the three powers of ten of the log-stretch scenario. *)
Definition log10_table (v : float) : float :=
  if (v =? 0.01)%float then (-2)%float
  else if (v =? 1)%float then 0%float
  else if (v =? 100)%float then 2%float
  else nan.

End Example.

(** ** Proof automation *)

(** Case analysis on the outcome binds and tests of a run recorded in a
    hypothesis. *)
Ltac inv_outcome H :=
  simpl in H; unfold mbind, outcome_bind in H; simpl in H;
  repeat
    match type of H with
    | context [match ?o with Ret _ => _ | Raise _ => _ end] =>
        let E := fresh "E" in
        destruct o eqn:E; try discriminate H;
        try match type of E with
            | context [match _ with Ret _ => _ | Raise _ => _ end] =>
                inv_outcome E
            | context [if _ then _ else _] => inv_outcome E
            end
    | context [if ?b then _ else _] =>
        let E := fresh "E" in destruct b eqn:E; try discriminate H
    end.

(** * Properties *)

(** ** Arrays *)

Lemma pix2_map2d {A B} (f : A -> B) (a : list (list A)) y x :
  Np.pix2 (Np.map2d f a) y x = f <$> Np.pix2 a y x.
Proof.
  unfold Np.pix2, Np.map2d. rewrite list_lookup_fmap.
  destruct (a !! y) as [row|]; simpl; [|done].
  by rewrite list_lookup_fmap.
Qed.

Lemma pix2_zip2d {A B C} (f : A -> B -> C) (a : list (list A)) (b : list (list B))
    y x :
  Np.pix2 (Np.zip2d f a b) y x
  = Np.pix2 a y x ≫= fun u => Np.pix2 b y x ≫= fun v => Some (f u v).
Proof.
  unfold Np.pix2, Np.zip2d. rewrite lookup_zip_with.
  destruct (a !! y) as [ra|]; simpl; [|done].
  destruct (b !! y) as [rb|]; simpl.
  - rewrite lookup_zip_with. done.
  - by destruct (ra !! x).
Qed.

Lemma pix2_imap2d {A B} (f : nat -> nat -> A -> B) (a : list (list A)) y x :
  Np.pix2 (Np.imap2d f a) y x = f y x <$> Np.pix2 a y x.
Proof.
  unfold Np.pix2, Np.imap2d. rewrite list_lookup_imap.
  destruct (a !! y) as [row|]; simpl; [|done].
  by rewrite list_lookup_imap.
Qed.

Lemma pix2_assign_where {A} (m : list (list bool)) (v : A) (a : list (list A))
    y x :
  Np.pix2 (Np.assign_where m v a) y x
  = Np.pix2 m y x ≫= fun b : bool =>
      Np.pix2 a y x ≫= fun u => Some (if b then v else u).
Proof. unfold Np.assign_where. by rewrite pix2_zip2d. Qed.

Lemma pix2_assign_unless {A} (m : list (list bool)) (v : A) (a : list (list A))
    y x :
  Np.pix2 (Np.assign_unless m v a) y x
  = Np.pix2 m y x ≫= fun b : bool =>
      Np.pix2 a y x ≫= fun u => Some (if b then u else v).
Proof.
  unfold Np.assign_unless. rewrite pix2_assign_where, pix2_map2d.
  destruct (Np.pix2 m y x) as [[]|]; simpl; done.
Qed.

Lemma pix_map3d {A B} (f : A -> B) (t : list (list (list A))) y x c :
  Np.pix (Np.map3d f t) y x c = f <$> Np.pix t y x c.
Proof.
  unfold Np.pix, Np.map3d. rewrite list_lookup_fmap.
  destruct (t !! c) as [ch|]; simpl; [|done].
  apply pix2_map2d.
Qed.

Lemma pix_assign_unless3d {A} (m : list (list (list bool))) (v : A)
    (t : list (list (list A))) y x c :
  Np.pix (Np.assign_unless3d m v t) y x c
  = Np.pix m y x c ≫= fun b : bool =>
      Np.pix t y x c ≫= fun u => Some (if b then u else v).
Proof.
  unfold Np.pix, Np.assign_unless3d. rewrite lookup_zip_with.
  destruct (m !! c) as [mc|]; simpl; [|done].
  destruct (t !! c) as [ch|]; simpl.
  - apply pix2_assign_unless.
  - by destruct (Np.pix2 mc y x).
Qed.

Lemma pix_set_chan {A} (i : nat) (ch : list (list A))
    (t : list (list (list A))) y x c :
  i < length t ->
  Np.pix (Np.set_chan i ch t) y x c
  = if decide (i = c) then Np.pix2 ch y x else Np.pix t y x c.
Proof.
  intros Hi. unfold Np.pix, Np.set_chan.
  destruct (decide (i = c)) as [->|Hne].
  - by rewrite list_lookup_insert_eq.
  - by rewrite list_lookup_insert_ne.
Qed.

Lemma pix2_valid2d (a : list (list float)) y x :
  Np.pix2 (Np.valid2d a) y x = is_valid <$> Np.pix2 a y x.
Proof. apply pix2_map2d. Qed.

Lemma pix_valid3d (t : list (list (list float))) y x c :
  Np.pix (Np.valid3d t) y x c = is_valid <$> Np.pix t y x c.
Proof. apply pix_map3d. Qed.

Lemma pix_broadcast f (t : list (list (list float))) (s : list float) y x c :
  Np.pix (Np.broadcast f t s) y x c
  = s !! c ≫= fun k => (fun d => f d k) <$> Np.pix t y x c.
Proof.
  unfold Np.pix, Np.broadcast. rewrite lookup_zip_with.
  destruct (t !! c) as [ch|]; simpl.
  - destruct (s !! c) as [k|]; simpl; [|done]. apply pix2_map2d.
  - by destruct (s !! c).
Qed.

(** The pattern of most stages: transform a plane pixel by pixel, then
    put 0 back wherever the input was not valid. *)
Lemma pix2_restore (g : float -> float) (a : list (list float)) y x :
  Np.pix2 (Np.assign_unless (Np.valid2d a) 0%float (Np.map2d g a)) y x
  = (fun d => if is_valid d then g d else 0%float) <$> Np.pix2 a y x.
Proof.
  rewrite pix2_assign_unless, pix2_valid2d, pix2_map2d.
  by destruct (Np.pix2 a y x).
Qed.

Lemma pix_restore3d (t u : list (list (list float))) y x c v w :
  Np.pix t y x c = Some v -> Np.pix u y x c = Some w ->
  Np.pix (Np.assign_unless3d (Np.valid3d t) 0%float u) y x c
  = Some (if is_valid v then w else 0%float).
Proof.
  intros Ht Hu. rewrite pix_assign_unless3d, pix_valid3d, Ht, Hu. done.
Qed.

(** ** Loops over the channels *)

Lemma for_range_inv (I : nat -> list (list (list float)) -> Prop) body :
  forall n s acc out,
    I s acc ->
    (forall i a a', s <= i < s + n -> I i a ->
       body i a = Ret (Some a') -> I (S i) a') ->
    for_range (seq s n) body acc = Ret (Some out) ->
    I (s + n) out.
Proof.
  induction n as [|n IH]; intros s acc out H0 Hstep Hrun; simpl in Hrun.
  - replace (s + 0) with s by lia. congruence.
  - destruct (body s acc) as [[acc'|]|e] eqn:Hb; try discriminate.
    replace (s + S n) with (S s + n) by lia.
    apply (IH (S s) acc' out); [|intros; apply (Hstep i a); [lia|done..]|done].
    apply (Hstep s acc); [lia|done..].
Qed.

Lemma for_range_frame body n s acc out :
  writes_own_channel body ->
  for_range (seq s n) body acc = Ret (Some out) ->
  length out = length acc /\
  forall j, ~ (s <= j < s + n) -> out !! j = acc !! j.
Proof.
  intros Hw Hrun.
  apply (for_range_inv
           (fun k a => length a = length acc /\
                       forall j, ~ (s <= j < k) -> a !! j = acc !! j)
           body n s acc out); [split; done| |done].
  intros i a a' Hi [Hlen Hfr] Hb. destruct (Hw _ _ _ Hb) as [Hl' Hj].
  split; [congruence|]. intros j Hnj. rewrite Hj by lia. apply Hfr. lia.
Qed.

(** What the loop leaves in channel [c] is what iteration [c] wrote,
    starting from an array that still had the initial channels from [c]
    on. *)
Lemma for_range_channel body n acc out c :
  writes_own_channel body ->
  for_range (seq 0 n) body acc = Ret (Some out) ->
  c < n ->
  exists a a', length a = length acc /\
    (forall j, c <= j -> a !! j = acc !! j) /\
    body c a = Ret (Some a') /\ out !! c = a' !! c.
Proof.
  intros Hw Hrun Hc.
  replace n with (c + S (n - S c)) in Hrun by lia.
  rewrite seq_app in Hrun. simpl in Hrun.
  revert Hrun. generalize (n - S c) as r. intros r Hrun.
  assert (forall l1 l2 a o, for_range (l1 ++ l2) body a = Ret (Some o) ->
            exists m, for_range l1 body a = Ret (Some m) /\
                      for_range l2 body m = Ret (Some o)) as Hsplit.
  { clear. induction l1 as [|i l1 IH]; intros l2 a o H; simpl in *.
    - eauto.
    - destruct (body i a) as [[a'|]|e]; try discriminate. eauto. }
  destruct (Hsplit _ _ _ _ Hrun) as (m & H1 & H2). simpl in H2.
  destruct (body c m) as [[m'|]|e] eqn:Hb; try discriminate.
  destruct (for_range_frame _ _ _ _ _ Hw H1) as [Hl1 Hf1].
  destruct (for_range_frame _ _ _ _ _ Hw H2) as [Hl2 Hf2].
  exists m, m'. repeat split; [done| |done|].
  - intros j Hj. apply Hf1. lia.
  - apply Hf2. lia.
Qed.

(** ** Invalid pixels come out as 0 *)

Lemma get_chan_Ret {A} (t : list (list (list A))) i ch :
  Np.get_chan t i = Ret ch <-> t !! i = Some ch.
Proof.
  unfold Np.get_chan. destruct (t !! i); split; intros H; congruence.
Qed.

Lemma set_chan_own {A} i (ch : list (list A)) a :
  length (Np.set_chan i ch a) = length a /\
  forall j, j <> i -> Np.set_chan i ch a !! j = a !! j.
Proof.
  unfold Np.set_chan. split; [apply length_insert|].
  intros j Hj. by apply list_lookup_insert_ne.
Qed.

Lemma pix_inv {A} (t : list (list (list A))) y x c v :
  Np.pix t y x c = Some v ->
  exists ch, t !! c = Some ch /\ Np.pix2 ch y x = Some v /\ c < length t.
Proof.
  unfold Np.pix. intros H. destruct (t !! c) as [ch|] eqn:E; [|discriminate].
  exists ch. repeat split; [done|]. by eapply lookup_lt_Some.
Qed.





Lemma ZScaleTransformer_mask zscale self data out y x c v :
  ZScaleTransformer.call zscale self (Some data) = Ret (Some out) ->
  Np.pix data y x c = Some v -> is_valid v = false ->
  Np.pix out y x c = Some 0%float.
Proof.
  unfold ZScaleTransformer.call. intros Hrun Hpix Hv.
  destruct (pix_inv _ _ _ _ _ Hpix) as (ch & Hch & Hp2 & Hc).
  inv_outcome Hrun.
  match goal with H : for_range _ _ _ = Ret ?r |- _ =>
    destruct r as [ds|]; [|discriminate]; rename H into Hloop end.
  injection Hrun as <-.
  eapply for_range_channel in Hloop as (a & a' & Hla & Hfr & Hb & Hout);
    [| |exact Hc].
  - inv_outcome Hb. injection Hb as <-.
    match goal with H : Np.get_chan _ _ = Ret _ |- _ =>
      apply get_chan_Ret in H; rewrite Hfr, Hch in H by lia;
      injection H as <- end.
    assert (exists w, Np.pix ds y x c = Some w) as [w Hds].
    { unfold Np.pix. rewrite Hout. unfold Np.set_chan.
      rewrite list_lookup_insert_eq by lia. simpl.
      rewrite pix2_imap2d, Hp2. eauto. }
    erewrite pix_restore3d by done. by rewrite Hv.
  - intros i a a' Hb. inv_outcome Hb. injection Hb as <-. apply set_chan_own.
Qed.




Lemma index_nonneg n c iref :
  Np.index n (Z.of_nat c) = Ret iref -> iref = c.
Proof.
  unfold Np.index. intros H.
  destruct ((0 <=? Z.of_nat c)%Z && (Z.of_nat c <? Z.of_nat n)%Z) eqn:E.
  - injection H as <-. lia.
  - destruct ((- Z.of_nat n <=? Z.of_nat c)%Z && (Z.of_nat c <? 0)%Z) eqn:E';
      [|discriminate]. lia.
Qed.

Lemma index_lt n i iref : Np.index n i = Ret iref -> iref < n.
Proof.
  unfold Np.index. intros H.
  destruct ((0 <=? i)%Z && (i <? Z.of_nat n)%Z) eqn:E.
  - injection H as <-. lia.
  - destruct ((- Z.of_nat n <=? i)%Z && (i <? 0)%Z) eqn:E'; [|discriminate].
    injection H as <-. lia.
Qed.

Lemma ChanDivider_body_own chref data_ref cond_ref data_denom :
  writes_own_channel (fun i data_norm =>
    if (Z.of_nat i =? chref)%Z
    then Ret (Some (Np.set_chan i data_ref data_norm))
    else
      ch ← Np.get_chan data_norm i;
      let dn := Np.zip2d PrimFloat.div ch data_denom in
      let dn := Np.assign_unless cond_ref 0%float dn in
      Ret (Some (Np.set_chan i dn data_norm))).
Proof.
  intros i a a' Hb. inv_outcome Hb; injection Hb as <-; apply set_chan_own.
Qed.






(** ** Failures *)

(** [None] in, [None] out: the first test of every stage. *)
Lemma stages_pass_None :
  (forall self, MinMaxNormalizer.call self None = Ret None)
  /\ (forall self, MinShifter.call self None = Ret None)
  /\ (forall self, Shifter.call self None = Ret None)
  /\ (forall self, Standardizer.call self None = Ret None)
  /\ (forall self, Scaler.call self None = Ret None)
  /\ (forall log10 u self, LogStretcher.call log10 u self None = Ret None)
  /\ (forall sc self, SigmaClipper.call sc self None = Ret None)
  /\ (forall zs self, ZScaleTransformer.call zs self None = Ret None)
  /\ (forall log10 self, ChanDivider.call log10 self None = Ret None)
  /\ (forall self, ChanResizer.call self None = Ret None).
Proof. repeat split. Qed.

(** A parameter list of the wrong length is answered with [None]. *)
Lemma wrong_length_is_None (data : list (list (list float))) :
  (forall self, length (Shifter.offsets self) <> length data ->
     Shifter.call self (Some data) = Ret None)
  /\ (forall self, length (Scaler.scale_factors self) <> length data ->
        Scaler.call self (Some data) = Ret None)
  /\ (forall self, length (Standardizer.means self) <> length data ->
        Standardizer.call self (Some data) = Ret None).
Proof.
  repeat split; intros self Hne; simpl; unfold Np.nchans.
  - destruct (length (Shifter.offsets self) =? length data) eqn:E;
      [apply Nat.eqb_eq in E; done|]. by rewrite orb_true_r.
  - destruct (length (Scaler.scale_factors self) =? length data) eqn:E;
      [apply Nat.eqb_eq in E; done|]. by rewrite orb_true_r.
  - destruct (length (Standardizer.means self) =? length data) eqn:E;
      [apply Nat.eqb_eq in E; done|]. by rewrite orb_true_r.
Qed.

(** MinShifter on a channel without a valid pixel: [data_ch_1d] is empty
    and its [min()] raises, whatever the other channels hold. *)
Lemma MinShifter_no_valid_pixel (ch : list (list float))
    (rest : list (list (list float))) :
  Np.select ch (Np.valid2d ch) = [] ->
  MinShifter.call {| MinShifter.chid := -1 |} (Some (ch :: rest))
  = Raise ValueError.
Proof.
  intros Hempty. unfold MinShifter.call. simpl.
  unfold mbind, outcome_bind. simpl. by rewrite Hempty.
Qed.

(** C2 on the code: a channel without a valid pixel makes MinShifter
    raise instead of returning [None], and Scaler cannot even be built. *)
Theorem MinShifter_raises_on_masked_channel :
  MinShifter.call {| MinShifter.chid := -1 |} (Some Example.dark)
  = Raise ValueError
  /\ Scaler.init [1%float] = Raise AttributeError.
Proof. split; vm_compute; reflexivity. Qed.

(** ** ChanDivider *)

(** With [strip_chref] set the stage never returns a cube. *)
Lemma ChanDivider_strip_never_returns log10 self data out :
  ChanDivider.strip_chref self = true ->
  ChanDivider.call log10 self (Some data) <> Ret (Some out).
Proof.
  intros Hstrip Hrun. unfold ChanDivider.call in Hrun.
  rewrite Hstrip in Hrun. inv_outcome Hrun;
    match goal with H : for_range _ _ _ = Ret ?r |- _ => destruct r end;
    inv_outcome Hrun; discriminate.
Qed.

(** C5 on the code: with [strip_chref=True] the call ends in a
    [NameError] where the specification has a cube without the reference
    channel. *)
Theorem ChanDivider_strip_raises (log10 : float -> float) :
  ChanDivider.call log10 Example.stripping_divider
    (Some Example.ratio_scene)
  = Raise NameError.
Proof. vm_compute. reflexivity. Qed.

(** C7.  Reference channel of fives, second channel 10, 0, 15: the
    second channel becomes 2, 0, 3 and the reference channel stays; and
    where the reference pixel is 0 or NaN the ratio is 0. *)
Theorem ChanDivider_scenario (log10 : float -> float) :
  ChanDivider.call log10 Example.divider (Some Example.ratio_scene)
  = Ret (Some [ [[5; 5; 5]]; [[2; 0; 3]] ]%float)
  /\ ChanDivider.call log10 Example.divider
       (Some Example.ratio_scene_bad_ref)
     = Ret (Some [ [[5; 0; 0]]; [[2; 0; 0]] ]%float).
Proof. split; vm_compute; reflexivity. Qed.

(** ** LogStretcher *)

(** C4, as the code has it.  With the min/max normalization off, the
    valid pixels 0.01, 1 and 100 become -2, 0 and 2, and the masked pixel
    takes the smallest logarithm of the channel, -2. *)
Theorem LogStretcher_scenario (log10 : float -> float) (uninit : float) :
  log10 0.01%float = (-2)%float ->
  log10 1%float = 0%float ->
  log10 100%float = 2%float ->
  LogStretcher.call log10 uninit Example.log_stretcher
    (Some Example.log_scene)
  = Ret (Some [ [[-2; 0]; [2; -2]] ]%float).
Proof.
  intros H1 H2 H3. vm_compute. rewrite H1, H2, H3. vm_compute. reflexivity.
Qed.

Lemma LogStretcher_scenario_witness :
  LogStretcher.call Example.log10_table 7%float Example.log_stretcher
    (Some Example.log_scene)
  = Ret (Some [ [[-2; 0]; [2; -2]] ]%float).
Proof.
  apply (LogStretcher_scenario Example.log10_table 7%float);
    vm_compute; reflexivity.
Defined.

(** C4 as stated fails: the masked pixel does not stay 0. *)
Lemma LogStretcher_masked_pixel_not_zero :
  Np.pix Example.log_scene 1 1 0 = Some 0%float
  /\ exists out,
       LogStretcher.call Example.log10_table 0%float Example.log_stretcher
         (Some Example.log_scene) = Ret (Some out)
       /\ Np.pix out 1 1 0 = Some (-2)%float
       /\ Np.pix out 1 1 0 <> Some 0%float.
Proof.
  split; [reflexivity|]. eexists. split; [vm_compute; reflexivity|].
  split; [reflexivity|]. intros H.
  apply (f_equal (fun o => match o with
                           | Some f => (f <? 0)%float
                           | None => false
                           end)) in H.
  vm_compute in H. discriminate.
Qed.

(** ** ChanResizer *)

Lemma for_range_ext body body' rng acc :
  (forall i a, body i a = body' i a) ->
  for_range rng body acc = for_range rng body' acc.
Proof.
  intros Hext. revert acc. induction rng as [|i rng IH]; intros acc; simpl.
  - done.
  - rewrite Hext. destruct (body' i acc) as [[a|]|]; auto.
Qed.

(** A loop that stores a plane [g i] in channel [i], for every [i]. *)
Lemma for_range_fill (g : nat -> outcome (list (list float))) n acc :
  length acc = n ->
  (forall i, i < n -> exists ch, g i = Ret ch) ->
  exists out,
    for_range (seq 0 n)
      (fun i a => ch ← g i; Ret (Some (Np.set_chan i ch a))) acc
    = Ret (Some out)
    /\ length out = n
    /\ forall i ch, i < n -> g i = Ret ch -> out !! i = Some ch.
Proof.
  intros Hlen Hg.
  set (body := fun i a => ch ← g i; Ret (Some (Np.set_chan i ch a))).
  assert (writes_own_channel body) as Hown.
  { intros i a a' Hb. unfold body in Hb. inv_outcome Hb.
    injection Hb as <-. apply set_chan_own. }
  assert (forall m s a, s + m <= n ->
            exists out, for_range (seq s m) body a = Ret (Some out)) as Hex.
  { induction m as [|m IH]; intros s a Hs; simpl; [eauto|].
    destruct (Hg s) as [ch Hch]; [lia|]. unfold body at 1.
    rewrite Hch. simpl. apply IH. lia. }
  destruct (Hex n 0 acc) as [out Hout]; [lia|]. exists out.
  split; [done|]. destruct (for_range_frame _ _ _ _ _ Hown Hout) as [Hl _].
  split; [lia|]. intros i ch Hi Hch.
  destruct (for_range_channel _ _ _ _ i Hown Hout Hi)
    as (a & a' & Hla & _ & Hb & Ho).
  unfold body in Hb. rewrite Hch in Hb. simpl in Hb. injection Hb as <-.
  rewrite Ho. unfold Np.set_chan. apply list_lookup_insert_eq. lia.
Qed.

(** C8.  For a cube of [c >= 1] channels and a target [0 < k <= 1000]:
    ChanResizer returns a cube of [k] channels on which a second call
    changes nothing; and when [k > c] the first [c] channels are those of
    the input and every further one is the input's last channel. *)
Theorem ChanResizer_idempotent_and_replicates (k : Z)
    (data : list (list (list float))) :
  (0 < k <= 1000)%Z ->
  0 < length data ->
  exists out,
    ChanResizer.call {| ChanResizer.nchans := k |} (Some data)
      = Ret (Some out)
    /\ ChanResizer.call {| ChanResizer.nchans := k |} (Some out)
       = Ret (Some out)
    /\ Np.nchans out = Z.to_nat k
    /\ ((Z.of_nat (length data) < k)%Z ->
        (forall i, i < length data -> out !! i = data !! i) /\
        (forall i, length data <= i < Z.to_nat k ->
           out !! i = data !! (length data - 1))).
Proof.
  intros Hk Hc. unfold ChanResizer.call, ChanResizer.nchans_max. simpl.
  assert ((1000 <? k)%Z || (k <=? 0)%Z = false) as -> by lia.
  unfold Np.nchans.
  destruct (k =? Z.of_nat (length data))%Z eqn:Ekc.
  - exists data. rewrite Ekc. repeat split; [lia..|lia|lia].
  - set (c := length data) in *.
    set (g := fun i =>
           if (i <? c)%nat then Np.get_chan data i
           else last ← Np.index c (Z.of_nat c - 1); Np.get_chan data last).
    assert (Np.index c (Z.of_nat c - 1) = Ret (c - 1)) as Hidx.
    { unfold Np.index.
      assert ((0 <=? Z.of_nat c - 1)%Z
              && (Z.of_nat c - 1 <? Z.of_nat c)%Z = true) as -> by lia.
      f_equal. lia. }
    assert (forall i, i < c -> g i = Ret (default [] (data !! i))
                               /\ is_Some (data !! i)) as Hlow.
    { intros i Hi. unfold g.
      assert ((i <? c)%nat = true) as -> by (apply Nat.ltb_lt; lia).
      destruct (lookup_lt_is_Some_2 data i Hi) as [ch Hch].
      unfold Np.get_chan. rewrite Hch. eauto. }
    destruct (Z.of_nat c <? k)%Z eqn:Eexp.
    + (* expanding *)
      match goal with
      | |- context [for_range _ ?b0 _] =>
          rewrite (for_range_ext b0
                     (fun i acc => ch ← g i;
                                   Ret (Some (Np.set_chan i ch acc))))
      end.
      2: { intros i a. unfold g. destruct (i <? c)%nat; [done|].
           unfold mbind, outcome_bind. by destruct (Np.index _ _). }
      destruct (lookup_lt_is_Some_2 data (c - 1)) as [lastch Hlast];
        [lia|].
      assert (forall i, c <= i -> g i = Ret lastch) as Hhigh.
      { intros i Hi. unfold g.
        assert ((i <? c)%nat = false) as -> by (apply Nat.ltb_ge; lia).
        rewrite Hidx. simpl. unfold Np.get_chan. by rewrite Hlast. }
      match goal with
      | |- context [for_range _ _ ?a0] =>
          destruct (for_range_fill g (Z.to_nat k) a0)
            as (out & Hrun & Hlen & Hval)
      end.
      { by rewrite length_replicate. }
      { intros i Hi. destruct (decide (i < c)) as [Hlt|Hge].
        - destruct (Hlow i Hlt) as [-> _]. eauto.
        - rewrite Hhigh by lia. eauto. }
      exists out. rewrite Hrun, Hlen.
      assert ((k =? Z.of_nat (Z.to_nat k))%Z = true) as ->
        by (apply Z.eqb_eq; lia).
      split; [done|]. split; [done|]. split; [done|]. intros _. split.
      * intros i Hi. destruct (Hlow i Hi) as [Hg [ch Hch]].
        rewrite Hch in Hg. simpl in Hg. rewrite Hch.
        apply Hval; [lia|done].
      * intros i Hi. rewrite Hlast. apply Hval; [lia|]. apply Hhigh. lia.
    + (* not expanding: the first channels *)
      match goal with
      | |- context [for_range _ _ ?a0] =>
          destruct (for_range_fill (Np.get_chan data) (Z.to_nat k) a0)
            as (out & Hrun & Hlen & Hval)
      end.
      { by rewrite length_replicate. }
      { intros i Hi. destruct (lookup_lt_is_Some_2 data i) as [ch Hch];
          [fold c; lia|]. unfold Np.get_chan. rewrite Hch. eauto. }
      exists out. rewrite Hrun, Hlen.
      assert ((k =? Z.of_nat (Z.to_nat k))%Z = true) as ->
        by (apply Z.eqb_eq; lia).
      split; [done|]. split; [done|]. split; [done|]. lia.
Qed.

Lemma ChanResizer_witness :
  exists out,
    ChanResizer.call {| ChanResizer.nchans := 4 |} (Some Example.two_chans)
      = Ret (Some out)
    /\ ChanResizer.call {| ChanResizer.nchans := 4 |} (Some out)
       = Ret (Some out)
    /\ Np.nchans out = 4
    /\ out !! 0 = Example.two_chans !! 0
    /\ out !! 1 = Example.two_chans !! 1
    /\ out !! 2 = Example.two_chans !! 1
    /\ out !! 3 = Example.two_chans !! 1.
Proof.
  destruct (ChanResizer_idempotent_and_replicates 4 Example.two_chans)
    as (out & H1 & H2 & H3 & H4); [lia|simpl; lia|].
  destruct H4 as [Hlow Hhigh]; [simpl; lia|].
  exists out. split; [exact H1|]. split; [exact H2|]. split; [exact H3|].
  split; [apply Hlow; simpl; lia|]. split; [apply Hlow; simpl; lia|].
  split; apply Hhigh; simpl; lia.
Defined.

(** ** The pipeline *)

Section pipeline_lemmas.

Import DataPreprocessor.

Context {W : Type}.
Implicit Types (stages : list (stage W)) (s : stage W).

Lemma collect_methods stages (acc : list (method W)) :
  foldl (fun fcns stage => fcns ++ [{| __self__ := stage |}]) acc stages
  = acc ++ ((fun s => {| __self__ := s |}) <$> stages).
Proof.
  revert acc. induction stages as [|s stages IH]; intros acc; simpl.
  - by rewrite app_nil_r.
  - rewrite IH. by rewrite <- app_assoc.
Qed.

Lemma init_fcns cf stages :
  init cf stages
  = pipeline ← cf (invoke <$> fcns_of stages);
    Ret {| fcns := fcns_of stages; pipeline := pipeline |}.
Proof. unfold init. by rewrite collect_methods. Qed.

Lemma foldl_compose2_snoc (f : callable W) fs g :
  foldl Utils.compose2 f (fs ++ [g])
  = Utils.compose2 (foldl Utils.compose2 f fs) g.
Proof. by rewrite foldl_app. Qed.

(** What [compose_fcns] makes of the reversed list runs the stages in
    the order of the list. *)
Lemma compose_reversed_runs_in_order stages :
  stages <> [] ->
  exists f, Utils.compose_fcns (invoke <$> fcns_of stages) = Ret f
            /\ forall x w, f x w = run_in_order stages x w.
Proof.
  induction stages as [|s stages IH]; [done|]. intros _.
  unfold fcns_of. rewrite fmap_cons, reverse_cons, fmap_app. simpl.
  destruct stages as [|s' stages].
  - simpl. eexists. split; [reflexivity|]. intros x w. unfold invoke. simpl.
    by destruct (__call__ s x w) as [[y|e] w'].
  - destruct IH as (f & Hf & Hrun); [done|].
    unfold fcns_of in Hf. unfold Utils.compose_fcns in *.
    destruct (invoke <$> reverse ((fun s => {| __self__ := s |}) <$> s' :: stages))
      as [|g gs] eqn:Hrev.
    { apply (f_equal length) in Hrev.
      rewrite length_fmap, length_reverse, length_fmap in Hrev. done. }
    simpl. injection Hf as <-. eexists. split; [reflexivity|].
    intros x w. rewrite foldl_compose2_snoc. unfold Utils.compose2 at 1.
    unfold invoke. simpl.
    destruct (__call__ s x w) as [[y|e] w']; [|done]. by rewrite Hrun.
Qed.

Lemma drop_augmenters_loop (l : list (method W)) r acc :
  foldl (fun (st : bool * list (method W)) (f : method W) =>
           let is_augmenter := isinstance (__self__ f) Class.Augmenter in
           if is_augmenter then (true, snd st) else (fst st, snd st ++ [f]))
    (r, acc) l
  = (r || existsb (fun f => isinstance (__self__ f) Class.Augmenter) l,
     acc ++ List.filter
              (fun f => negb (isinstance (__self__ f) Class.Augmenter)) l).
Proof.
  revert r acc. induction l as [|f l IH]; intros r acc; simpl.
  - by rewrite orb_false_r, app_nil_r.
  - destruct (isinstance (__self__ f) Class.Augmenter); simpl; rewrite IH.
    + by rewrite orb_true_r.
    + by rewrite <- app_assoc.
Qed.

Lemma filter_fcns_of stages :
  List.filter (fun f => negb (isinstance (__self__ f) Class.Augmenter))
    (fcns_of stages)
  = fcns_of (List.filter not_augmenter stages).
Proof.
  unfold fcns_of. induction stages as [|s stages IH]; [done|].
  rewrite fmap_cons, reverse_cons, List.filter_app, IH. simpl.
  unfold not_augmenter at 2.
  destruct (isinstance s Class.Augmenter); simpl.
  - by rewrite app_nil_r.
  - by rewrite reverse_cons.
Qed.

Lemma filter_all_kept stages :
  existsb (fun f => isinstance (__self__ f) Class.Augmenter) (fcns_of stages)
  = false ->
  List.filter not_augmenter stages = stages.
Proof.
  unfold fcns_of. induction stages as [|s stages IH]; [done|].
  rewrite fmap_cons, reverse_cons, existsb_app. simpl.
  intros H. apply orb_false_elim in H as [H1 H2].
  rewrite orb_false_r in H2. unfold not_augmenter at 1. rewrite H2. simpl.
  by rewrite IH.
Qed.

(** [disable_augmentation] leaves the object that [__init__] builds from
    the stages that are no augmenters, in their order. *)
Lemma disable_augmentation_filter cf stages p :
  init cf stages = Ret p ->
  disable_augmentation cf p = init cf (List.filter not_augmenter stages).
Proof.
  intros Hp. rewrite init_fcns in Hp.
  destruct (cf (invoke <$> fcns_of stages)) as [f|] eqn:Hcf; [|done].
  simpl in Hp. injection Hp as <-.
  unfold disable_augmentation. simpl. rewrite drop_augmenters_loop. simpl.
  destruct (existsb _ (fcns_of stages)) eqn:Hany.
  - rewrite filter_fcns_of. by rewrite init_fcns.
  - rewrite (filter_all_kept _ Hany), init_fcns, Hcf. done.
Qed.

(** C3.  The pipeline built from [A; B; C] calls [A], then [B] on what
    [A] returned, then [C] on what [B] returned: it returns
    [C(B(A(x)))]. *)
Theorem pipeline_order (A B C : stage W) :
  exists p,
    init Utils.compose_fcns [A; B; C] = Ret p
    /\ forall x w,
         call p x w
         = match __call__ A x w with
           | (Ret a, w1) =>
               match __call__ B a w1 with
               | (Ret b, w2) => __call__ C b w2
               | (Raise e, w2) => (Raise e, w2)
               end
           | (Raise e, w1) => (Raise e, w1)
           end.
Proof.
  eexists. split; [reflexivity|]. intros x w. simpl.
  unfold Utils.compose2, invoke. simpl.
  destruct (__call__ A x w) as [[a|e] w1]; done.
Qed.

(** C6.  After [disable_augmentation], the pipeline built from a
    resizer, an augmenter and a normalizer is the pipeline built from the
    resizer and the normalizer: the same functions in the same order, and
    the same result of every call.  This holds whatever [compose_fcns]
    does with a list of functions. *)
Theorem disable_augmentation_drops_augmenter
    (cf : list (callable W) -> outcome (callable W)) (R A M : stage W)
    (p : DataPreprocessor.t W) :
  class_of R <> Class.Augmenter ->
  class_of A = Class.Augmenter ->
  class_of M <> Class.Augmenter ->
  init cf [R; A; M] = Ret p ->
  disable_augmentation cf p = init cf [R; M]
  /\ (forall p', disable_augmentation cf p = Ret p' ->
        fcns p' = [ {| __self__ := M |}; {| __self__ := R |} ])
  /\ (forall p' q, disable_augmentation cf p = Ret p' ->
        init cf [R; M] = Ret q ->
        forall x w, call p' x w = call q x w).
Proof.
  intros HR HA HM Hp.
  assert (disable_augmentation cf p = init cf [R; M]) as Heq.
  { rewrite (disable_augmentation_filter cf _ _ Hp). simpl.
    unfold not_augmenter, isinstance.
    rewrite (bool_decide_eq_false_2 _ HR), (bool_decide_eq_true_2 _ HA),
      (bool_decide_eq_false_2 _ HM). done. }
  split; [done|]. split.
  - intros p' Hp'. rewrite Heq, init_fcns in Hp'.
    destruct (cf _); [|done]. simpl in Hp'. by injection Hp' as <-.
  - intros p' q Hp' Hq x w. rewrite Heq, Hq in Hp'. by injection Hp' as <-.
Qed.

End pipeline_lemmas.

Lemma disable_augmentation_witness :
  exists p,
    DataPreprocessor.init Utils.compose_fcns
      [Example.resizer; Example.augmenter; Example.normalizer] = Ret p
    /\ DataPreprocessor.disable_augmentation Utils.compose_fcns p
       = DataPreprocessor.init Utils.compose_fcns
           [Example.resizer; Example.normalizer].
Proof.
  eexists. split; [reflexivity|].
  apply (disable_augmentation_drops_augmenter Utils.compose_fcns
           Example.resizer Example.augmenter Example.normalizer);
    [discriminate|reflexivity|discriminate|reflexivity].
Defined.

(** ** Stages that write into their argument *)

Section mem_lemmas.

Implicit Types (h : gmap nat (list (list (list float)))).

Lemma M_bind_inv {A B} (m : Mem.M A) (f : A -> Mem.M B) h b h' :
  (m ≫= f) h = (Ret b, h') ->
  exists a h1, m h = (Ret a, h1) /\ f a h1 = (Ret b, h').
Proof.
  unfold mbind, Mem.M_bind. destruct (m h) as [[a|e] h1]; [eauto|done].
Qed.

Lemma M_bind_ext {A B} (m : Mem.M A) (f g : A -> Mem.M B) h :
  (forall a h1, f a h1 = g a h1) -> (m ≫= f) h = (m ≫= g) h.
Proof.
  intros Hfg. unfold mbind, Mem.M_bind. by destruct (m h) as [[a|e] h1].
Qed.

Lemma lift_inv {A} (o : outcome A) h a h' :
  Mem.lift o h = (Ret a, h') -> o = Ret a /\ h' = h.
Proof. unfold Mem.lift. intros H. by injection H as -> ->. Qed.

Lemma deref_inv l h t h' :
  Mem.deref l h = (Ret t, h') -> h !! l = Some t /\ h' = h.
Proof.
  unfold Mem.deref. destruct (h !! l); intros H; [|done].
  by injection H as -> ->.
Qed.

Lemma read_inv l i h a h' :
  Mem.read {| Mem.base := l; Mem.chan := i |} h = (Ret a, h') ->
  exists t, h !! l = Some t /\ t !! i = Some a /\ h' = h.
Proof.
  unfold Mem.read. intros H. simpl in H.
  apply M_bind_inv in H as (t & h1 & Hd & H).
  apply deref_inv in Hd as [Hl ->]. apply lift_inv in H as [Hc ->].
  apply get_chan_Ret in Hc. eauto.
Qed.

Lemma for_each_app rng1 rng2 body h :
  Mem.for_each (rng1 ++ rng2) body h
  = (Mem.for_each rng1 body ;; Mem.for_each rng2 body) h.
Proof.
  revert h. induction rng1 as [|i rng1 IH]; intros h; simpl; [done|].
  unfold mbind, Mem.M_bind. destruct (body i h) as [[[]|e] h1]; [|done].
  apply IH.
Qed.

Lemma for_each_ext rng body body' h :
  (forall i h1, body i h1 = body' i h1) ->
  Mem.for_each rng body h = Mem.for_each rng body' h.
Proof.
  intros Hext. revert h. induction rng as [|i rng IH]; intros h; simpl;
    [done|].
  unfold mbind, Mem.M_bind. rewrite Hext.
  destruct (body' i h) as [[[]|e] h1]; [apply IH|done].
Qed.

Lemma mask_channel_inv l l' maskf i h h' t r :
  l <> l' -> h !! l = Some t -> h !! l' = Some r ->
  mask_channel l l' maskf i h = (Ret (), h') ->
  exists ch m, t !! i = Some ch /\ maskf ch = Ret m /\
    h' = <[l' := Np.set_chan i (Np.assign_where m 0%float ch) r]>
           (<[l := Np.set_chan i (Np.assign_where m 0%float ch) t]> h).
Proof.
  intros Hne Hl Hl' Hrun. unfold mask_channel in Hrun.
  apply M_bind_inv in Hrun as (a & h1 & Hread & Hrun).
  apply read_inv in Hread as (t0 & Ht0 & Ha & ->).
  rewrite Hl in Ht0. injection Ht0 as <-.
  apply M_bind_inv in Hrun as (m & h1 & Hm & Hrun).
  apply lift_inv in Hm as [Hm ->].
  apply M_bind_inv in Hrun as ([] & h1 & Hw & Hrun).
  unfold Mem.assign_where in Hw. simpl in Hw.
  apply M_bind_inv in Hw as (t0 & h2 & Hd & Hw).
  apply deref_inv in Hd as [Ht0 ->]. rewrite Hl in Ht0. injection Ht0 as <-.
  apply M_bind_inv in Hw as (a0 & h2 & Hg & Hw).
  apply lift_inv in Hg as [Hg ->]. apply get_chan_Ret in Hg.
  rewrite Ha in Hg. injection Hg as <-.
  unfold Mem.update in Hw. injection Hw as <-.
  unfold Mem.store_chan in Hrun.
  apply M_bind_inv in Hrun as (a1 & h2 & Hread & Hrun).
  apply read_inv in Hread as (t1 & Ht1 & Ha1 & ->).
  rewrite lookup_insert_eq in Ht1. injection Ht1 as <-.
  unfold Np.set_chan in Ha1.
  rewrite list_lookup_insert_eq in Ha1 by (by eapply lookup_lt_Some).
  injection Ha1 as <-.
  apply M_bind_inv in Hrun as (r0 & h2 & Hd & Hrun).
  apply deref_inv in Hd as [Hr0 ->].
  rewrite lookup_insert_ne in Hr0 by done. rewrite Hl' in Hr0.
  injection Hr0 as <-. unfold Mem.update in Hrun. injection Hrun as <-.
  eauto.
Qed.

(** The loop, channel by channel: afterwards channel [c < n] of both
    arrays is the masked plane, and the channels from [n] on are as
    before. *)
Lemma mask_loop_spec l l' maskf n : forall h h' t r,
  l <> l' -> h !! l = Some t -> h !! l' = Some r ->
  length r = length t ->
  Mem.for_each (seq 0 n) (mask_channel l l' maskf) h = (Ret (), h') ->
  exists t' r', h' !! l = Some t' /\ h' !! l' = Some r' /\
    length t' = length t /\ length r' = length t /\
    (forall c, n <= c -> t' !! c = t !! c /\ r' !! c = r !! c) /\
    (forall c ch, c < n -> t !! c = Some ch ->
       exists m, maskf ch = Ret m /\
         t' !! c = Some (Np.assign_where m 0%float ch) /\
         r' !! c = Some (Np.assign_where m 0%float ch)).
Proof.
  induction n as [|n IH]; intros h h' t r Hne Hl Hl' Hlen Hrun.
  - simpl in Hrun. injection Hrun as <-. exists t, r.
    repeat split; try done. intros c ch Hc. lia.
  - rewrite seq_S, for_each_app in Hrun. simpl in Hrun.
    apply M_bind_inv in Hrun as ([] & h1 & Hfirst & Hrun).
    destruct (IH _ _ _ _ Hne Hl Hl' Hlen Hfirst)
      as (t1 & r1 & Ht1 & Hr1 & Hlt1 & Hlr1 & Hrest & Hdone).
    apply M_bind_inv in Hrun as ([] & h2 & Hstep & Hrun).
    simpl in Hrun. injection Hrun as <-.
    destruct (mask_channel_inv _ _ _ _ _ _ _ _ Hne Ht1 Hr1 Hstep)
      as (ch & m & Hch & Hm & ->).
    destruct (Hrest n) as [Hn Hn']; [lia|].
    assert (n < length t) as Hnlt.
    { rewrite <- Hlt1. by eapply lookup_lt_Some. }
    eexists _, _. split; [rewrite lookup_insert_ne by done;
                          by rewrite lookup_insert_eq|].
    split; [by rewrite lookup_insert_eq|].
    unfold Np.set_chan. rewrite !length_insert.
    split; [done|]. split; [done|]. split.
    + intros c Hc. rewrite !list_lookup_insert_ne by lia. apply Hrest. lia.
    + intros c ch' Hc Hch'. destruct (decide (c = n)) as [->|Hcn].
      * rewrite Hn in Hch. rewrite Hch' in Hch. injection Hch as <-.
        exists m. rewrite !list_lookup_insert_eq by lia. done.
      * rewrite !list_lookup_insert_ne by lia. apply Hdone; [lia|done].
Qed.

Lemma np_copy_inv l h l' h' :
  Mem.np_copy l h = (Ret l', h') ->
  exists t, h !! l = Some t /\ l' <> l /\ h' = <[l' := t]> h.
Proof.
  unfold Mem.np_copy. intros H.
  apply M_bind_inv in H as (t & h1 & Hd & H).
  apply deref_inv in Hd as [Hl ->]. unfold Mem.alloc in H.
  injection H as <- <-. exists t. repeat split; [done|].
  intros Heq. apply (is_fresh (dom h)). rewrite Heq.
  apply elem_of_dom. eauto.
Qed.


Lemma BorderMasker_loop_body self l l' i h :
  (a ← Mem.read {| Mem.base := l; Mem.chan := i |};
   let cond := Np.valid2d a in
   let data_ch_1d := Np.select a cond in
   data_min ← Mem.lift (Np.min data_ch_1d);
   mask0 ← Mem.lift (BorderMasker.outside self (Np.nrows a) (Np.ncols a));
   Mem.assign_where {| Mem.base := l; Mem.chan := i |} mask0 0%float;;
   Mem.store_chan l' i {| Mem.base := l; Mem.chan := i |}) h
  = mask_channel l l' (border_mask self) i h.
Proof.
  unfold mask_channel. apply M_bind_ext. intros a h1.
  unfold border_mask, Mem.lift, mbind, Mem.M_bind, outcome_bind. simpl.
  by destruct (Np.min _).
Qed.

Lemma MaskShrinker_loop_body {kernel : Type}
    (erode : list (list bool) -> kernel -> outcome (nat -> nat -> bool))
    (structel : kernel) l l' i h :
  (a ← Mem.read {| Mem.base := l; Mem.chan := i |};
   let mask := Np.valid2d a in
   mask_eroded ← Mem.lift (erode mask structel);
   let img_eroded := {| Mem.base := l; Mem.chan := i |} in
   let gone :=
     Np.imap2d (fun y x (_ : bool) => negb (mask_eroded y x)) mask in
   Mem.assign_where img_eroded gone 0%float;;
   Mem.store_chan l' i img_eroded) h
  = mask_channel l l' (eroded_mask erode structel) i h.
Proof.
  unfold mask_channel. apply M_bind_ext. intros a h1.
  unfold eroded_mask, Mem.lift, mbind, Mem.M_bind, outcome_bind. simpl.
  by destruct (erode _ _).
Qed.

(** A copy, then the loop over every channel: the input and the copy end
    up equal, every channel masked. *)
Lemma copy_and_mask_spec maskf l ret h h1 h' t :
  h !! l = Some t ->
  Mem.np_copy l h = (Ret ret, h1) ->
  Mem.for_each (seq 0 (length t)) (mask_channel l ret maskf) h1
    = (Ret (), h') ->
  ret <> l /\
  exists t', h' !! l = Some t' /\ h' !! ret = Some t' /\
    forall c ch, t !! c = Some ch ->
      exists m, maskf ch = Ret m /\
        t' !! c = Some (Np.assign_where m 0%float ch).
Proof.
  intros Hl Hcopy Hloop.
  apply np_copy_inv in Hcopy as (t0 & Ht0 & Hne & ->).
  rewrite Hl in Ht0. injection Ht0 as <-. split; [done|].
  destruct (mask_loop_spec l ret maskf (length t) (<[ret:=t]> h) h' t t) as
    (t' & r' & Ht' & Hr' & Hlt & Hlr & _ & Hch); [done| | |done|exact Hloop|].
  { by rewrite lookup_insert_ne. }
  { by rewrite lookup_insert_eq. }
  assert (r' = t') as ->.
  { apply list_eq. intros c. destruct (t !! c) as [ch|] eqn:Hc.
    - destruct (Hch c ch) as (m & _ & -> & ->); [by eapply lookup_lt_Some|done|done].
    - apply lookup_ge_None in Hc.
      rewrite (lookup_ge_None_2 r'), (lookup_ge_None_2 t') by lia. done. }
  exists t'. repeat split; [done..|].
  intros c ch Hc. destruct (Hch c ch) as (m & Hm & Hx & _);
    [by eapply lookup_lt_Some|done|eauto].
Qed.

(** C9.  BorderMasker and MaskShrinker write into the array they are
    given: after a call that returns, the caller's array itself holds 0
    at every pixel outside the box (BorderMasker) or where the eroded
    mask is 0 (MaskShrinker), and it equals the returned copy. *)
Theorem maskers_write_into_input (h : gmap nat (list (list (list float))))
    (data : nat) (t : list (list (list float))) :
  h !! data = Some t ->
  (forall self ret h',
     BorderMasker.call self (Some data) h = (Ret (Some ret), h') ->
     ret <> data /\
     exists t', h' !! data = Some t' /\ h' !! ret = Some t' /\
       forall c ch, t !! c = Some ch ->
         exists outside,
           BorderMasker.outside self (Np.nrows ch) (Np.ncols ch)
             = Ret outside /\
           t' !! c = Some (Np.assign_where outside 0%float ch) /\
           forall y x v,
             Np.pix2 ch y x = Some v -> Np.pix2 outside y x = Some true ->
             Np.pix t' y x c = Some 0%float)
  /\ (forall (kernel : Type) getStructuringElement
        (erode : list (list bool) -> kernel -> outcome (nat -> nat -> bool))
        self ret h',
        MaskShrinker.call kernel getStructuringElement erode self
          (Some data) h = (Ret (Some ret), h') ->
        ret <> data /\
        exists t' structel,
          getStructuringElement (MaskShrinker.kernsize self) = Ret structel
          /\ h' !! data = Some t' /\ h' !! ret = Some t' /\
          forall c ch, t !! c = Some ch ->
            exists mask_eroded,
              erode (Np.valid2d ch) structel = Ret mask_eroded /\
              forall y x v,
                Np.pix2 ch y x = Some v -> mask_eroded y x = false ->
                Np.pix t' y x c = Some 0%float).
Proof.
  intros Hl. split.
  - intros self ret h' Hrun. unfold BorderMasker.call in Hrun.
    apply M_bind_inv in Hrun as (ret0 & h1 & Hcopy & Hrun).
    apply M_bind_inv in Hrun as (shape & h2 & Hd & Hrun).
    pose proof Hcopy as Hcopy'.
    apply np_copy_inv in Hcopy' as (t0 & Ht0 & Hne & Hh1).
    rewrite Hl in Ht0. injection Ht0 as <-.
    apply deref_inv in Hd as [Hshape ->]. subst h1.
    rewrite lookup_insert_ne in Hshape by done.
    rewrite Hl in Hshape. injection Hshape as <-.
    apply M_bind_inv in Hrun as ([] & h3 & Hloop & Hrun).
    simpl in Hrun. injection Hrun as <- <-.
    erewrite for_each_ext in Hloop by (intros; apply BorderMasker_loop_body).
    destruct (copy_and_mask_spec _ _ _ _ _ _ _ Hl Hcopy Hloop)
      as (Hret & t' & Ht' & Hr' & Hch).
    split; [done|]. exists t'. repeat split; [done..|].
    intros c ch Hc. destruct (Hch c ch Hc) as (m & Hm & Hx).
    unfold border_mask in Hm. inv_outcome Hm.
    exists m. repeat split; [done..|]. intros y x v Hv Hout.
    unfold Np.pix. rewrite Hx. simpl.
    by rewrite pix2_assign_where, Hout, Hv.
  - intros kernel gse erode self ret h' Hrun.
    unfold MaskShrinker.call in Hrun.
    apply M_bind_inv in Hrun as (structel & h0 & Hk & Hrun).
    apply lift_inv in Hk as [Hk ->].
    apply M_bind_inv in Hrun as (ret0 & h1 & Hcopy & Hrun).
    apply M_bind_inv in Hrun as (shape & h2 & Hd & Hrun).
    pose proof Hcopy as Hcopy'.
    apply np_copy_inv in Hcopy' as (t0 & Ht0 & Hne & Hh1).
    rewrite Hl in Ht0. injection Ht0 as <-.
    apply deref_inv in Hd as [Hshape ->]. subst h1.
    rewrite lookup_insert_ne in Hshape by done.
    rewrite Hl in Hshape. injection Hshape as <-.
    apply M_bind_inv in Hrun as ([] & h3 & Hloop & Hrun).
    simpl in Hrun. injection Hrun as <- <-.
    erewrite for_each_ext in Hloop
      by (intros; apply MaskShrinker_loop_body).
    destruct (copy_and_mask_spec _ _ _ _ _ _ _ Hl Hcopy Hloop)
      as (Hret & t' & Ht' & Hr' & Hch).
    split; [done|]. exists t', structel. repeat split; [done..|].
    intros c ch Hc. destruct (Hch c ch Hc) as (m & Hm & Hx).
    unfold eroded_mask in Hm. inv_outcome Hm. injection Hm as <-.
    eexists. split; [done|]. intros y x v Hv Hgone.
    unfold Np.pix. rewrite Hx. simpl.
    rewrite pix2_assign_where, pix2_imap2d, pix2_valid2d, Hv. simpl.
    by rewrite Hgone.
Qed.

End mem_lemmas.

Lemma maskers_write_into_input_witness :
  (exists ret h',
     BorderMasker.call {| BorderMasker.mask_fract := 0.5 |} (Some 0)
       Example.heap0 = (Ret (Some ret), h')
     /\ ret <> 0
     /\ exists t', h' !! 0 = Some t' /\ h' !! ret = Some t'
                   /\ Np.pix t' 0 0 0 = Some 0%float)
  /\ (exists ret h',
        MaskShrinker.call unit (fun _ => Ret ()) Example.erode_cross
          {| MaskShrinker.kernsize := 3 |} (Some 0) Example.heap0
        = (Ret (Some ret), h')
        /\ ret <> 0
        /\ exists t', h' !! 0 = Some t' /\ h' !! ret = Some t'
                      /\ Np.pix t' 1 1 0 = Some 0%float).
Proof.
  destruct (maskers_write_into_input Example.heap0 0 Example.board eq_refl)
    as [HB HM].
  split.
  - eexists _, _. split; [vm_compute; reflexivity|].
    match goal with
    | |- ?r <> 0 /\ (exists t', ?hh !! 0 = _ /\ _) =>
        assert (BorderMasker.call {| BorderMasker.mask_fract := 0.5 |}
                  (Some 0) Example.heap0 = (Ret (Some r), hh)) as E
          by (vm_compute; reflexivity)
    end.
    destruct (HB _ _ _ E) as (Hne & t' & Ht' & Hr' & Hch).
    split; [exact Hne|]. exists t'. split; [exact Ht'|]. split; [exact Hr'|].
    destruct (Hch 0 _ eq_refl) as (outside & Hout & _ & Hpix).
    apply (Hpix 0 0 1%float); [reflexivity|].
    vm_compute in Hout. injection Hout as <-. reflexivity.
  - eexists _, _. split; [vm_compute; reflexivity|].
    match goal with
    | |- ?r <> 0 /\ (exists t', ?hh !! 0 = _ /\ _) =>
        assert (MaskShrinker.call unit (fun _ => Ret ()) Example.erode_cross
                  {| MaskShrinker.kernsize := 3 |} (Some 0) Example.heap0
                = (Ret (Some r), hh)) as E
          by (vm_compute; reflexivity)
    end.
    destruct (HM _ _ _ _ _ _ E)
      as (Hne & t' & structel & _ & Ht' & Hr' & Hch).
    split; [exact Hne|]. exists t'. split; [exact Ht'|]. split; [exact Hr'|].
    destruct (Hch 0 _ eq_refl) as (mask_eroded & Her & Hpix).
    apply (Hpix 1 1 6%float); [reflexivity|].
    injection Her as <-. vm_compute. reflexivity.
Defined.

(** ** Floating-point facts *)

Lemma Prim2SF_zero : Prim2SF 0%float = S754_zero false.
Proof. reflexivity. Qed.

Lemma Prim2SF_infinity : Prim2SF infinity = S754_infinity false.
Proof. reflexivity. Qed.

Lemma SFeqb_finite_refl s m e :
  SFeqb (S754_finite s m e) (S754_finite s m e) = true.
Proof.
  unfold SFeqb, SFcompare.
  destruct s; rewrite Z.compare_refl, Pos.compare_cont_refl; reflexivity.
Qed.

(** [np.isfinite]: neither a NaN nor an infinity. *)
Lemma is_finite_spec v :
  is_finite v = true <->
  (exists s, Prim2SF v = S754_zero s) \/
  (exists s m e, Prim2SF v = S754_finite s m e).
Proof.
  unfold is_finite, is_nan, is_infinity.
  rewrite !FloatAxioms.eqb_spec, FloatAxioms.abs_spec, Prim2SF_infinity.
  destruct (Prim2SF v) as [s| s | |s m e]; simpl.
  - split; [intros _; left; eauto|done].
  - destruct s; simpl; (split; [done|]);
      intros [[s' H]|(s' & m' & e' & H)]; discriminate H.
  - split; [done|]. intros [[s' H]|(s' & m' & e' & H)]; discriminate H.
  - rewrite SFeqb_finite_refl. split; [intros _; right; eauto|done].
Qed.

(** A valid pixel is a finite number other than zero. *)
Lemma is_valid_spec v :
  is_valid v = true <-> exists s m e, Prim2SF v = S754_finite s m e.
Proof.
  unfold is_valid. rewrite andb_true_iff, is_finite_spec.
  rewrite FloatAxioms.eqb_spec, Prim2SF_zero.
  destruct (Prim2SF v) as [s| s | |s m e]; simpl.
  - split; [intros [H _]; discriminate H|].
    intros (s' & m' & e' & H); discriminate H.
  - split; [|intros (s' & m' & e' & H); discriminate H].
    intros [_ [[s' H]|(s' & m' & e' & H)]]; discriminate H.
  - split; [|intros (s' & m' & e' & H); discriminate H].
    intros [_ [[s' H]|(s' & m' & e' & H)]]; discriminate H.
  - split; [eauto|]. intros _. split; [by destruct s|right; eauto].
Qed.

Lemma float_eq_zero v : Prim2SF v = S754_zero false -> v = 0%float.
Proof. intros H. apply Prim2SF_inj. by rewrite H. Qed.

(** ** Subtraction *)

Lemma sub_self v s m e :
  Prim2SF v = S754_finite s m e -> Prim2SF (v - v) = S754_zero false.
Proof.
  intros H. rewrite FloatAxioms.sub_spec, H. unfold SF64sub, SFsub.
  cbv zeta. rewrite Z.sub_diag. reflexivity.
Qed.

(** ** Rounding never turns a mantissa into zero *)

Local Open Scope Z_scope.

Lemma digits2_size p : digits2_pos p = Pos.size p.
Proof. induction p; simpl; congruence. Qed.

Lemma digits2_lower p : 2 ^ (Zpos (digits2_pos p) - 1) <= Zpos p.
Proof.
  rewrite digits2_size.
  pose proof (Pos.size_le p) as H.
  assert (Zpos (2 ^ Pos.size p) <= Zpos p~0) as H' by exact H.
  rewrite Pos2Z.inj_pow in H'.
  replace (Zpos (Pos.size p)) with (Zpos (Pos.size p) - 1 + 1) in H' by lia.
  rewrite Z.pow_add_r in H' by lia. lia.
Qed.

Lemma digits2_iter_xO p d :
  Zpos (digits2_pos (Pos.iter xO p d)) = Zpos (digits2_pos p) + Zpos d.
Proof.
  induction d as [|d IH] using Pos.peano_ind.
  - simpl. lia.
  - rewrite Pos.iter_succ. simpl. lia.
Qed.

Lemma iter_xO_val p d : Zpos (Pos.iter xO p d) = Zpos p * 2 ^ Zpos d.
Proof.
  induction d as [|d IH] using Pos.peano_ind.
  - simpl. lia.
  - rewrite Pos.iter_succ, Pos2Z.inj_succ, Z.pow_succ_r by lia.
    rewrite Pos2Z.inj_xO, IH. lia.
Qed.

Lemma shr_1_m r : 0 <= shr_m r -> shr_m (shr_1 r) = Z.div2 (shr_m r).
Proof.
  destruct r as [m rb sb]. simpl. intros Hm.
  destruct m as [|[p|p|]|p]; simpl; try reflexivity; lia.
Qed.

Lemma iter_shr_m p : forall r,
  0 <= shr_m r ->
  shr_m (SpecFloat.iter_pos shr_1 p r) = Z.shiftr (shr_m r) (Zpos p).
Proof.
  assert (forall a, 0 <= a -> 0 <= Z.div2 a) as Hd2.
  { intros a Ha. rewrite Z.div2_div. apply Z.div_pos; lia. }
  induction p as [p IH|p IH|]; intros r Hr; simpl.
  - assert (0 <= shr_m (shr_1 r)) as H1 by (rewrite shr_1_m; auto).
    rewrite IH by (rewrite IH by done; by apply Z.shiftr_nonneg).
    rewrite IH, shr_1_m by done.
    rewrite Z.div2_spec, !Z.shiftr_shiftr by lia. f_equal. lia.
  - rewrite IH by (rewrite IH by done; by apply Z.shiftr_nonneg).
    rewrite IH by done. rewrite Z.shiftr_shiftr by lia. f_equal. lia.
  - rewrite shr_1_m by done. by rewrite Z.div2_spec.
Qed.

Lemma shiftr_pos_digits p n :
  0 < n < Zpos (digits2_pos p) -> 0 < Z.shiftr (Zpos p) n.
Proof.
  intros Hn. rewrite Z.shiftr_div_pow2 by lia.
  pose proof (digits2_lower p) as Hl.
  assert (2 ^ n <= 2 ^ (Zpos (digits2_pos p) - 1)) as Hpow
    by (apply Z.pow_le_mono_r; lia).
  assert (0 < 2 ^ n) as Hp by (apply Z.pow_pos_nonneg; lia).
  apply Z.div_str_pos. lia.
Qed.

(** Rounding a positive mantissa at an exponent not below [emin] gives a
    positive mantissa again. *)
Lemma shr_fexp_pos p e l :
  emin <= e ->
  0 < shr_m (fst (shr_fexp prec emax (Zpos p) e l))
  /\ emin <= snd (shr_fexp prec emax (Zpos p) e l).
Proof.
  intros He. unfold shr_fexp, shr. simpl Zdigits2.
  assert (shr_m (shr_record_of_loc (Zpos p) l) = Zpos p) as Hm
    by (by destruct l as [|[]]).
  destruct (fexp prec emax (Zpos (digits2_pos p) + e) - e) as [|n|n] eqn:En;
    simpl; rewrite ?Hm; try (split; lia).
  rewrite iter_shr_m, Hm by lia.
  unfold fexp, SpecFloat.emin, prec, emax in *. split; [|lia].
  apply shiftr_pos_digits. lia.
Qed.

Lemma round_nearest_even_pos m l : 0 < m -> 0 < round_nearest_even m l.
Proof.
  intros Hm. destruct l as [|[]]; simpl; try lia.
  destruct (Z.even m); lia.
Qed.

Lemma binary_round_aux_pos s p e l :
  emin <= e ->
  (exists m' e', binary_round_aux prec emax s (Zpos p) e l
                 = S754_finite s m' e')
  \/ binary_round_aux prec emax s (Zpos p) e l = S754_infinity s.
Proof.
  intros He. unfold binary_round_aux.
  destruct (shr_fexp_pos p e l He) as [H1 H1e].
  destruct (shr_fexp prec emax (Zpos p) e l) as [r1 e1]. simpl in H1, H1e.
  pose proof (round_nearest_even_pos _ (loc_of_shr_record r1) H1) as H2.
  destruct (round_nearest_even (shr_m r1) (loc_of_shr_record r1))
    as [|p2|p2]; try lia.
  destruct (shr_fexp_pos p2 e1 loc_Exact H1e) as [H3 _].
  destruct (shr_fexp prec emax (Zpos p2) e1 loc_Exact) as [r3 e3].
  simpl in H3. destruct (shr_m r3) as [|p3|p3]; try lia.
  destruct (e3 <=? emax - prec); eauto.
Qed.

Lemma binary_normalize_nonzero z e :
  z <> 0 -> emin <= e ->
  (exists s m' e', binary_normalize prec emax z e false
                   = S754_finite s m' e')
  \/ (exists s, binary_normalize prec emax z e false = S754_infinity s).
Proof.
  intros Hz He.
  assert (forall s p, (exists m' e', binary_round prec emax s p e
                                     = S754_finite s m' e')
                      \/ binary_round prec emax s p e = S754_infinity s)
    as Hround.
  { intros s p. unfold binary_round, shl_align.
    destruct (fexp prec emax (Zpos (digits2_pos p) + e) - e) eqn:En;
      apply binary_round_aux_pos; try done.
    unfold fexp, SpecFloat.emin, prec, emax in *. lia. }
  destruct z as [|p|p]; [done|simpl..].
  - destruct (Hround false p) as [(m' & e' & ->)| ->]; eauto.
  - destruct (Hround true p) as [(m' & e' & ->)| ->]; eauto.
Qed.

Lemma bounded_canonical m e :
  bounded prec emax m e = true ->
  emin <= e /\ fexp prec emax (Zpos (digits2_pos m) + e) = e.
Proof.
  unfold bounded, canonical_mantissa. intros H.
  apply andb_true_iff in H as [H _]. apply Z.eqb_eq in H.
  split; [|done]. unfold fexp, SpecFloat.emin, prec, emax in *. lia.
Qed.

Lemma shl_align_fst m e ez :
  ez <= e ->
  Zpos (fst (shl_align m e ez)) = Zpos m * 2 ^ (e - ez)
  /\ Zpos (digits2_pos (fst (shl_align m e ez)))
     = Zpos (digits2_pos m) + (e - ez).
Proof.
  intros Hle. unfold shl_align.
  destruct (ez - e) as [|d|d] eqn:Ed; simpl.
  - replace (e - ez) with 0 by lia. simpl. lia.
  - lia.
  - replace (e - ez) with (Zpos d) by lia.
    by rewrite iter_xO_val, digits2_iter_xO.
Qed.

(** Two different canonical numbers, aligned to a common exponent, have
    different signed mantissas. *)
Lemma aligned_mantissas_differ sx mx ex sy my ey :
  bounded prec emax mx ex = true ->
  bounded prec emax my ey = true ->
  S754_finite sx mx ex <> S754_finite sy my ey ->
  cond_Zopp sx (Zpos (fst (shl_align mx ex (Z.min ex ey))))
  - cond_Zopp sy (Zpos (fst (shl_align my ey (Z.min ex ey)))) <> 0.
Proof.
  intros Hx Hy Hne Hz.
  apply bounded_canonical in Hx as [Hex Hcx], Hy as [Hey Hcy].
  destruct (shl_align_fst mx ex (Z.min ex ey)) as [Hvx Hdx]; [lia|].
  destruct (shl_align_fst my ey (Z.min ex ey)) as [Hvy Hdy]; [lia|].
  set (a := fst (shl_align mx ex (Z.min ex ey))) in *.
  set (b := fst (shl_align my ey (Z.min ex ey))) in *.
  assert (sx = sy /\ a = b) as [-> Hab].
  { destruct sx, sy; simpl in Hz; split; try done; try lia;
      apply Pos2Z.inj; lia. }
  rewrite Hab in Hdx, Hvx.
  assert (ex = ey) as ->.
  { assert (Zpos (digits2_pos mx) + ex = Zpos (digits2_pos my) + ey) as Hd
      by lia.
    rewrite Hd in Hcx. congruence. }
  apply Hne. f_equal. apply Pos2Z.inj.
  rewrite Z.min_id, Z.sub_diag in Hvx, Hvy. simpl in Hvx, Hvy. lia.
Qed.

(** The difference of two different finite numbers other than zero is a
    number other than zero, or an infinity. *)
Lemma sub_finite_ne (x y : float) sx mx ex sy my ey :
  Prim2SF x = S754_finite sx mx ex ->
  Prim2SF y = S754_finite sy my ey ->
  x <> y ->
  (exists s m e, Prim2SF (x - y) = S754_finite s m e)
  \/ (exists s, Prim2SF (x - y) = S754_infinity s).
Proof.
  intros Hx Hy Hne.
  pose proof (Prim2SF_valid x) as Vx. pose proof (Prim2SF_valid y) as Vy.
  rewrite Hx in Vx. rewrite Hy in Vy. simpl in Vx, Vy.
  rewrite FloatAxioms.sub_spec, Hx, Hy. unfold SF64sub, SFsub. cbv zeta.
  apply binary_normalize_nonzero.
  - apply aligned_mantissas_differ; [done..|].
    intros Heq. apply Hne, Prim2SF_inj. congruence.
  - apply bounded_canonical in Vx as [? _], Vy as [? _]. lia.
Qed.

Local Close Scope Z_scope.

(** The value MinMaxNormalizer gives the smallest valid pixel of a
    channel when [norm_min] is 0: exactly 0. *)
Lemma normalized_min_is_zero (mn mx nmax : float) :
  is_valid mn = true -> is_valid mx = true -> mn <> mx ->
  is_finite nmax = true ->
  ((mn - mn) / (mx - mn) * (nmax - 0) + 0)%float = 0%float.
Proof.
  intros Hmn Hmx Hne Hfin.
  apply is_valid_spec in Hmn as (sn & mn' & en & Hn).
  apply is_valid_spec in Hmx as (sx & mx' & ex & Hx).
  assert (exists s, Prim2SF ((mn - mn) / (mx - mn)) = S754_zero s)
    as [sq Hq].
  { rewrite FloatAxioms.div_spec, (sub_self _ _ _ _ Hn).
    destruct (sub_finite_ne mx mn _ _ _ _ _ _ Hx Hn)
      as [(s & m & e & ->)|[s ->]]; [congruence|simpl; eauto..]. }
  assert (exists s, Prim2SF ((mn - mn) / (mx - mn) * (nmax - 0))
                    = S754_zero s) as [sp Hp].
  { rewrite FloatAxioms.mul_spec, Hq, FloatAxioms.sub_spec, Prim2SF_zero.
    apply is_finite_spec in Hfin as [[s ->]|(s & m & e & ->)];
      [destruct s|]; simpl; eauto. }
  apply float_eq_zero.
  rewrite FloatAxioms.add_spec, Hp, Prim2SF_zero. by destruct sp.
Qed.

(** ** The valid pixels of a plane *)

Lemma select_row_valid (row : list float) v :
  v ∈ (zip row (is_valid <$> row) ≫= fun p : float * bool =>
         if snd p then [fst p] else [])
  <-> v ∈ row /\ is_valid v = true.
Proof.
  induction row as [|w row IH]; simpl.
  - rewrite !elem_of_nil. tauto.
  - rewrite elem_of_app, IH, elem_of_cons. destruct (is_valid w) eqn:Ew.
    + rewrite list_elem_of_singleton. split.
      * intros [->|[H1 H2]]; auto.
      * intros [[->|H1] H2]; auto.
    + rewrite elem_of_nil. split.
      * intros [[]|[H1 H2]]; auto.
      * intros [[->|H1] H2]; [congruence|auto].
Qed.

Lemma select_valid_spec (a : list (list float)) v :
  v ∈ Np.select a (Np.valid2d a)
  <-> exists y x, Np.pix2 a y x = Some v /\ is_valid v = true.
Proof.
  unfold Np.select, Np.valid2d, Np.map2d, Np.pix2.
  rewrite list_elem_of_In, in_concat. split.
  - intros (l & Hl & Hv). apply list_elem_of_In in Hl, Hv.
    apply list_elem_of_lookup in Hl as [y Hy].
    rewrite lookup_zip_with, list_lookup_fmap in Hy.
    destruct (a !! y) as [row|] eqn:Hrow; simpl in Hy; [|done].
    injection Hy as <-. apply select_row_valid in Hv as [Hin Hval].
    apply list_elem_of_lookup in Hin as [x Hx]. exists y, x.
    rewrite Hrow. simpl. done.
  - intros (y & x & Hp & Hval).
    destruct (a !! y) as [row|] eqn:Hrow; simpl in Hp; [|done].
    exists (zip row (is_valid <$> row) ≫= fun p : float * bool =>
              if snd p then [fst p] else []).
    split; apply list_elem_of_In.
    + apply list_elem_of_lookup. exists y.
      rewrite lookup_zip_with, list_lookup_fmap, Hrow. done.
    + apply select_row_valid. split; [|done].
      apply list_elem_of_lookup. eauto.
Qed.

(** ** The order of the finite numbers *)

Lemma SFltb_finite s1 m1 e1 s2 m2 e2 :
  SFltb (S754_finite s1 m1 e1) (S754_finite s2 m2 e2) = true
  <-> lt_finite (S754_finite s1 m1 e1) (S754_finite s2 m2 e2).
Proof.
  unfold SFltb, SFcompare, lt_finite.
  change (Pos.compare_cont Eq m1 m2) with (Pos.compare m1 m2).
  destruct s1, s2; simpl;
    destruct (Z.compare_spec e1 e2);
    try destruct (Pos.compare_spec m1 m2); simpl;
    split; intros; try done; try lia.
Qed.

Lemma ltb_valid a b :
  is_valid a = true -> is_valid b = true ->
  (a <? b)%float = true <-> lt_finite (Prim2SF a) (Prim2SF b).
Proof.
  intros Ha Hb. apply is_valid_spec in Ha as (sa & ma & ea & Ha).
  apply is_valid_spec in Hb as (sb & mb & eb & Hb).
  rewrite FloatAxioms.ltb_spec, Ha, Hb. apply SFltb_finite.
Qed.

Lemma ltb_irrefl a : is_valid a = true -> (a <? a)%float = false.
Proof.
  intros Ha. apply not_true_is_false. rewrite (ltb_valid a a Ha Ha).
  apply is_valid_spec in Ha as (s & m & e & ->). simpl.
  destruct s; lia.
Qed.

Lemma ltb_trans a b c :
  is_valid a = true -> is_valid b = true -> is_valid c = true ->
  (a <? b)%float = true -> (b <? c)%float = true -> (a <? c)%float = true.
Proof.
  intros Ha Hb Hc. rewrite (ltb_valid a b), (ltb_valid b c), (ltb_valid a c)
    by done.
  apply is_valid_spec in Ha as (sa & ma & ea & ->).
  apply is_valid_spec in Hb as (sb & mb & eb & ->).
  apply is_valid_spec in Hc as (sc & mc & ec & ->).
  simpl. destruct sa, sb, sc; lia.
Qed.

Lemma ltb_total a b :
  is_valid a = true -> is_valid b = true ->
  (a <? b)%float = true \/ a = b \/ (b <? a)%float = true.
Proof.
  intros Ha Hb. rewrite (ltb_valid a b), (ltb_valid b a) by done.
  apply is_valid_spec in Ha as (sa & ma & ea & Ea).
  apply is_valid_spec in Hb as (sb & mb & eb & Eb).
  rewrite Ea, Eb. simpl.
  assert (Prim2SF a = Prim2SF b -> a = b) as Hinj by apply Prim2SF_inj.
  rewrite Ea, Eb in Hinj.
  destruct sa, sb; try tauto.
  - destruct (Z.lt_total ea eb) as [H|[->|H]]; [tauto| |tauto].
    destruct (Z.lt_total (Zpos ma) (Zpos mb)) as [H|[H|H]]; [tauto| |tauto].
    right. left. apply Hinj. injection H as ->. done.
  - destruct (Z.lt_total ea eb) as [H|[->|H]]; [tauto| |tauto].
    destruct (Z.lt_total (Zpos ma) (Zpos mb)) as [H|[H|H]]; [tauto| |tauto].
    right. left. apply Hinj. injection H as ->. done.
Qed.

Lemma is_valid_not_nan v : is_valid v = true -> is_nan v = false.
Proof.
  intros Hv. apply is_valid_spec in Hv as (s & m & e & Hv).
  unfold is_nan. by rewrite FloatAxioms.eqb_spec, Hv, SFeqb_finite_refl.
Qed.

Lemma fmin_valid a b :
  is_valid a = true -> is_valid b = true ->
  fmin a b = if (b <? a)%float then b else a.
Proof.
  intros Ha Hb. unfold fmin.
  by rewrite (is_valid_not_nan a Ha), (is_valid_not_nan b Hb).
Qed.

Lemma fmax_valid a b :
  is_valid a = true -> is_valid b = true ->
  fmax a b = if (a <? b)%float then b else a.
Proof.
  intros Ha Hb. unfold fmax.
  by rewrite (is_valid_not_nan a Ha), (is_valid_not_nan b Hb).
Qed.

(** [not (a < b)] and [not (b < c)] give [not (a < c)]. *)
Lemma not_ltb_trans a b c :
  is_valid a = true -> is_valid b = true -> is_valid c = true ->
  (b <? a)%float = false -> (c <? b)%float = false -> (c <? a)%float = false.
Proof.
  intros Ha Hb Hc Hba Hcb. apply not_true_is_false. intros Hca.
  destruct (ltb_total a b Ha Hb) as [Hab|[<-|Hab]]; [|congruence..].
  pose proof (ltb_trans c a b Hc Ha Hb Hca Hab). congruence.
Qed.

Lemma foldl_fmin_spec (l : list float) : forall acc,
  is_valid acc = true -> Forall (fun v => is_valid v = true) l ->
  foldl fmin acc l ∈ acc :: l
  /\ (acc <? foldl fmin acc l)%float = false
  /\ forall a, a ∈ l -> (a <? foldl fmin acc l)%float = false.
Proof.
  induction l as [|x l IH]; intros acc Hacc Hl; simpl.
  - split; [(apply elem_of_cons; by left)|]. split; [by apply ltb_irrefl|].
    intros a Ha. by apply elem_of_nil in Ha.
  - apply Forall_cons in Hl as [Hx Hl].
    rewrite (fmin_valid acc x Hacc Hx).
    destruct (x <? acc)%float eqn:Hlt.
    + destruct (IH x Hx Hl) as (Hin & Hle & Hall).
      assert (is_valid (foldl fmin x l) = true) as Hr.
      { apply elem_of_cons in Hin as [->|Hin]; [done|].
        rewrite Forall_forall in Hl. by apply Hl. }
      split; [(apply elem_of_cons; by right)|]. split.
      * apply not_true_is_false. intros H.
        pose proof (ltb_trans _ _ _ Hx Hacc Hr Hlt H). congruence.
      * intros a Ha. apply elem_of_cons in Ha as [->|Ha]; auto.
    + destruct (IH acc Hacc Hl) as (Hin & Hle & Hall).
      assert (is_valid (foldl fmin acc l) = true) as Hr.
      { apply elem_of_cons in Hin as [->|Hin]; [done|].
        rewrite Forall_forall in Hl. by apply Hl. }
      split.
      { apply elem_of_cons in Hin as [->|Hin];
          [(apply elem_of_cons; by left)|(apply elem_of_cons; right; apply elem_of_cons; by right)]. }
      split; [done|].
      intros a Ha. apply elem_of_cons in Ha as [->|Ha]; auto.
      by apply (not_ltb_trans _ acc _).
Qed.

Lemma foldl_fmax_spec (l : list float) : forall acc,
  is_valid acc = true -> Forall (fun v => is_valid v = true) l ->
  foldl fmax acc l ∈ acc :: l
  /\ (foldl fmax acc l <? acc)%float = false
  /\ forall a, a ∈ l -> (foldl fmax acc l <? a)%float = false.
Proof.
  induction l as [|x l IH]; intros acc Hacc Hl; simpl.
  - split; [(apply elem_of_cons; by left)|]. split; [by apply ltb_irrefl|].
    intros a Ha. by apply elem_of_nil in Ha.
  - apply Forall_cons in Hl as [Hx Hl].
    rewrite (fmax_valid acc x Hacc Hx).
    destruct (acc <? x)%float eqn:Hlt.
    + destruct (IH x Hx Hl) as (Hin & Hle & Hall).
      assert (is_valid (foldl fmax x l) = true) as Hr.
      { apply elem_of_cons in Hin as [->|Hin]; [done|].
        rewrite Forall_forall in Hl. by apply Hl. }
      split; [(apply elem_of_cons; by right)|]. split.
      * apply not_true_is_false. intros H.
        pose proof (ltb_trans _ _ _ Hr Hacc Hx H Hlt). congruence.
      * intros a Ha. apply elem_of_cons in Ha as [->|Ha]; auto.
    + destruct (IH acc Hacc Hl) as (Hin & Hle & Hall).
      assert (is_valid (foldl fmax acc l) = true) as Hr.
      { apply elem_of_cons in Hin as [->|Hin]; [done|].
        rewrite Forall_forall in Hl. by apply Hl. }
      split.
      { apply elem_of_cons in Hin as [->|Hin];
          [(apply elem_of_cons; by left)|(apply elem_of_cons; right; apply elem_of_cons; by right)]. }
      split; [done|].
      intros a Ha. apply elem_of_cons in Ha as [->|Ha]; auto.
      by apply (not_ltb_trans _ acc _).
Qed.

(** [min()] and [max()] of the valid pixels: pixels of the list, below
    and above every other. *)
Lemma np_min_spec (l : list float) m :
  Forall (fun v => is_valid v = true) l -> Np.min l = Ret m ->
  m ∈ l /\ forall a, a ∈ l -> (a <? m)%float = false.
Proof.
  intros Hl Hm. destruct l as [|v l]; [done|]. simpl in Hm.
  injection Hm as <-. apply Forall_cons in Hl as [Hv Hl].
  destruct (foldl_fmin_spec l v Hv Hl) as (Hin & Hle & Hall).
  split; [done|]. intros a Ha. apply elem_of_cons in Ha as [->|Ha]; auto.
Qed.

Lemma np_max_spec (l : list float) m :
  Forall (fun v => is_valid v = true) l -> Np.max l = Ret m ->
  m ∈ l /\ forall a, a ∈ l -> (m <? a)%float = false.
Proof.
  intros Hl Hm. destruct l as [|v l]; [done|]. simpl in Hm.
  injection Hm as <-. apply Forall_cons in Hl as [Hv Hl].
  destruct (foldl_fmax_spec l v Hv Hl) as (Hin & Hle & Hall).
  split; [done|]. intros a Ha. apply elem_of_cons in Ha as [->|Ha]; auto.
Qed.

(** ** MinMaxNormalizer and the smallest pixel *)

Lemma select_valid_Forall (a : list (list float)) :
  Forall (fun v => is_valid v = true) (Np.select a (Np.valid2d a)).
Proof.
  apply Forall_forall. intros v Hv.
  by apply select_valid_spec in Hv as (y & x & _ & Hval).
Qed.

(** C10.  In a channel whose valid pixels are not all equal,
    MinMaxNormalizer with [norm_min = 0] sends a smallest valid pixel to
    exactly 0: the value every stage reads as masked. *)
Theorem MinMaxNormalizer_min_becomes_masked (self : MinMaxNormalizer.t)
    (data out : list (list (list float))) (c : nat)
    (ch : list (list float)) (y x : nat) (v : float) :
  MinMaxNormalizer.norm_min self = 0%float ->
  is_finite (MinMaxNormalizer.norm_max self) = true ->
  MinMaxNormalizer.call self (Some data) = Ret (Some out) ->
  data !! c = Some ch ->
  (exists y1 x1 a y2 x2 b,
     Np.pix2 ch y1 x1 = Some a /\ is_valid a = true /\
     Np.pix2 ch y2 x2 = Some b /\ is_valid b = true /\ a <> b) ->
  Np.pix2 ch y x = Some v ->
  is_valid v = true ->
  (forall y' x' w, Np.pix2 ch y' x' = Some w -> is_valid w = true ->
     (w <? v)%float = false) ->
  Np.pix out y x c = Some 0%float /\ is_valid 0%float = false.
Proof.
  intros Hnmin Hnmax Hrun Hch Hdiff Hpix Hv Hleast.
  split; [|reflexivity].
  assert (c < length data) as Hc by (by eapply lookup_lt_Some).
  unfold MinMaxNormalizer.call in Hrun.
  eapply for_range_channel in Hrun as (a & a' & Hla & _ & Hb & Hout);
    [| |exact Hc].
  2: { intros i a a' Hb. inv_outcome Hb. injection Hb as <-.
       apply set_chan_own. }
  inv_outcome Hb. injection Hb as <-.
  repeat match goal with
         | H : Np.get_chan _ _ = Ret _ |- _ =>
             apply get_chan_Ret in H; rewrite Hch in H;
             apply (inj Some) in H as <-
         end.
  match goal with H : Np.min _ = Ret ?m |- _ =>
    rename H into Hmin; rename m into mn end.
  match goal with H : Np.max _ = Ret ?m |- _ =>
    rename H into Hmax; rename m into mx end.
  pose proof (select_valid_Forall ch) as Hall.
  destruct (np_min_spec _ _ Hall Hmin) as [Hmn_in Hmn_low].
  destruct (np_max_spec _ _ Hall Hmax) as [Hmx_in Hmx_up].
  assert (forall w, w ∈ Np.select ch (Np.valid2d ch) -> is_valid w = true)
    as Hval by (by apply Forall_forall).
  (* the pixel holds the computed minimum *)
  assert (v = mn) as ->.
  { assert (v ∈ Np.select ch (Np.valid2d ch)) as Hvin
      by (apply select_valid_spec; eauto).
    destruct (ltb_total v mn Hv (Hval _ Hmn_in)) as [H|[H|H]]; [|done|].
    - pose proof (Hmn_low _ Hvin). congruence.
    - apply select_valid_spec in Hmn_in as (y' & x' & Hp & Hm).
      pose proof (Hleast _ _ _ Hp Hm). congruence. }
  (* minimum and maximum differ *)
  assert (mn <> mx) as Hne.
  { intros ->. destruct Hdiff as (y1 & x1 & p & y2 & x2 & q
                                  & Hp & Hpv & Hq & Hqv & Hpq).
    assert (forall w, w ∈ Np.select ch (Np.valid2d ch) -> w = mx) as Hsame.
    { intros w Hw.
      destruct (ltb_total w mx (Hval _ Hw) (Hval _ Hmx_in)) as [H|[H|H]];
        [|done|].
      - pose proof (Hmn_low _ Hw). congruence.
      - pose proof (Hmx_up _ Hw). congruence. }
    apply Hpq. rewrite (Hsame p), (Hsame q); [done|..];
      apply select_valid_spec; eauto. }
  unfold Np.pix. rewrite Hout. unfold Np.set_chan.
  rewrite list_lookup_insert_eq by lia. simpl.
  rewrite pix2_restore, Hpix. simpl. rewrite Hv, Hnmin. f_equal.
  apply normalized_min_is_zero; auto.
Qed.

Lemma MinMaxNormalizer_min_witness :
  exists out,
    MinMaxNormalizer.call
      {| MinMaxNormalizer.norm_min := 0; MinMaxNormalizer.norm_max := 1 |}
      (Some Example.ramp) = Ret (Some out)
    /\ Np.pix out 0 0 0 = Some 0%float
    /\ is_valid 0%float = false.
Proof.
  eexists. split; [vm_compute; reflexivity|].
  apply (MinMaxNormalizer_min_becomes_masked
           {| MinMaxNormalizer.norm_min := 0;
              MinMaxNormalizer.norm_max := 1 |}
           Example.ramp _ 0 [[2; 4]; [6; 8]]%float 0 0 2%float).
  - reflexivity.
  - reflexivity.
  - vm_compute. reflexivity.
  - reflexivity.
  - exists 0, 0, 2%float, 0, 1, 4%float.
    repeat split; try reflexivity. intros H.
    apply (f_equal (fun f => (f <? 3)%float)) in H. vm_compute in H.
    discriminate.
  - reflexivity.
  - reflexivity.
  - intros y' x' w Hp Hw.
    destruct y' as [|[|y']], x' as [|[|x']]; simpl in Hp;
      try discriminate Hp; apply (inj Some) in Hp as <-; reflexivity.
Defined.

(** * Further properties of the stages *)

(** ** How a loop over the channels can end *)

Lemma for_range_no_raise body rng acc e :
  (forall i a e', i ∈ rng -> body i a <> Raise e') ->
  for_range rng body acc <> Raise e.
Proof.
  revert acc. induction rng as [|i rng IH]; intros acc Hb; simpl; [done|].
  destruct (body i acc) as [[a'|]|e'] eqn:Hi.
  - apply IH. intros j a e' Hj. apply Hb. apply elem_of_cons. by right.
  - done.
  - exfalso. apply (Hb i acc e'); [apply elem_of_cons; by left|done].
Qed.

Lemma for_range_None_inv body rng acc :
  for_range rng body acc = Ret None ->
  exists i a, i ∈ rng /\ body i a = Ret None.
Proof.
  revert acc. induction rng as [|i rng IH]; intros acc H; simpl in H;
    [done|].
  destruct (body i acc) as [[a'|]|e'] eqn:Hi; [| |done].
  - destruct (IH _ H) as (j & a & Hj & Hb). exists j, a.
    split; [apply elem_of_cons; by right|done].
  - exists i, acc. split; [apply elem_of_cons; by left|done].
Qed.

(** ** The pixels a mask selects *)

Lemma select_row_pred (p : float -> bool) (row : list float) v :
  v ∈ (zip row (p <$> row) ≫= fun q : float * bool =>
         if snd q then [fst q] else [])
  <-> v ∈ row /\ p v = true.
Proof.
  induction row as [|w row IH]; simpl.
  - rewrite !elem_of_nil. tauto.
  - rewrite elem_of_app, IH, elem_of_cons. destruct (p w) eqn:Ew.
    + rewrite list_elem_of_singleton. split.
      * intros [->|[H1 H2]]; auto.
      * intros [[->|H1] H2]; auto.
    + rewrite elem_of_nil. split.
      * intros [[]|[H1 H2]]; auto.
      * intros [[->|H1] H2]; [congruence|auto].
Qed.

Lemma select_pred_spec (p : float -> bool) (a : list (list float)) v :
  v ∈ Np.select a (Np.map2d p a)
  <-> exists y x, Np.pix2 a y x = Some v /\ p v = true.
Proof.
  unfold Np.select, Np.map2d, Np.pix2.
  rewrite list_elem_of_In, in_concat. split.
  - intros (l & Hl & Hv). apply list_elem_of_In in Hl, Hv.
    apply list_elem_of_lookup in Hl as [y Hy].
    rewrite lookup_zip_with, list_lookup_fmap in Hy.
    destruct (a !! y) as [row|] eqn:Hrow; simpl in Hy; [|done].
    injection Hy as <-. apply select_row_pred in Hv as [Hin Hval].
    apply list_elem_of_lookup in Hin as [x Hx]. exists y, x.
    rewrite Hrow. simpl. done.
  - intros (y & x & Hp & Hval).
    destruct (a !! y) as [row|] eqn:Hrow; simpl in Hp; [|done].
    exists (zip row (p <$> row) ≫= fun q : float * bool =>
              if snd q then [fst q] else []).
    split; apply list_elem_of_In.
    + apply list_elem_of_lookup. exists y.
      rewrite lookup_zip_with, list_lookup_fmap, Hrow. done.
    + apply select_row_pred. split; [|done].
      apply list_elem_of_lookup. eauto.
Qed.

(** No pixel of a plane passes the test exactly when the selection is
    empty. *)
Lemma select_pred_nil (p : float -> bool) (a : list (list float)) :
  Np.select a (Np.map2d p a) = []
  <-> forall y x v, Np.pix2 a y x = Some v -> p v = false.
Proof.
  split.
  - intros Hnil y x v Hp. apply not_true_is_false. intros Hv.
    assert (v ∈ Np.select a (Np.map2d p a)) as Hin
      by (apply select_pred_spec; eauto).
    rewrite Hnil in Hin. by apply elem_of_nil in Hin.
  - intros Hall. destruct (Np.select a (Np.map2d p a)) as [|v l] eqn:E;
      [done|].
    assert (v ∈ Np.select a (Np.map2d p a)) as Hin
      by (rewrite E; apply elem_of_cons; by left).
    apply select_pred_spec in Hin as (y & x & Hp & Hv).
    rewrite (Hall _ _ _ Hp) in Hv. done.
Qed.

Lemma length_zero_nil {A} (l : list A) : (length l =? 0) = true <-> l = [].
Proof. destruct l; simpl; split; intros; congruence. Qed.

(** X1.  MinMaxNormalizer never raises, and it returns [None] exactly
    when some channel has no valid pixel. *)
Theorem MinMaxNormalizer_fails_only_with_None (self : MinMaxNormalizer.t)
    (data : list (list (list float))) :
  (forall e, MinMaxNormalizer.call self (Some data) <> Raise e)
  /\ (MinMaxNormalizer.call self (Some data) = Ret None
      <-> exists c ch, data !! c = Some ch /\
            forall y x v, Np.pix2 ch y x = Some v -> is_valid v = false).
Proof.
  unfold MinMaxNormalizer.call.
  set (body := fun (i : nat) (data_norm : list (list (list float))) => _).
  assert (forall e, for_range (seq 0 (Np.nchans data)) body data <> Raise e)
    as Hnoraise.
  { intros e. apply for_range_no_raise. intros i a e' Hi Hb.
    apply elem_of_seq in Hi as [_ Hi]. unfold body in Hb.
    destruct (lookup_lt_is_Some_2 data i) as [ch Hch]; [exact Hi|].
    unfold Np.get_chan in Hb. rewrite Hch in Hb. simpl in Hb.
    destruct (Np.select ch (Np.valid2d ch)) as [|v l] eqn:E; [done|].
    simpl in Hb. done. }
  split; [exact Hnoraise|]. split.
  - intros Hnone. apply for_range_None_inv in Hnone as (i & a & Hi & Hb).
    unfold body in Hb. inv_outcome Hb; try discriminate;
      (match goal with H : Np.get_chan _ _ = Ret ?ch |- _ =>
         apply get_chan_Ret in H; exists i, ch; split; [exact H|] end);
      (match goal with H : (length _ =? 0) = true |- _ =>
         apply length_zero_nil in H; by apply select_pred_nil end).
  - intros (c & ch & Hch & Hnov).
    destruct (for_range (seq 0 (Np.nchans data)) body data)
      as [[out|]|e] eqn:Hrun; [|done|by destruct (Hnoraise e)].
    exfalso.
    eapply for_range_channel in Hrun as (a & a' & _ & _ & Hb & _);
      [| |by eapply lookup_lt_Some].
    + unfold body in Hb. unfold Np.get_chan in Hb. rewrite Hch in Hb.
      simpl in Hb. apply select_pred_nil in Hnov.
      unfold Np.valid2d in Hb. rewrite Hnov in Hb. done.
    + intros i a a' Hb. unfold body in Hb. inv_outcome Hb.
      injection Hb as <-. apply set_chan_own.
Qed.

(** ** LogStretcher *)

Lemma select_row_zip {B} (f : float -> bool -> B) (p : float -> bool)
    (row : list float) :
  (zip (zip_with f row (p <$> row)) (p <$> row) ≫= fun q : B * bool =>
     if snd q then [fst q] else [])
  = (fun v => f v true) <$>
      (zip row (p <$> row) ≫= fun q : float * bool =>
         if snd q then [fst q] else []).
Proof.
  induction row as [|w row IH]; simpl; [done|].
  rewrite fmap_app. f_equal; [by destruct (p w)|exact IH].
Qed.

(** The mask that selects pixels of [a] selects, from a plane computed
    pixel by pixel from [a] and the mask, the images of those pixels. *)
Lemma select_zip2d {B} (f : float -> bool -> B) (p : float -> bool)
    (a : list (list float)) :
  Np.select (Np.zip2d f a (Np.map2d p a)) (Np.map2d p a)
  = (fun v => f v true) <$> Np.select a (Np.map2d p a).
Proof.
  unfold Np.select, Np.zip2d, Np.map2d.
  induction a as [|row a IH]; simpl; [done|].
  rewrite fmap_app. f_equal; [apply select_row_zip|exact IH].
Qed.

Lemma np_min_nonempty (l : list float) :
  l <> [] -> exists m, Np.min l = Ret m.
Proof. destruct l; [done|]. simpl. eauto. Qed.

(** X2.  LogStretcher never raises, and it returns [None] exactly when a
    channel it processes has no finite pixel above zero.  The channels
    it processes are all of them when [chid = -1], and otherwise all but
    channel [chid], which it skips. *)
Theorem LogStretcher_fails_only_with_None (log10 : float -> float)
    (uninit : float) (self : LogStretcher.t)
    (data : list (list (list float))) :
  (forall e, LogStretcher.call log10 uninit self (Some data) <> Raise e)
  /\ (LogStretcher.call log10 uninit self (Some data) = Ret None
      <-> exists c ch,
            (negb (LogStretcher.chid self =? -1)%Z
             && (Z.of_nat c =? LogStretcher.chid self)%Z = false) /\
            data !! c = Some ch /\
            forall y x v, Np.pix2 ch y x = Some v ->
              (0 <? v)%float && is_finite v = false).
Proof.
  unfold LogStretcher.call.
  set (body := fun (i : nat) (data_transf : list (list (list float))) => _).
  set (pos := fun v : float => (0 <? v)%float && is_finite v).
  assert (forall i a ch,
            negb (LogStretcher.chid self =? -1)%Z
            && (Z.of_nat i =? LogStretcher.chid self)%Z = false ->
            data !! i = Some ch ->
            (Np.select ch (Np.map2d pos ch) = [] /\ body i a = Ret None)
            \/ (Np.select ch (Np.map2d pos ch) <> [] /\
                exists a', body i a = Ret (Some a') /\
                  length a' = length a /\
                  forall j, j <> i -> a' !! j = a !! j)) as Hstep.
  { intros i a ch Hgo Hch. unfold body. rewrite Hgo.
    unfold Np.get_chan. rewrite Hch. simpl. fold pos.
    destruct (Np.select ch (Np.map2d pos ch)) as [|v l] eqn:E.
    - left. done.
    - right. split; [done|]. simpl length. simpl Nat.leb.
      rewrite select_zip2d. fold pos. rewrite E. simpl.
      eexists. split; [reflexivity|]. apply set_chan_own. }
  assert (writes_own_channel body) as Hown.
  { intros i a a' Hb.
    destruct (negb (LogStretcher.chid self =? -1)%Z
              && (Z.of_nat i =? LogStretcher.chid self)%Z) eqn:Hgo.
    - unfold body in Hb. rewrite Hgo in Hb. by injection Hb as <-.
    - destruct (data !! i) as [ch|] eqn:Hch.
      + destruct (Hstep i a ch Hgo Hch) as [[_ Hn]|(_ & a2 & Hs & Hl)];
          [congruence|]. rewrite Hs in Hb. by injection Hb as <-.
      + unfold body in Hb. rewrite Hgo in Hb. unfold Np.get_chan in Hb.
        rewrite Hch in Hb. done. }
  assert (forall e, for_range (seq 0 (Np.nchans data)) body data <> Raise e)
    as Hnoraise.
  { intros e. apply for_range_no_raise. intros i a e' Hi Hb.
    apply elem_of_seq in Hi as [_ Hi].
    destruct (negb (LogStretcher.chid self =? -1)%Z
              && (Z.of_nat i =? LogStretcher.chid self)%Z) eqn:Hgo.
    - unfold body in Hb. rewrite Hgo in Hb. done.
    - destruct (lookup_lt_is_Some_2 data i) as [ch Hch]; [exact Hi|].
      destruct (Hstep i a ch Hgo Hch) as [[_ Hn]|(_ & a2 & Hs & _)];
        congruence. }
  split; [exact Hnoraise|]. split.
  - intros Hnone. apply for_range_None_inv in Hnone as (i & a & Hi & Hb).
    apply elem_of_seq in Hi as [_ Hi].
    destruct (negb (LogStretcher.chid self =? -1)%Z
              && (Z.of_nat i =? LogStretcher.chid self)%Z) eqn:Hgo.
    { unfold body in Hb. rewrite Hgo in Hb. done. }
    destruct (lookup_lt_is_Some_2 data i) as [ch Hch]; [exact Hi|].
    exists i, ch. split; [done|]. split; [done|].
    destruct (Hstep i a ch Hgo Hch) as [[Hnil _]|(_ & a2 & Hs & _)];
      [|congruence]. by apply (select_pred_nil pos).
  - intros (c & ch & Hgo & Hch & Hnov).
    destruct (for_range (seq 0 (Np.nchans data)) body data)
      as [[out|]|e] eqn:Hrun; [|done|by destruct (Hnoraise e)].
    exfalso.
    eapply for_range_channel in Hrun as (a & a' & _ & _ & Hb & _);
      [|exact Hown|by eapply lookup_lt_Some].
    destruct (Hstep c a ch Hgo Hch) as [[_ Hn]|(Hne & _)]; [congruence|].
    apply Hne. by apply (select_pred_nil pos).
Qed.

(** X3.  With the min/max normalization on, LogStretcher puts 0 back at
    every pixel of a processed channel that is zero or not finite in the
    input. *)
Theorem LogStretcher_minmaxnorm_restores_mask (log10 : float -> float)
    (uninit : float) (self : LogStretcher.t)
    (data out : list (list (list float))) (y x c : nat) (v : float) :
  LogStretcher.minmaxnorm self = true ->
  negb (LogStretcher.chid self =? -1)%Z
  && (Z.of_nat c =? LogStretcher.chid self)%Z = false ->
  LogStretcher.call log10 uninit self (Some data) = Ret (Some out) ->
  Np.pix data y x c = Some v ->
  is_valid v = false ->
  Np.pix out y x c = Some 0%float.
Proof.
  intros Hmm Hgo Hrun Hpix Hv. unfold LogStretcher.call in Hrun.
  destruct (pix_inv _ _ _ _ _ Hpix) as (ch & Hch & Hp2 & Hc).
  eapply for_range_channel in Hrun as (a & a' & Hla & _ & Hb & Hout);
    [| |exact Hc].
  2: { intros i a a' Hb. inv_outcome Hb; injection Hb as <-;
         first [apply set_chan_own | done]. }
  rewrite Hgo, Hmm in Hb. unfold Np.get_chan in Hb. rewrite Hch in Hb.
  assert ((v =? 0)%float || negb (is_finite v) = true) as Hbad.
  { unfold is_valid in Hv. destruct (v =? 0)%float; [done|].
    simpl in *. by rewrite Hv. }
  unfold Np.pix. rewrite Hout.
  inv_outcome Hb; injection Hb as <-;
    unfold Np.set_chan; rewrite list_lookup_insert_eq by lia; simpl;
    rewrite pix2_assign_where, !pix2_map2d, pix2_assign_unless,
      pix2_zip2d, !pix2_map2d, Hp2; simpl; by rewrite Hbad.
Qed.

Lemma LogStretcher_minmaxnorm_witness :
  exists out,
    LogStretcher.call Example.log10_table 0%float
      {| LogStretcher.chid := -1; LogStretcher.minmaxnorm := true;
         LogStretcher.data_norm_min := -6; LogStretcher.data_norm_max := 6;
         LogStretcher.clip_neg := false |}
      (Some Example.log_scene) = Ret (Some out)
    /\ Np.pix out 1 1 0 = Some 0%float.
Proof.
  eexists. split; [vm_compute; reflexivity|].
  apply (LogStretcher_minmaxnorm_restores_mask Example.log10_table 0%float
           {| LogStretcher.chid := -1; LogStretcher.minmaxnorm := true;
              LogStretcher.data_norm_min := -6;
              LogStretcher.data_norm_max := 6;
              LogStretcher.clip_neg := false |}
           Example.log_scene _ 1 1 0 0%float);
    reflexivity.
Defined.

(** ** Scaler *)

Lemma mul_invalid (v k : float) :
  is_valid v = false -> is_valid (v * k) = false.
Proof.
  intros Hv. apply not_true_is_false. intros Hvk. apply is_valid_spec in Hvk
    as (s & m & e & Hvk).
  rewrite FloatAxioms.mul_spec in Hvk.
  assert (exists s' m' e', Prim2SF v = S754_finite s' m' e') as Hfin.
  { destruct (Prim2SF v) as [sv|sv| |sv mv ev];
      destruct (Prim2SF k) as [sk|sk| |sk mk ek]; try discriminate Hvk.
    eauto. }
  apply is_valid_spec in Hfin. congruence.
Qed.

(** X4.  Scaler restores no mask, but it never turns an invalid pixel
    into a valid one: a pixel that is zero or not finite in the input is
    zero or not finite in the output, whatever the factors. *)
Theorem Scaler_keeps_invalid (self : Scaler.t)
    (data out : list (list (list float))) (y x c : nat) (v : float) :
  Scaler.call self (Some data) = Ret (Some out) ->
  Np.pix data y x c = Some v ->
  is_valid v = false ->
  exists w, Np.pix out y x c = Some w /\ is_valid w = false.
Proof.
  unfold Scaler.call. intros Hrun Hpix Hv. inv_outcome Hrun.
  injection Hrun as <-.
  match goal with H : _ || _ = false |- _ =>
    apply orb_false_elim in H as [_ E]; apply negb_false_iff, Nat.eqb_eq in E
  end.
  destruct (pix_inv _ _ _ _ _ Hpix) as (ch & _ & _ & Hc).
  unfold Np.nchans in E.
  destruct (lookup_lt_is_Some_2 (Scaler.scale_factors self) c) as [k Hk];
    [lia|].
  exists (v * k)%float. split; [|by apply mul_invalid].
  by rewrite pix_broadcast, Hk, Hpix.
Qed.

Lemma Scaler_keeps_invalid_witness :
  exists out w,
    Scaler.call {| Scaler.scale_factors := [2]%float |}
      (Some Example.row_with_nan) = Ret (Some out)
    /\ Np.pix out 0 1 0 = Some w /\ is_valid w = false.
Proof.
  destruct (Scaler_keeps_invalid {| Scaler.scale_factors := [2]%float |}
              Example.row_with_nan [ [[2; nan; 0]] ]%float 0 1 0 nan)
    as (w & Hw & Hv); [vm_compute; reflexivity|reflexivity|reflexivity|].
  exists [ [[2; nan; 0]] ]%float, w.
  split; [vm_compute; reflexivity|]. split; [exact Hw|exact Hv].
Defined.

(** ** MinShifter *)

Lemma for_range_Raise_inv body rng acc e :
  for_range rng body acc = Raise e ->
  exists i a, i ∈ rng /\ body i a = Raise e.
Proof.
  revert acc. induction rng as [|i rng IH]; intros acc H; simpl in H;
    [done|].
  destruct (body i acc) as [[a'|]|e'] eqn:Hi; [|done|].
  - destruct (IH _ H) as (j & a & Hj & Hb). exists j, a.
    split; [apply elem_of_cons; by right|done].
  - injection H as ->. exists i, acc.
    split; [apply elem_of_cons; by left|done].
Qed.

Lemma MinShifter_body_own self data :
  writes_own_channel (fun i data_shifted =>
    if negb (MinShifter.chid self =? -1)%Z
       && negb (Z.of_nat i =? MinShifter.chid self)%Z
    then Ret (Some data_shifted) else
    data_ch ← Np.get_chan data i;
    let cond := Np.valid2d data_ch in
    let data_ch_1d := Np.select data_ch cond in
    data_ch_min ← Np.min data_ch_1d;
    let data_ch_shifted :=
      Np.map2d (fun v => v - data_ch_min)%float data_ch in
    let data_ch_shifted :=
      Np.assign_unless cond 0%float data_ch_shifted in
    Ret (Some (Np.set_chan i data_ch_shifted data_shifted))).
Proof.
  intros i a a' Hb. inv_outcome Hb; injection Hb as <-;
    first [apply set_chan_own | done].
Qed.

Lemma chid_gate_open (chid : Z) (c : nat) :
  chid = (-1)%Z \/ chid = Z.of_nat c ->
  negb (chid =? -1)%Z && negb (Z.of_nat c =? chid)%Z = false.
Proof.
  intros [-> | ->]; [done|]. rewrite Z.eqb_refl. apply andb_false_r.
Qed.

Lemma chid_gate_closed (chid : Z) (c : nat) :
  chid <> (-1)%Z -> chid <> Z.of_nat c ->
  negb (chid =? -1)%Z && negb (Z.of_nat c =? chid)%Z = true.
Proof.
  intros H1 H2. apply andb_true_iff. split; apply negb_true_iff, Z.eqb_neq;
    congruence.
Qed.

(** X5.  On a channel it processes, MinShifter subtracts the smallest
    valid pixel of that channel from every valid pixel and writes 0 at
    the invalid ones; the pixel that holds the minimum becomes exactly
    0. *)
Theorem MinShifter_shifts_channel_minimum_to_zero (self : MinShifter.t)
    (data out : list (list (list float))) (c : nat)
    (ch : list (list float)) :
  MinShifter.chid self = (-1)%Z \/ MinShifter.chid self = Z.of_nat c ->
  MinShifter.call self (Some data) = Ret (Some out) ->
  data !! c = Some ch ->
  exists mn y0 x0,
    Np.pix2 ch y0 x0 = Some mn /\ is_valid mn = true
    /\ (forall y x v, Np.pix2 ch y x = Some v -> is_valid v = true ->
          (v <? mn)%float = false)
    /\ (forall y x v, Np.pix2 ch y x = Some v ->
          Np.pix out y x c
          = Some (if is_valid v then (v - mn)%float else 0%float))
    /\ Np.pix out y0 x0 c = Some 0%float.
Proof.
  intros Hsel Hrun Hch. unfold MinShifter.call in Hrun.
  eapply for_range_channel in Hrun as (a & a' & Hla & _ & Hb & Hout);
    [|apply MinShifter_body_own|by eapply lookup_lt_Some].
  rewrite (chid_gate_open _ _ Hsel) in Hb. unfold Np.get_chan in Hb.
  rewrite Hch in Hb. simpl in Hb.
  destruct (Np.min (Np.select ch (Np.valid2d ch))) as [mn|] eqn:Hmin;
    [|done].
  simpl in Hb. injection Hb as <-.
  destruct (np_min_spec _ _ (select_valid_Forall ch) Hmin) as [Hin Hle].
  apply select_valid_spec in Hin as (y0 & x0 & Hp0 & Hv0).
  assert (forall y x v, Np.pix2 ch y x = Some v ->
            Np.pix out y x c
            = Some (if is_valid v then (v - mn)%float else 0%float)) as Hpix.
  { intros y x v Hp. unfold Np.pix. rewrite Hout. unfold Np.set_chan.
    rewrite list_lookup_insert_eq by (apply lookup_lt_Some in Hch; lia).
    simpl. rewrite pix2_restore, Hp. done. }
  exists mn, y0, x0. repeat split; [done|done| |exact Hpix|].
  - intros y x v Hp Hv. apply Hle. apply select_valid_spec. eauto.
  - rewrite (Hpix _ _ _ Hp0), Hv0. f_equal.
    apply is_valid_spec in Hv0 as (s & m & e & Hf).
    apply float_eq_zero. by eapply sub_self.
Qed.

Lemma MinShifter_shifts_witness :
  exists out,
    MinShifter.call {| MinShifter.chid := -1 |} (Some Example.ramp)
      = Ret (Some out)
    /\ exists mn y0 x0,
         Np.pix2 [[2; 4]; [6; 8]]%float y0 x0 = Some mn
         /\ is_valid mn = true
         /\ (forall y x v, Np.pix2 [[2; 4]; [6; 8]]%float y x = Some v ->
               is_valid v = true -> (v <? mn)%float = false)
         /\ (forall y x v, Np.pix2 [[2; 4]; [6; 8]]%float y x = Some v ->
               Np.pix out y x 0
               = Some (if is_valid v then (v - mn)%float else 0%float))
         /\ Np.pix out y0 x0 0 = Some 0%float.
Proof.
  eexists.
  refine ((fun E => conj E
             (MinShifter_shifts_channel_minimum_to_zero
                {| MinShifter.chid := -1 |} Example.ramp _ 0
                [[2; 4]; [6; 8]]%float (or_introl eq_refl) E eq_refl)) _).
  vm_compute. reflexivity.
Defined.

(** X6.  MinShifter never returns [None] for an array and raises nothing
    but [ValueError]; it raises exactly when a channel it processes has
    no valid pixel. *)
Theorem MinShifter_raises_iff_no_valid_pixel (self : MinShifter.t)
    (data : list (list (list float))) :
  MinShifter.call self (Some data) <> Ret None
  /\ (forall e, MinShifter.call self (Some data) = Raise e
                -> e = ValueError)
  /\ (MinShifter.call self (Some data) = Raise ValueError
      <-> exists c ch,
            (MinShifter.chid self = (-1)%Z
             \/ MinShifter.chid self = Z.of_nat c)
            /\ data !! c = Some ch
            /\ forall y x v, Np.pix2 ch y x = Some v -> is_valid v = false).
Proof.
  unfold MinShifter.call.
  set (body := fun (i : nat) (data_shifted : list (list (list float))) => _).
  assert (for_range (seq 0 (Np.nchans data)) body data <> Ret None)
    as Hsome.
  { intros H. apply for_range_None_inv in H as (i & a & _ & Hb).
    unfold body in Hb. inv_outcome Hb; discriminate. }
  assert (forall e, for_range (seq 0 (Np.nchans data)) body data = Raise e ->
            e = ValueError /\
            exists c ch,
              (MinShifter.chid self = (-1)%Z
               \/ MinShifter.chid self = Z.of_nat c)
              /\ data !! c = Some ch
              /\ forall y x v, Np.pix2 ch y x = Some v -> is_valid v = false)
    as Hraise.
  { intros e H. apply for_range_Raise_inv in H as (i & a & Hi & Hb).
    apply elem_of_seq in Hi as [_ Hi]. unfold body in Hb.
    destruct (lookup_lt_is_Some_2 data i) as [ch Hch]; [exact Hi|].
    destruct (negb (MinShifter.chid self =? -1)%Z
              && negb (Z.of_nat i =? MinShifter.chid self)%Z) eqn:Hgate;
      [done|].
    unfold Np.get_chan in Hb. rewrite Hch in Hb. simpl in Hb.
    destruct (Np.select ch (Np.valid2d ch)) as [|v l] eqn:E; [|done].
    simpl in Hb. injection Hb as <-. split; [done|]. exists i, ch.
    split; [|split; [done|by apply select_pred_nil]].
    apply andb_false_iff in Hgate as [Hg|Hg]; apply negb_false_iff in Hg.
    - left. by apply Z.eqb_eq.
    - right. symmetry. by apply Z.eqb_eq. }
  split; [exact Hsome|]. split; [intros e He; by destruct (Hraise _ He)|]. split.
  - intros H. by destruct (Hraise _ H).
  - intros (c & ch & Hsel & Hch & Hnov).
    destruct (for_range (seq 0 (Np.nchans data)) body data)
      as [[out|]|e] eqn:Hrun; [|done|].
    + exfalso.
      eapply for_range_channel in Hrun as (a & a' & _ & _ & Hb & _);
        [|apply MinShifter_body_own|by eapply lookup_lt_Some].
      unfold body in Hb.
      rewrite (chid_gate_open _ _ Hsel) in Hb. unfold Np.get_chan in Hb.
      rewrite Hch in Hb. simpl in Hb. apply select_pred_nil in Hnov.
      unfold Np.valid2d in Hb. rewrite Hnov in Hb. done.
    + by destruct (Hraise e eq_refl) as [-> _].
Qed.

(** ** SigmaClipper *)

(** No number is below itself, a NaN and the infinities included. *)
Lemma ltb_irrefl_any (a : float) : (a <? a)%float = false.
Proof.
  rewrite ltb_spec. unfold SFltb, SFcompare.
  destruct (Prim2SF a) as [[]|[]| |[] m e]; try done;
    rewrite Z.compare_refl, Pos.compare_cont_refl; done.
Qed.

Lemma clip_within_bounds (lo up v : float) :
  let w1 := if (v <? lo)%float then lo else v in
  let w := if (up <? w1)%float then up else w1 in
  (up <? w)%float = false
  /\ ((up <? lo)%float = false -> (w <? lo)%float = false)
  /\ ((v <? lo)%float = false -> (up <? v)%float = false -> w = v).
Proof.
  simpl. destruct (v <? lo)%float eqn:E1.
  - destruct (up <? lo)%float eqn:E2; repeat split;
      auto using ltb_irrefl_any; done.
  - destruct (up <? v)%float eqn:E2; repeat split;
      auto using ltb_irrefl_any; done.
Qed.

(** X7.  On a channel it processes, SigmaClipper asks [sigma_clip] for
    the two bounds of the channel's valid pixels; no valid pixel ends
    above the upper bound, none ends below the lower bound unless the
    bounds are crossed, and a pixel between the bounds is unchanged. *)
Theorem SigmaClipper_output_within_bounds
    (sigma_clip : list float -> float -> float -> outcome (float * float))
    (self : SigmaClipper.t) (data out : list (list (list float)))
    (c : nat) (ch : list (list float)) :
  SigmaClipper.chid self = (-1)%Z \/ SigmaClipper.chid self = Z.of_nat c ->
  SigmaClipper.call sigma_clip self (Some data) = Ret (Some out) ->
  data !! c = Some ch ->
  exists lo up,
    sigma_clip (Np.select ch (Np.valid2d ch))
      (SigmaClipper.sigma_low self) (SigmaClipper.sigma_up self)
    = Ret (lo, up)
    /\ forall y x v, Np.pix2 ch y x = Some v -> is_valid v = true ->
         exists w, Np.pix out y x c = Some w
           /\ (up <? w)%float = false
           /\ ((up <? lo)%float = false -> (w <? lo)%float = false)
           /\ ((v <? lo)%float = false -> (up <? v)%float = false -> w = v).
Proof.
  intros Hsel Hrun Hch. unfold SigmaClipper.call in Hrun.
  eapply for_range_channel in Hrun as (a & a' & Hla & _ & Hb & Hout);
    [| |by eapply lookup_lt_Some].
  2: { intros i b b' Hb. inv_outcome Hb; injection Hb as <-;
         first [apply set_chan_own | done]. }
  rewrite (chid_gate_open _ _ Hsel) in Hb. unfold Np.get_chan in Hb.
  rewrite Hch in Hb. simpl in Hb. unfold SigmaClipper.clip in Hb.
  destruct (sigma_clip _ _ _) as [[lo up]|] eqn:Hsc; [|done].
  simpl in Hb. injection Hb as <-. exists lo, up. split; [done|].
  intros y x v Hp Hv. eexists. split.
  - unfold Np.pix. rewrite Hout. unfold Np.set_chan.
    rewrite list_lookup_insert_eq by (apply lookup_lt_Some in Hch; lia).
    simpl. rewrite pix2_assign_unless, pix2_valid2d, !pix2_map2d, Hp. simpl.
    rewrite Hv. reflexivity.
  - apply clip_within_bounds.
Qed.

Lemma SigmaClipper_bounds_witness :
  exists out,
    SigmaClipper.call Example.no_clipping Example.clipper
      (Some Example.mixed) = Ret (Some out)
    /\ exists lo up,
         Example.no_clipping
           (Np.select [[1; nan]; [0; 4]]%float
              (Np.valid2d [[1; nan]; [0; 4]]%float))
           (SigmaClipper.sigma_low Example.clipper)
           (SigmaClipper.sigma_up Example.clipper)
         = Ret (lo, up)
         /\ forall y x v,
              Np.pix2 [[1; nan]; [0; 4]]%float y x = Some v ->
              is_valid v = true ->
              exists w, Np.pix out y x 0 = Some w
                /\ (up <? w)%float = false
                /\ ((up <? lo)%float = false -> (w <? lo)%float = false)
                /\ ((v <? lo)%float = false -> (up <? v)%float = false ->
                    w = v).
Proof.
  eexists.
  refine ((fun E => conj E
             (SigmaClipper_output_within_bounds Example.no_clipping
                Example.clipper Example.mixed _ 0 [[1; nan]; [0; 4]]%float
                (or_introl eq_refl) E eq_refl)) _).
  vm_compute. reflexivity.
Defined.

(** ** The channel gate *)

(** X8.  A stage restricted by [chid] leaves the channels it skips as
    they are: MinShifter and SigmaClipper every channel but [chid],
    LogStretcher the channel [chid] itself. *)
Theorem chid_gate_leaves_skipped_channels (data out : list (list (list float)))
    (c : nat) :
  (forall self,
     MinShifter.chid self <> (-1)%Z ->
     MinShifter.chid self <> Z.of_nat c ->
     MinShifter.call self (Some data) = Ret (Some out) ->
     out !! c = data !! c)
  /\ (forall sigma_clip self,
        SigmaClipper.chid self <> (-1)%Z ->
        SigmaClipper.chid self <> Z.of_nat c ->
        SigmaClipper.call sigma_clip self (Some data) = Ret (Some out) ->
        out !! c = data !! c)
  /\ (forall log10 uninit self,
        LogStretcher.chid self <> (-1)%Z ->
        LogStretcher.chid self = Z.of_nat c ->
        LogStretcher.call log10 uninit self (Some data) = Ret (Some out) ->
        out !! c = data !! c).
Proof.
  assert (forall body,
            writes_own_channel body ->
            (forall a, body c a = Ret (Some a)) ->
            for_range (seq 0 (Np.nchans data)) body data = Ret (Some out) ->
            out !! c = data !! c) as Hskip.
  { intros body Hown Hc Hrun. destruct (decide (c < Np.nchans data)) as [Hlt|Hge].
    - eapply for_range_channel in Hrun as (a & a' & _ & Hfr & Hb & Hout);
        [|exact Hown|exact Hlt].
      rewrite Hc in Hb. injection Hb as <-. rewrite Hout. by apply Hfr.
    - apply for_range_frame in Hrun as [_ Hfr]; [|exact Hown].
      apply Hfr. unfold Np.nchans in *. lia. }
  split; [|split].
  - intros self H1 H2 Hrun. unfold MinShifter.call in Hrun.
    eapply Hskip; [apply MinShifter_body_own| |exact Hrun].
    intros a. simpl. by rewrite chid_gate_closed.
  - intros sc self H1 H2 Hrun. unfold SigmaClipper.call in Hrun.
    eapply Hskip; [| |exact Hrun].
    + intros i b b' Hb. inv_outcome Hb; injection Hb as <-;
        first [apply set_chan_own | done].
    + intros a. simpl. by rewrite chid_gate_closed.
  - intros log10 uninit self H1 H2 Hrun. unfold LogStretcher.call in Hrun.
    eapply Hskip; [| |exact Hrun].
    + intros i b b' Hb. inv_outcome Hb; injection Hb as <-;
        first [apply set_chan_own | done].
    + intros a. simpl. rewrite H2, Z.eqb_refl.
      destruct (Z.of_nat c =? -1)%Z eqn:E; [|done].
      apply Z.eqb_eq in E. lia.
Qed.

Lemma chid_gate_witness :
  exists out,
    MinShifter.call {| MinShifter.chid := 1 |} (Some Example.mixed)
      = Ret (Some out)
    /\ out !! 0 = Example.mixed !! 0.
Proof.
  eexists.
  refine ((fun E => conj E
             (proj1 (chid_gate_leaves_skipped_channels Example.mixed _ 0)
                {| MinShifter.chid := 1 |} _ _ E)) _);
    [vm_compute; discriminate|vm_compute; discriminate|].
  vm_compute. reflexivity.
Defined.

(** ** ChanDivider *)

Lemma is_valid_eqb_zero v : is_valid v = true -> (v =? 0)%float = false.
Proof. unfold is_valid. by destruct (v =? 0)%float. Qed.

Lemma for_range_total body rng n : forall acc,
  (forall i a, i ∈ rng -> length a = n ->
     exists a', body i a = Ret (Some a') /\ length a' = n) ->
  length acc = n ->
  exists out, for_range rng body acc = Ret (Some out) /\ length out = n.
Proof.
  induction rng as [|i rng IH]; intros acc Hb Hacc; simpl; [eauto|].
  destruct (Hb i acc) as (a' & -> & Ha'); [apply elem_of_cons; by left|done|].
  apply IH; [|done]. intros j a Hj. apply Hb. apply elem_of_cons. by right.
Qed.

Lemma index_Ret_iff n i :
  (exists k, Np.index n i = Ret k) <-> (- Z.of_nat n <= i < Z.of_nat n)%Z.
Proof.
  unfold Np.index.
  destruct ((0 <=? i)%Z && (i <? Z.of_nat n)%Z) eqn:E1;
    [split; [lia|eauto]|].
  destruct ((- Z.of_nat n <=? i)%Z && (i <? 0)%Z) eqn:E2;
    [split; [lia|eauto]|].
  split; [by intros [k ?]|lia].
Qed.

Lemma index_Raise n i e : Np.index n i = Raise e -> e = IndexError.
Proof.
  unfold Np.index.
  destruct ((0 <=? i)%Z && (i <? Z.of_nat n)%Z); [done|].
  destruct ((- Z.of_nat n <=? i)%Z && (i <? 0)%Z); [done|].
  intros H. by injection H.
Qed.

(** X9.  Without the logarithm, ChanDivider gives at every pixel the
    ratio to the reference pixel when both are valid and 0 otherwise;
    the channel whose number equals [chref] keeps its valid pixels.  A
    negative [chref] selects the reference channel but equals no channel
    number, so that channel is divided by itself like the others. *)
Theorem ChanDivider_ratio (log10 : float -> float) (self : ChanDivider.t)
    (data out : list (list (list float))) (ny nx y x c iref : nat)
    (v r : float) :
  Np.has_shape3d ny nx data = true ->
  ChanDivider.logtransf self = false ->
  ChanDivider.call log10 self (Some data) = Ret (Some out) ->
  Np.index (Np.nchans data) (ChanDivider.chref self) = Ret iref ->
  Np.pix data y x c = Some v ->
  Np.pix data y x iref = Some r ->
  Np.pix out y x c
  = Some (if (Z.of_nat c =? ChanDivider.chref self)%Z
          then (if is_valid v then v else 0%float)
          else if is_valid v && is_valid r then (v / r)%float
               else 0%float).
Proof.
  unfold ChanDivider.call. intros Hshape Hlog Hrun Hidx Hpix Hpr.
  destruct (pix_inv _ _ _ _ _ Hpix) as (ch & Hch & Hp2 & Hc).
  destruct (pix_inv _ _ _ _ _ Hpr) as (data_ref & Href & Hr2 & _).
  simpl in Hrun. unfold mbind, outcome_bind in Hrun.
  rewrite Hidx in Hrun. unfold Np.get_chan in Hrun at 1.
  rewrite Href, Hlog in Hrun.
  match type of Hrun with
  | context [for_range ?l ?b ?a] =>
      destruct (for_range l b a) as [[dn1|]|] eqn:Hloop; try discriminate
  end.
  inv_outcome Hrun. injection Hrun as <-.
  eapply for_range_channel in Hloop as (a & a' & Hla & Hfr & Hb & Hout);
    [|apply ChanDivider_body_own|exact Hc].
  assert (Np.pix dn1 y x c
          = Some (if (Z.of_nat c =? ChanDivider.chref self)%Z then v
                  else if is_valid r then (v / r)%float else 0%float)) as Hw.
  { unfold Np.pix. rewrite Hout.
    destruct (Z.of_nat c =? ChanDivider.chref self)%Z eqn:Eref.
    - injection Hb as <-. unfold Np.set_chan.
      rewrite list_lookup_insert_eq by lia. simpl.
      apply Z.eqb_eq in Eref. rewrite <- Eref in Hidx.
      apply index_nonneg in Hidx as ->. rewrite Hch in Href.
      injection Href as <-. done.
    - inv_outcome Hb. injection Hb as <-.
      match goal with H : Np.get_chan _ _ = Ret _ |- _ =>
        apply get_chan_Ret in H; rewrite Hfr, Hch in H by lia;
        injection H as <- end.
      unfold Np.set_chan. rewrite list_lookup_insert_eq by lia. simpl.
      rewrite pix2_assign_unless, pix2_valid2d, pix2_zip2d, pix2_map2d,
        Hp2, Hr2. simpl.
      destruct (is_valid r) eqn:Hvr; [|done].
      by rewrite (is_valid_eqb_zero _ Hvr). }
  erewrite pix_restore3d by done.
  destruct (Z.of_nat c =? ChanDivider.chref self)%Z; [done|].
  by destruct (is_valid v), (is_valid r).
Qed.

Lemma ChanDivider_ratio_witness :
  exists out,
    ChanDivider.call Example.log10_table Example.divider
      (Some Example.ratio_scene_bad_ref) = Ret (Some out)
    /\ Np.pix out 0 0 1 = Some 2%float
    /\ Np.pix out 0 1 1 = Some 0%float.
Proof.
  eexists.
  refine ((fun E => conj E (conj
             (ChanDivider_ratio Example.log10_table Example.divider
                Example.ratio_scene_bad_ref _ 1 3 0 0 1 0 10%float 5%float
                eq_refl eq_refl E eq_refl eq_refl eq_refl)
             (ChanDivider_ratio Example.log10_table Example.divider
                Example.ratio_scene_bad_ref _ 1 3 0 1 1 0 7%float 0%float
                eq_refl eq_refl E eq_refl eq_refl eq_refl))) _).
  vm_compute. reflexivity.
Defined.

(** X10.  How a call of ChanDivider on an array ends: with [IndexError]
    when [chref] is no index of a channel, otherwise with [NameError]
    when [strip_chref] is set, otherwise with an array of as many
    channels as the input.  It never returns [None]. *)
Theorem ChanDivider_outcome (log10 : float -> float) (self : ChanDivider.t)
    (data : list (list (list float))) :
  let n := Z.of_nat (Np.nchans data) in
  ((ChanDivider.chref self < - n \/ n <= ChanDivider.chref self)%Z ->
   ChanDivider.call log10 self (Some data) = Raise IndexError)
  /\ ((- n <= ChanDivider.chref self < n)%Z ->
      ChanDivider.strip_chref self = true ->
      ChanDivider.call log10 self (Some data) = Raise NameError)
  /\ ((- n <= ChanDivider.chref self < n)%Z ->
      ChanDivider.strip_chref self = false ->
      exists out,
        ChanDivider.call log10 self (Some data) = Ret (Some out)
        /\ Np.nchans out = Np.nchans data).
Proof.
  intros n. unfold ChanDivider.call. simpl. unfold mbind, outcome_bind.
  destruct (Np.index (Np.nchans data) (ChanDivider.chref self))
    as [iref|e] eqn:Hi.
  2: { assert (~ (- n <= ChanDivider.chref self < n)%Z) as Hout.
       { intros Hr. apply index_Ret_iff in Hr as [k Hk]. congruence. }
       rewrite (index_Raise _ _ _ Hi). repeat split; [done|intros; lia..]. }
  assert (- n <= ChanDivider.chref self < n)%Z as Hr
    by (apply index_Ret_iff; eauto).
  pose proof (index_lt _ _ _ Hi) as Hlt.
  destruct (lookup_lt_is_Some_2 data iref Hlt) as [data_ref Href].
  apply get_chan_Ret in Href. rewrite Href.
  match goal with |- context [for_range ?l ?b ?a] =>
    destruct (for_range_total b l (Np.nchans data) a) as (dn1 & Hl & Hlen);
      [|done|rewrite Hl]
  end.
  { intros i a Hi' Ha. apply elem_of_seq in Hi' as [_ Hi'].
    destruct (Z.of_nat i =? ChanDivider.chref self)%Z.
    - eexists. split; [done|]. unfold Np.set_chan. by rewrite length_insert.
    - destruct (lookup_lt_is_Some_2 a i) as [ch Hch]; [lia|].
      unfold Np.get_chan. rewrite Hch. eexists. split; [done|].
      unfold Np.set_chan. by rewrite length_insert. }
  assert (length (Np.assign_unless3d (Np.valid3d data) 0%float dn1)
          = Np.nchans data) as Hlen2.
  { unfold Np.assign_unless3d, Np.valid3d, Np.map3d.
    rewrite length_zip_with, length_fmap, Hlen. unfold Np.nchans. lia. }
  destruct (lookup_lt_is_Some_2
              (Np.assign_unless3d (Np.valid3d data) 0%float dn1) iref)
    as [z Hz]; [by rewrite Hlen2|].
  apply get_chan_Ret in Hz. rewrite Hz.
  split; [intros [?|?]; subst n; unfold Np.nchans in *; lia|]. split; intros _ ->.
  - by destruct (ChanDivider.logtransf self).
  - destruct (ChanDivider.logtransf self); eexists; (split; [done|]);
      [|exact Hlen2].
    unfold Np.nchans, Np.set_chan. rewrite length_insert.
    unfold Np.assign_unless3d, Np.valid3d, Np.map3d in Hlen2.
    rewrite length_zip_with, length_fmap in Hlen2.
    destruct (ChanDivider.trim self);
      unfold Np.map3d, Np.assign_unless3d, Np.valid3d, Np.map3d;
      repeat first [rewrite length_fmap | rewrite length_zip_with];
      unfold Np.nchans in *; lia.
Qed.

(** ** ChanResizer *)

(** X11.  ChanResizer refuses a target outside 1..1000 with [None]; for
    a target in that range and below the number of channels it returns
    the first channels of the input, in order. *)
Theorem ChanResizer_shrinks_to_first_channels (k : Z)
    (data : list (list (list float))) :
  ((k <= 0 \/ 1000 < k)%Z ->
   ChanResizer.call {| ChanResizer.nchans := k |} (Some data) = Ret None)
  /\ ((0 < k < Z.of_nat (length data))%Z -> (k <= 1000)%Z ->
      ChanResizer.call {| ChanResizer.nchans := k |} (Some data)
      = Ret (Some (take (Z.to_nat k) data))).
Proof.
  unfold ChanResizer.call, ChanResizer.nchans_max. simpl. split.
  - intros Hk. assert ((1000 <? k)%Z || (k <=? 0)%Z = true) as -> by lia.
    done.
  - intros Hk Hmax.
    assert ((1000 <? k)%Z || (k <=? 0)%Z = false) as -> by lia.
    unfold Np.nchans.
    assert ((k =? Z.of_nat (length data))%Z = false) as -> by lia.
    assert ((Z.of_nat (length data) <? k)%Z = false) as -> by lia.
    destruct (for_range_fill (Np.get_chan data) (Z.to_nat k)
                (replicate (Z.to_nat k)
                   (replicate (Np.nrows (hd [] data))
                      (replicate (Np.ncols (hd [] data)) 0%float))))
      as (out & Hrun & Hlen & Hout).
    { by rewrite length_replicate. }
    { intros i Hi. destruct (lookup_lt_is_Some_2 data i) as [ch Hch]; [lia|].
      exists ch. by apply get_chan_Ret. }
    rewrite Hrun. do 2 f_equal. apply list_eq. intros i.
    destruct (decide (i < Z.to_nat k)) as [Hi|Hi].
    + rewrite lookup_take_lt by done.
      destruct (lookup_lt_is_Some_2 data i) as [ch Hch]; [lia|].
      rewrite Hch. apply Hout; [done|by apply get_chan_Ret].
    + rewrite lookup_take_ge by lia. apply lookup_ge_None. lia.
Qed.

(** ** The pipeline object *)

Section pipeline_object.

Import DataPreprocessor.

Context {W : Type}.

Lemma filter_no_augmenter (l : list (method W)) :
  existsb (fun f => isinstance (__self__ f) Class.Augmenter) l = false ->
  List.filter (fun f => negb (isinstance (__self__ f) Class.Augmenter)) l = l.
Proof.
  induction l as [|f l IH]; simpl; [done|].
  intros H. apply orb_false_elim in H as [-> H2]. simpl. by rewrite IH.
Qed.

Lemma existsb_filter_negb {A} (p : A -> bool) (l : list A) :
  existsb p (List.filter (fun f => negb (p f)) l) = false.
Proof.
  induction l as [|f l IH]; simpl; [done|].
  destruct (p f) eqn:E; simpl; [done|]. by rewrite E.
Qed.

(** X12.  [disable_augmentation] on any pipeline object, whether the
    call returns or composing the new pipeline raises.  In both cases
    the methods left in [self.fcns] are those of the stages that are no
    [Augmenter], in their order.  An object without augmenter is left
    as it is, its pipeline not composed again.  When composing raises,
    [self.fcns] is already replaced and [self.pipeline] is still the
    old one.  A second call returns and changes nothing. *)
Theorem disable_augmentation_idempotent
    (cf : list (callable W) -> outcome (callable W)) (self self' : t W)
    (r : outcome unit) :
  disable_augmentation_in_place cf self = (r, self') ->
  fcns self'
  = List.filter (fun f => negb (isinstance (__self__ f) Class.Augmenter))
      (fcns self)
  /\ (existsb (fun f => isinstance (__self__ f) Class.Augmenter) (fcns self)
      = false -> r = Ret () /\ self' = self)
  /\ (forall e, r = Raise e ->
        existsb (fun f => isinstance (__self__ f) Class.Augmenter)
          (fcns self) = true
        /\ cf (invoke <$> fcns self') = Raise e
        /\ pipeline self' = pipeline self)
  /\ disable_augmentation cf self
     = match r with
       | Ret _ => Ret self'
       | Raise e => Raise e
       end
  /\ disable_augmentation_in_place cf self' = (Ret (), self').
Proof.
  unfold disable_augmentation_in_place, disable_augmentation.
  rewrite !drop_augmenters_loop. simpl. intros Hrun.
  destruct (existsb _ (fcns self)) eqn:Hany.
  - destruct (cf (invoke <$> List.filter
                    (fun f => negb (isinstance (__self__ f) Class.Augmenter))
                    (fcns self))) as [p|e] eqn:Hcf;
      injection Hrun as <- <-; simpl; rewrite existsb_filter_negb.
    + repeat split; done.
    + split; [done|]. split; [done|]. split; [|done].
      intros e' He. injection He as <-. done.
  - injection Hrun as <- <-. rewrite Hany.
    split; [by rewrite filter_no_augmenter|]. repeat split; done.
Qed.

End pipeline_object.

(** A pipeline whose only stage is an augmenter, and a compose function
    that refuses an empty list: the call raises with [self.fcns] already
    emptied and the old pipeline still in place. *)
Lemma disable_augmentation_idempotent_witness :
  DataPreprocessor.disable_augmentation_in_place
    (fun l : list (callable nat) =>
       match l with [] => Raise ValueError | _ => Utils.compose_fcns l end)
    {| DataPreprocessor.fcns :=
         [ {| DataPreprocessor.__self__ := Example.augmenter |} ];
       DataPreprocessor.pipeline :=
         DataPreprocessor.__call__ Example.augmenter |}
  = (Raise ValueError,
     {| DataPreprocessor.fcns := [];
        DataPreprocessor.pipeline :=
          DataPreprocessor.__call__ Example.augmenter |})
  /\ DataPreprocessor.disable_augmentation_in_place
       (fun l : list (callable nat) =>
          match l with [] => Raise ValueError | _ => Utils.compose_fcns l end)
       {| DataPreprocessor.fcns := [];
          DataPreprocessor.pipeline :=
            DataPreprocessor.__call__ Example.augmenter |}
     = (Ret (),
        {| DataPreprocessor.fcns := [];
           DataPreprocessor.pipeline :=
             DataPreprocessor.__call__ Example.augmenter |}).
Proof.
  refine ((fun E =>
             conj E
               (match disable_augmentation_idempotent _ _ _ _ E with
                | conj _ (conj _ (conj _ (conj _ H5))) => H5
                end)) _).
  vm_compute. reflexivity.
Defined.

(** ** What the two maskers leave alone *)

Section maskers.

Implicit Types (h : gmap nat (list (list (list float)))).

Lemma mask_loop_frame l l' maskf n : forall h h' t r,
  l <> l' -> h !! l = Some t -> h !! l' = Some r ->
  length r = length t ->
  Mem.for_each (seq 0 n) (mask_channel l l' maskf) h = (Ret (), h') ->
  forall k, k <> l -> k <> l' -> h' !! k = h !! k.
Proof.
  induction n as [|n IH]; intros h h' t r Hne Hl Hl' Hlen Hrun k Hk Hk'.
  - simpl in Hrun. by injection Hrun as <-.
  - rewrite seq_S, for_each_app in Hrun. simpl in Hrun.
    apply M_bind_inv in Hrun as ([] & h1 & Hfirst & Hrun).
    destruct (mask_loop_spec _ _ _ _ _ _ _ _ Hne Hl Hl' Hlen Hfirst)
      as (t1 & r1 & Ht1 & Hr1 & _).
    apply M_bind_inv in Hrun as ([] & h2 & Hstep & Hrun).
    simpl in Hrun. injection Hrun as <-.
    destruct (mask_channel_inv _ _ _ _ _ _ _ _ Hne Ht1 Hr1 Hstep)
      as (ch & m & _ & _ & ->).
    rewrite !lookup_insert_ne by done.
    by apply (IH _ _ _ _ Hne Hl Hl' Hlen Hfirst).
Qed.

(** A copy, then the loop: what the returned array holds, and that no
    other object is touched. *)
Lemma copy_and_mask_frame maskf l ret h h1 h' t :
  h !! l = Some t ->
  Mem.np_copy l h = (Ret ret, h1) ->
  Mem.for_each (seq 0 (length t)) (mask_channel l ret maskf) h1
    = (Ret (), h') ->
  forall k, k <> l -> k <> ret -> h' !! k = h !! k.
Proof.
  intros Hl Hcopy Hloop k Hk Hk'.
  apply np_copy_inv in Hcopy as (t0 & Ht0 & Hne & ->).
  rewrite Hl in Ht0. injection Ht0 as <-.
  rewrite (mask_loop_frame l ret maskf (length t) (<[ret:=t]> h) h' t t);
    [by rewrite lookup_insert_ne|done|by rewrite lookup_insert_ne
    |by rewrite lookup_insert_eq|done|done|done|done].
Qed.

Lemma BorderMasker_call_inv self data h t ret h' :
  h !! data = Some t ->
  BorderMasker.call self (Some data) h = (Ret (Some ret), h') ->
  exists h1,
    Mem.np_copy data h = (Ret ret, h1)
    /\ Mem.for_each (seq 0 (length t))
         (mask_channel data ret (border_mask self)) h1 = (Ret (), h').
Proof.
  intros Hl Hrun. unfold BorderMasker.call in Hrun.
  apply M_bind_inv in Hrun as (ret0 & h1 & Hcopy & Hrun).
  apply M_bind_inv in Hrun as (shape & h2 & Hd & Hrun).
  pose proof Hcopy as Hcopy'.
  apply np_copy_inv in Hcopy' as (t0 & Ht0 & Hne & Hh1).
  rewrite Hl in Ht0. injection Ht0 as <-.
  apply deref_inv in Hd as [Hshape ->]. subst h1.
  rewrite lookup_insert_ne in Hshape by done.
  rewrite Hl in Hshape. injection Hshape as <-.
  apply M_bind_inv in Hrun as ([] & h3 & Hloop & Hrun).
  simpl in Hrun. injection Hrun as <- <-.
  erewrite for_each_ext in Hloop by (intros; apply BorderMasker_loop_body).
  eauto.
Qed.

Lemma MaskShrinker_call_inv {kernel : Type} gse
    (erode : list (list bool) -> kernel -> outcome (nat -> nat -> bool))
    self data h t ret h' :
  h !! data = Some t ->
  MaskShrinker.call kernel gse erode self (Some data) h
    = (Ret (Some ret), h') ->
  exists structel h1,
    gse (MaskShrinker.kernsize self) = Ret structel
    /\ Mem.np_copy data h = (Ret ret, h1)
    /\ Mem.for_each (seq 0 (length t))
         (mask_channel data ret (eroded_mask erode structel)) h1
       = (Ret (), h').
Proof.
  intros Hl Hrun. unfold MaskShrinker.call in Hrun.
  apply M_bind_inv in Hrun as (structel & h0 & Hk & Hrun).
  apply lift_inv in Hk as [Hk ->].
  apply M_bind_inv in Hrun as (ret0 & h1 & Hcopy & Hrun).
  apply M_bind_inv in Hrun as (shape & h2 & Hd & Hrun).
  pose proof Hcopy as Hcopy'.
  apply np_copy_inv in Hcopy' as (t0 & Ht0 & Hne & Hh1).
  rewrite Hl in Ht0. injection Ht0 as <-.
  apply deref_inv in Hd as [Hshape ->]. subst h1.
  rewrite lookup_insert_ne in Hshape by done.
  rewrite Hl in Hshape. injection Hshape as <-.
  apply M_bind_inv in Hrun as ([] & h3 & Hloop & Hrun).
  simpl in Hrun. injection Hrun as <- <-.
  erewrite for_each_ext in Hloop by (intros; apply MaskShrinker_loop_body).
  eauto 10.
Qed.

(** X13.  What a call of BorderMasker or MaskShrinker that returns
    leaves alone: every other array of the memory, and every pixel
    inside the box (BorderMasker) or kept by the eroded mask
    (MaskShrinker), which holds its input value, valid or not.
    BorderMasker returns only when every channel has a valid pixel. *)
Theorem maskers_keep_unmasked_pixels (h : gmap nat (list (list (list float))))
    (data : nat) (t : list (list (list float))) :
  h !! data = Some t ->
  (forall self ret h',
     BorderMasker.call self (Some data) h = (Ret (Some ret), h') ->
     (forall k, k <> data -> k <> ret -> h' !! k = h !! k)
     /\ exists t', h' !! ret = Some t' /\
          forall c ch, t !! c = Some ch ->
            (exists y x v, Np.pix2 ch y x = Some v /\ is_valid v = true)
            /\ forall outside y x v,
                 BorderMasker.outside self (Np.nrows ch) (Np.ncols ch)
                   = Ret outside ->
                 Np.pix2 ch y x = Some v ->
                 Np.pix2 outside y x = Some false ->
                 Np.pix t' y x c = Some v)
  /\ (forall (kernel : Type) getStructuringElement
        (erode : list (list bool) -> kernel -> outcome (nat -> nat -> bool))
        self ret h',
        MaskShrinker.call kernel getStructuringElement erode self
          (Some data) h = (Ret (Some ret), h') ->
        (forall k, k <> data -> k <> ret -> h' !! k = h !! k)
        /\ exists t' structel,
             getStructuringElement (MaskShrinker.kernsize self)
               = Ret structel
             /\ h' !! ret = Some t' /\
             forall c ch mask_eroded y x v,
               t !! c = Some ch ->
               erode (Np.valid2d ch) structel = Ret mask_eroded ->
               Np.pix2 ch y x = Some v ->
               mask_eroded y x = true ->
               Np.pix t' y x c = Some v).
Proof.
  intros Hl. split.
  - intros self ret h' Hrun.
    destruct (BorderMasker_call_inv _ _ _ _ _ _ Hl Hrun)
      as (h1 & Hcopy & Hloop).
    split; [by eapply copy_and_mask_frame|].
    destruct (copy_and_mask_spec _ _ _ _ _ _ _ Hl Hcopy Hloop)
      as (Hret & t' & Ht' & Hr' & Hch).
    exists t'. split; [done|]. intros c ch Hc.
    destruct (Hch c ch Hc) as (m & Hm & Hx).
    unfold border_mask in Hm. simpl in Hm. unfold mbind, outcome_bind in Hm.
    destruct (Np.min (Np.select ch (Np.valid2d ch))) as [mn|] eqn:Hmin;
      [|done].
    split.
    + destruct (np_min_spec _ _ (select_valid_Forall ch) Hmin) as [Hin _].
      apply select_valid_spec in Hin as (y & x & Hp & Hv). eauto.
    + intros outside y x v Ho Hv Hin. rewrite Ho in Hm. injection Hm as <-.
      unfold Np.pix. rewrite Hx. simpl.
      by rewrite pix2_assign_where, Hin, Hv.
  - intros kernel gse erode self ret h' Hrun.
    destruct (MaskShrinker_call_inv _ _ _ _ _ _ _ _ Hl Hrun)
      as (structel & h1 & Hk & Hcopy & Hloop).
    split; [by eapply copy_and_mask_frame|].
    destruct (copy_and_mask_spec _ _ _ _ _ _ _ Hl Hcopy Hloop)
      as (Hret & t' & Ht' & Hr' & Hch).
    exists t', structel. repeat split; [done..|].
    intros c ch mask_eroded y x v Hc He Hv Hkeep.
    destruct (Hch c ch Hc) as (m & Hm & Hx).
    unfold eroded_mask in Hm. rewrite He in Hm. simpl in Hm.
    injection Hm as <-. unfold Np.pix. rewrite Hx. simpl.
    rewrite pix2_assign_where, pix2_imap2d, pix2_valid2d, Hv. simpl.
    by rewrite Hkeep.
Qed.

End maskers.

Lemma maskers_keep_unmasked_witness :
  exists ret h',
    BorderMasker.call {| BorderMasker.mask_fract := 0.5 |} (Some 0)
      Example.heap0 = (Ret (Some ret), h')
    /\ exists t', h' !! ret = Some t'
                  /\ Np.pix t' 1 1 0 = Some 6%float.
Proof.
  destruct (maskers_keep_unmasked_pixels Example.heap0 0 Example.board
              eq_refl) as [HB _].
  eexists _, _. split; [vm_compute; reflexivity|].
  match goal with
  | |- exists t', ?hh !! ?r = _ /\ _ =>
      assert (BorderMasker.call {| BorderMasker.mask_fract := 0.5 |}
                (Some 0) Example.heap0 = (Ret (Some r), hh)) as E
        by (vm_compute; reflexivity)
  end.
  destruct (HB _ _ _ E) as (_ & t' & Hr' & Hch).
  exists t'. split; [exact Hr'|].
  destruct (Hch 0 _ eq_refl) as (_ & Hpix).
  eapply (Hpix _ 1 1 6%float); [vm_compute; reflexivity|reflexivity|].
  reflexivity.
Defined.

(** ** NegativeDataFixer *)

(** A valid number is above zero exactly when its sign bit is clear. *)
Lemma ltb_zero_finite v s m e :
  Prim2SF v = S754_finite s m e -> (0 <? v)%float = negb s.
Proof.
  intros Hv. rewrite ltb_spec, Hv, Prim2SF_zero. by destruct s.
Qed.

(** Nothing that is not below a positive number is negative. *)
Lemma positive_below a b :
  is_valid a = true -> is_valid b = true ->
  (0 <? a)%float = true -> (b <? a)%float = false -> (0 <? b)%float = true.
Proof.
  intros Ha Hb Hpos Hle.
  destruct (ltb_total a b Ha Hb) as [Hlt|[->|Hlt]]; [|done|congruence].
  apply (ltb_valid a b Ha Hb) in Hlt.
  apply is_valid_spec in Ha as (sa & ma & ea & Ha).
  apply is_valid_spec in Hb as (sb & mb & eb & Hb).
  rewrite (ltb_zero_finite _ _ _ _ Ha) in Hpos.
  rewrite (ltb_zero_finite _ _ _ _ Hb). rewrite Ha, Hb in Hlt. simpl in Hlt.
  destruct sa, sb; done.
Qed.

Lemma NegativeDataFixer_body_own data :
  writes_own_channel (fun i data_shifted =>
    data_ch ← Np.get_chan data i;
    let cond := Np.valid2d data_ch in
    let data_ch_1d := Np.select data_ch cond in
    data_ch_min ← Np.min data_ch_1d;
    data_ch_max ← Np.max data_ch_1d;
    if (0 <? data_ch_max)%float then Ret (Some data_shifted) else
    let data_ch_shifted :=
      Np.map2d (fun v => v - data_ch_min)%float data_ch in
    let data_ch_shifted :=
      Np.assign_unless cond 0%float data_ch_shifted in
    Ret (Some (Np.set_chan i data_ch_shifted data_shifted))).
Proof.
  intros i a a' Hb. inv_outcome Hb; injection Hb as <-;
    first [apply set_chan_own | done].
Qed.

(** X14.  NegativeDataFixer leaves a channel with a valid pixel above
    zero exactly as it is, invalid pixels included; a channel whose
    valid pixels are all negative is shifted by its smallest valid
    pixel, with 0 at the invalid pixels and at the minimum. *)
Theorem NegativeDataFixer_shifts_negative_channels
    (data out : list (list (list float))) (c : nat)
    (ch : list (list float)) :
  NegativeDataFixer.call (Some data) = Ret (Some out) ->
  data !! c = Some ch ->
  ((exists y x v, Np.pix2 ch y x = Some v /\ is_valid v = true
                  /\ (0 <? v)%float = true) ->
   out !! c = Some ch)
  /\ ((forall y x v, Np.pix2 ch y x = Some v -> is_valid v = true ->
         (0 <? v)%float = false) ->
      exists mn y0 x0,
        Np.pix2 ch y0 x0 = Some mn /\ is_valid mn = true
        /\ (forall y x v, Np.pix2 ch y x = Some v -> is_valid v = true ->
              (v <? mn)%float = false)
        /\ (forall y x v, Np.pix2 ch y x = Some v ->
              Np.pix out y x c
              = Some (if is_valid v then (v - mn)%float else 0%float))
        /\ Np.pix out y0 x0 c = Some 0%float).
Proof.
  intros Hrun Hch. unfold NegativeDataFixer.call in Hrun.
  pose proof (lookup_lt_Some _ _ _ Hch) as Hc.
  eapply for_range_channel in Hrun as (a & a' & Hla & Hfr & Hb & Hout);
    [|apply NegativeDataFixer_body_own|exact Hc].
  unfold Np.get_chan in Hb. rewrite Hch in Hb. simpl in Hb.
  destruct (Np.min (Np.select ch (Np.valid2d ch))) as [mn|] eqn:Hmin;
    [|done].
  simpl in Hb.
  destruct (Np.max (Np.select ch (Np.valid2d ch))) as [mx|] eqn:Hmax;
    [|done].
  simpl in Hb.
  destruct (np_min_spec _ _ (select_valid_Forall ch) Hmin) as [Hin Hle].
  destruct (np_max_spec _ _ (select_valid_Forall ch) Hmax) as [Hinx Hge].
  apply select_valid_spec in Hin as (y0 & x0 & Hp0 & Hv0).
  apply select_valid_spec in Hinx as (y1 & x1 & Hp1 & Hv1).
  split.
  - intros (y & x & v & Hp & Hv & Hpos).
    assert ((0 <? mx)%float = true) as Hmx.
    { apply (positive_below v mx Hv Hv1 Hpos). apply Hge.
      apply select_valid_spec. eauto. }
    rewrite Hmx in Hb. injection Hb as <-. rewrite Hout.
    rewrite Hfr by lia. done.
  - intros Hneg. rewrite (Hneg _ _ _ Hp1 Hv1) in Hb. injection Hb as <-.
    assert (forall y x v, Np.pix2 ch y x = Some v ->
              Np.pix out y x c
              = Some (if is_valid v then (v - mn)%float else 0%float))
      as Hpix.
    { intros y x v Hp. unfold Np.pix. rewrite Hout. unfold Np.set_chan.
      rewrite list_lookup_insert_eq by lia.
      simpl. rewrite pix2_restore, Hp. done. }
    exists mn, y0, x0. repeat split; [done|done| |exact Hpix|].
    + intros y x v Hp Hv. apply Hle. apply select_valid_spec. eauto.
    + rewrite (Hpix _ _ _ Hp0), Hv0. f_equal.
      apply is_valid_spec in Hv0 as (s & m & e & Hf).
      apply float_eq_zero. by eapply sub_self.
Qed.

Lemma NegativeDataFixer_witness :
  exists out,
    NegativeDataFixer.call (Some [ [[-4; 0; -1]]; [[-2; 3; nan]] ]%float)
      = Ret (Some out)
    /\ out !! 0 = Some [[0; 0; 3]]%float
    /\ out !! 1 = Some [[-2; 3; nan]]%float.
Proof.
  exists [ [[0; 0; 3]]; [[-2; 3; nan]] ]%float.
  refine ((fun E => conj E (conj eq_refl
             (proj1 (NegativeDataFixer_shifts_negative_channels
                       [ [[-4; 0; -1]]; [[-2; 3; nan]] ]%float _ 1
                       [[-2; 3; nan]]%float E eq_refl)
                (ex_intro _ 0 (ex_intro _ 1 (ex_intro _ 3%float
                   (conj eq_refl (conj eq_refl eq_refl)))))))) _).
  vm_compute. reflexivity.
Defined.

(** X15.  NegativeDataFixer never returns [None] for an array and
    raises nothing but [ValueError]; it raises exactly when some channel
    has no valid pixel. *)
Theorem NegativeDataFixer_raises_iff_no_valid_pixel
    (data : list (list (list float))) :
  NegativeDataFixer.call (Some data) <> Ret None
  /\ (forall e, NegativeDataFixer.call (Some data) = Raise e
                -> e = ValueError)
  /\ (NegativeDataFixer.call (Some data) = Raise ValueError
      <-> exists c ch,
            data !! c = Some ch
            /\ forall y x v, Np.pix2 ch y x = Some v -> is_valid v = false).
Proof.
  unfold NegativeDataFixer.call.
  set (body := fun (i : nat) (data_shifted : list (list (list float))) => _).
  assert (for_range (seq 0 (Np.nchans data)) body data <> Ret None)
    as Hsome.
  { intros H. apply for_range_None_inv in H as (i & a & _ & Hb).
    unfold body in Hb. inv_outcome Hb; discriminate. }
  assert (forall e, for_range (seq 0 (Np.nchans data)) body data = Raise e ->
            e = ValueError /\
            exists c ch,
              data !! c = Some ch
              /\ forall y x v, Np.pix2 ch y x = Some v -> is_valid v = false)
    as Hraise.
  { intros e H. apply for_range_Raise_inv in H as (i & a & Hi & Hb).
    apply elem_of_seq in Hi as [_ Hi]. unfold body in Hb.
    destruct (lookup_lt_is_Some_2 data i) as [ch Hch]; [exact Hi|].
    unfold Np.get_chan in Hb. rewrite Hch in Hb. simpl in Hb.
    destruct (Np.select ch (Np.valid2d ch)) as [|v l] eqn:E.
    - simpl in Hb. injection Hb as <-. split; [done|]. exists i, ch.
      split; [done|by apply select_pred_nil].
    - simpl in Hb. by destruct (0 <? foldl fmax v l)%float. }
  split; [exact Hsome|]. split; [intros e He; by destruct (Hraise _ He)|].
  split.
  - intros H. by destruct (Hraise _ H).
  - intros (c & ch & Hch & Hnov).
    destruct (for_range (seq 0 (Np.nchans data)) body data)
      as [[out|]|e] eqn:Hrun; [|done|].
    + exfalso.
      eapply for_range_channel in Hrun as (a & a' & _ & _ & Hb & _);
        [|apply NegativeDataFixer_body_own|by eapply lookup_lt_Some].
      unfold body in Hb. unfold Np.get_chan in Hb.
      rewrite Hch in Hb. simpl in Hb. apply select_pred_nil in Hnov.
      unfold Np.valid2d in Hb. rewrite Hnov in Hb. done.
    + by destruct (Hraise e eq_refl) as [-> _].
Qed.

(** ** BkgSubtractor and SigmaClipShifter *)

Lemma np_min_Ret_nonempty (l : list float) m : Np.min l = Ret m -> l <> [].
Proof. by destruct l. Qed.

Lemma select_valid_nonempty (a : list (list float)) :
  Np.select a (Np.valid2d a) <> [] ->
  exists y x w, Np.pix2 a y x = Some w /\ is_valid w = true.
Proof.
  intros Hne. destruct (Np.select a (Np.valid2d a)) as [|w l] eqn:E; [done|].
  assert (w ∈ Np.select a (Np.valid2d a)) as Hin
    by (rewrite E; apply elem_of_cons; by left).
  apply select_valid_spec in Hin as (y & x & Hp & Hv). eauto.
Qed.

(** What [__subtract_bkg] returns, when it returns. *)
Lemma subtract_bkg_inv sigma_clipped_stats self (ch r : list (list float)) :
  BkgSubtractor.subtract_bkg sigma_clipped_stats self ch = Ret r ->
  exists bkgval,
    r = Np.assign_unless (Np.valid2d ch) 0%float
          (Np.map2d (fun v => v - bkgval)%float ch)
    /\ Np.select r (Np.valid2d r) <> []
    /\ (BkgSubtractor.use_mask_box self = false ->
        exists median stddev,
          sigma_clipped_stats (Np.select ch (Np.valid2d ch))
            (BkgSubtractor.sigma self)
          = Ret (bkgval, median, stddev)).
Proof.
  unfold BkgSubtractor.subtract_bkg. intros H.
  destruct (BkgSubtractor.use_mask_box self) eqn:Hbox.
  - inv_outcome H. injection H as <-.
    match goal with H : sigma_clipped_stats _ _ = Ret ?s |- _ =>
      exists (fst (fst s)) end.
    split; [done|]. split; [|done].
    match goal with H : Np.min (Np.select (Np.assign_unless _ _ _) _) = _
      |- _ => by apply np_min_Ret_nonempty in H end.
  - inv_outcome H. injection H as <-.
    match goal with H : sigma_clipped_stats _ _ = Ret ?s |- _ =>
      exists (fst (fst s)); rename H into Hs end.
    split; [done|]. split.
    + match goal with H : Np.min (Np.select (Np.assign_unless _ _ _) _) = _
        |- _ => by apply np_min_Ret_nonempty in H end.
    + intros _. rewrite ?Hs.
      match goal with |- context [Ret ?s = _] =>
        destruct s as [[b md] sd] end. simpl. eauto.
Qed.

Lemma BkgSubtractor_channel_inv sigma_clipped_stats self data out c ch :
  BkgSubtractor.chid self = (-1)%Z
  \/ BkgSubtractor.chid self = Z.of_nat c ->
  BkgSubtractor.call sigma_clipped_stats self (Some data) = Ret (Some out) ->
  data !! c = Some ch ->
  exists r, BkgSubtractor.subtract_bkg sigma_clipped_stats self ch = Ret r
            /\ out !! c = Some r.
Proof.
  intros Hsel Hrun Hch. unfold BkgSubtractor.call in Hrun.
  pose proof (lookup_lt_Some _ _ _ Hch) as Hc.
  eapply for_range_channel in Hrun as (a & a' & Hla & _ & Hb & Hout);
    [| |exact Hc].
  2: { intros i b b' Hb. inv_outcome Hb; injection Hb as <-;
         first [apply set_chan_own | done]. }
  rewrite (chid_gate_open _ _ Hsel) in Hb. unfold Np.get_chan in Hb.
  rewrite Hch in Hb. simpl in Hb.
  destruct (BkgSubtractor.subtract_bkg sigma_clipped_stats self ch)
    as [r|] eqn:Hr; [|done].
  simpl in Hb. injection Hb as <-. exists r. split; [done|].
  rewrite Hout. unfold Np.set_chan.
  by rewrite list_lookup_insert_eq by lia.
Qed.

(** X16.  On a channel it processes, BkgSubtractor subtracts one
    background value from every valid pixel and writes 0 at the invalid
    ones; it returns only if some pixel is still valid (not zero, finite)
    after the subtraction.  Without the mask box the background is the
    mean that [sigma_clipped_stats] gives for the channel's valid
    pixels. *)
Theorem BkgSubtractor_subtracts_background
    (sigma_clipped_stats :
       list float -> float -> outcome (float * float * float))
    (self : BkgSubtractor.t) (data out : list (list (list float)))
    (c : nat) (ch : list (list float)) :
  BkgSubtractor.chid self = (-1)%Z
  \/ BkgSubtractor.chid self = Z.of_nat c ->
  BkgSubtractor.call sigma_clipped_stats self (Some data) = Ret (Some out) ->
  data !! c = Some ch ->
  exists bkgval,
    (forall y x v, Np.pix2 ch y x = Some v ->
       Np.pix out y x c
       = Some (if is_valid v then (v - bkgval)%float else 0%float))
    /\ (exists y x v, Np.pix2 ch y x = Some v /\ is_valid v = true
                      /\ is_valid (v - bkgval) = true)
    /\ (BkgSubtractor.use_mask_box self = false ->
        exists median stddev,
          sigma_clipped_stats (Np.select ch (Np.valid2d ch))
            (BkgSubtractor.sigma self)
          = Ret (bkgval, median, stddev)).
Proof.
  intros Hsel Hrun Hch.
  destruct (BkgSubtractor_channel_inv _ _ _ _ _ _ Hsel Hrun Hch)
    as (r & Hr & Hout).
  apply subtract_bkg_inv in Hr as (bkgval & -> & Hne & Hstats).
  exists bkgval. split; [|split; [|exact Hstats]].
  - intros y x v Hp. unfold Np.pix. rewrite Hout. simpl.
    by rewrite pix2_restore, Hp.
  - apply select_valid_nonempty in Hne as (y & x & w & Hp & Hw).
    rewrite pix2_restore in Hp.
    destruct (Np.pix2 ch y x) as [v|] eqn:Hv; [|done].
    simpl in Hp. injection Hp as <-. exists y, x, v.
    destruct (is_valid v); [done|]. done.
Qed.

Lemma BkgSubtractor_witness :
  exists out bkgval,
    BkgSubtractor.call (fun a s => Ret (1, 1, 0)%float)
      {| BkgSubtractor.sigma := 3; BkgSubtractor.use_mask_box := false;
         BkgSubtractor.mask_fract := 0.7; BkgSubtractor.chid := -1 |}
      (Some Example.log_scene) = Ret (Some out)
    /\ (forall y x v,
          Np.pix2 [[0.01; 1]; [100; 0]]%float y x = Some v ->
          Np.pix out y x 0
          = Some (if is_valid v then (v - bkgval)%float else 0%float))
    /\ (exists y x v,
          Np.pix2 [[0.01; 1]; [100; 0]]%float y x = Some v
          /\ is_valid v = true /\ is_valid (v - bkgval) = true).
Proof.
  eexists.
  refine ((fun E =>
             match BkgSubtractor_subtracts_background
                     (fun a s => Ret (1, 1, 0)%float)
                     {| BkgSubtractor.sigma := 3;
                        BkgSubtractor.use_mask_box := false;
                        BkgSubtractor.mask_fract := 0.7;
                        BkgSubtractor.chid := -1 |}
                     Example.log_scene _ 0 [[0.01; 1]; [100; 0]]%float
                     (or_introl eq_refl) E eq_refl with
             | ex_intro _ b (conj H1 (conj H2 _)) =>
                 ex_intro _ b (conj E (conj H1 H2))
             end) _).
  vm_compute. reflexivity.
Defined.

(** X17.  BkgSubtractor does not return on a cube with a processed
    channel whose valid pixels all equal the background value found for
    it: the subtraction leaves no valid pixel, and the [min()] computed
    for the log message raises. *)
Theorem BkgSubtractor_raises_on_flat_channel
    (sigma_clipped_stats :
       list float -> float -> outcome (float * float * float))
    (self : BkgSubtractor.t) (data : list (list (list float)))
    (c : nat) (ch : list (list float)) (b median stddev : float) :
  BkgSubtractor.chid self = (-1)%Z
  \/ BkgSubtractor.chid self = Z.of_nat c ->
  BkgSubtractor.use_mask_box self = false ->
  data !! c = Some ch ->
  sigma_clipped_stats (Np.select ch (Np.valid2d ch))
    (BkgSubtractor.sigma self) = Ret (b, median, stddev) ->
  (forall y x v, Np.pix2 ch y x = Some v -> is_valid v = true -> v = b) ->
  exists e,
    BkgSubtractor.call sigma_clipped_stats self (Some data) = Raise e.
Proof.
  intros Hsel Hbox Hch Hstats Hflat.
  destruct (BkgSubtractor.call sigma_clipped_stats self (Some data))
    as [[out|]|e] eqn:Hrun; [| |eauto].
  - exfalso.
    destruct (BkgSubtractor_channel_inv _ _ _ _ _ _ Hsel Hrun Hch)
      as (r & Hr & Hout).
    apply subtract_bkg_inv in Hr as (bkgval & -> & Hne & Hst).
    destruct (Hst Hbox) as (md & sd & Hst'). rewrite Hstats in Hst'.
    apply (f_equal (fun o => match o with
                             | Ret s => Some (fst (fst s)) | _ => None
                             end)) in Hst'.
    simpl in Hst'. apply (inj Some) in Hst' as <-.
    apply select_valid_nonempty in Hne as (y & x & w & Hp & Hw).
    rewrite pix2_restore in Hp.
    destruct (Np.pix2 ch y x) as [v|] eqn:Hv; [|done].
    simpl in Hp. injection Hp as <-.
    destruct (is_valid v) eqn:Hvv; [|done].
    rewrite (Hflat _ _ _ Hv Hvv) in Hw.
    rewrite (Hflat _ _ _ Hv Hvv) in Hvv.
    apply is_valid_spec in Hvv as (s & m & e & Hf).
    rewrite (float_eq_zero _ (sub_self _ _ _ _ Hf)) in Hw. done.
  - exfalso. unfold BkgSubtractor.call in Hrun.
    apply for_range_None_inv in Hrun as (i & a & _ & Hb).
    inv_outcome Hb; discriminate.
Qed.

Lemma BkgSubtractor_flat_witness :
  exists e,
    BkgSubtractor.call (fun a s => Ret (5, 5, 0)%float)
      {| BkgSubtractor.sigma := 3; BkgSubtractor.use_mask_box := false;
         BkgSubtractor.mask_fract := 0.7; BkgSubtractor.chid := -1 |}
      (Some [ [[5; 0; 5]] ]%float) = Raise e.
Proof.
  apply (BkgSubtractor_raises_on_flat_channel
           (fun a s => Ret (5, 5, 0)%float)
           {| BkgSubtractor.sigma := 3; BkgSubtractor.use_mask_box := false;
              BkgSubtractor.mask_fract := 0.7; BkgSubtractor.chid := -1 |}
           [ [[5; 0; 5]] ]%float 0 [[5; 0; 5]]%float 5%float 5%float 0%float
           (or_introl eq_refl) eq_refl eq_refl eq_refl).
  intros y x v Hp Hv.
  destruct y as [|y]; [|by destruct y].
  destruct x as [|[|[|x]]]; simpl in Hp; try discriminate;
    apply (inj Some) in Hp as <-; try reflexivity.
  vm_compute in Hv. discriminate.
Defined.

(** X18.  On a channel it processes, SigmaClipShifter moves the zero to
    [mean + sigma * stddev] of [sigma_clipped_stats]: a valid pixel
    becomes its distance above the new zero, or 0 when it is below; an
    invalid pixel becomes 0.  No output pixel is negative, and the call
    returns only if some pixel is left above the new zero. *)
Theorem SigmaClipShifter_output_never_negative
    (sigma_clipped_stats :
       list float -> float -> outcome (float * float * float))
    (self : SigmaClipShifter.t) (data out : list (list (list float)))
    (c : nat) (ch : list (list float)) :
  SigmaClipShifter.chid self = (-1)%Z
  \/ SigmaClipShifter.chid self = Z.of_nat c ->
  SigmaClipShifter.call sigma_clipped_stats self (Some data)
    = Ret (Some out) ->
  data !! c = Some ch ->
  exists clipmean median stddev,
    sigma_clipped_stats (Np.select ch (Np.valid2d ch))
      (SigmaClipShifter.sigma self) = Ret (clipmean, median, stddev)
    /\ (forall y x v, Np.pix2 ch y x = Some v ->
          exists w,
            Np.pix out y x c = Some w
            /\ (w <? 0)%float = false
            /\ w = if is_valid v
                   then let d :=
                          (v - (clipmean
                                + SigmaClipShifter.sigma self * stddev))%float
                        in if (d <? 0)%float then 0%float else d
                   else 0%float)
    /\ exists y x w, Np.pix out y x c = Some w /\ is_valid w = true.
Proof.
  intros Hsel Hrun Hch. unfold SigmaClipShifter.call in Hrun.
  pose proof (lookup_lt_Some _ _ _ Hch) as Hc.
  eapply for_range_channel in Hrun as (a & a' & Hla & _ & Hb & Hout);
    [| |exact Hc].
  2: { intros i b b' Hb. inv_outcome Hb; injection Hb as <-;
         first [apply set_chan_own | done]. }
  rewrite (chid_gate_open _ _ Hsel) in Hb. unfold Np.get_chan in Hb.
  rewrite Hch in Hb. simpl in Hb. unfold SigmaClipShifter.clip in Hb.
  destruct (sigma_clipped_stats _ _) as [[[clipmean median] stddev]|]
    eqn:Hst; [|done].
  simpl in Hb. unfold mbind, outcome_bind in Hb.
  match type of Hb with context [Np.min ?l] =>
    destruct (Np.min l) as [mn|] eqn:Hmin; [|done];
    destruct (Np.max l) as [mx|] eqn:Hmax; [|done] end.
  injection Hb as <-.
  assert (forall y x, Np.pix out y x c
            = Np.pix2
                (Np.assign_unless (Np.valid2d ch) 0%float
                   (Np.map2d
                      (fun v => if (v <? 0)%float then 0%float else v)
                      (Np.map2d
                         (fun v =>
                            (v - (clipmean
                                  + SigmaClipShifter.sigma self * stddev))
                            %float) ch))) y x) as Hpix.
  { intros y x. unfold Np.pix. rewrite Hout. unfold Np.set_chan.
    by rewrite list_lookup_insert_eq by lia. }
  exists clipmean, median, stddev. split; [done|]. split.
  - intros y x v Hp. eexists. rewrite Hpix.
    rewrite pix2_assign_unless, pix2_valid2d, !pix2_map2d, Hp. simpl.
    split; [reflexivity|].
    destruct (is_valid v); [|split; [apply ltb_irrefl_any|done]].
    simpl. destruct (_ - _ <? 0)%float eqn:Hd;
      (split; [first [apply ltb_irrefl_any|exact Hd]|done]).
  - apply np_min_Ret_nonempty in Hmin.
    apply select_valid_nonempty in Hmin as (y & x & w & Hp & Hw).
    exists y, x, w. by rewrite Hpix.
Qed.

Lemma SigmaClipShifter_witness :
  SigmaClipShifter.call (fun a s => Ret (1, 1, 1)%float)
    {| SigmaClipShifter.sigma := 1; SigmaClipShifter.chid := -1 |}
    (Some Example.ramp) = Ret (Some [ [[0; 2]; [4; 6]] ]%float)
  /\ exists clipmean median stddev : float,
       Ret (1, 1, 1)%float = Ret (clipmean, median, stddev)
       /\ (forall y x v, Np.pix2 [[2; 4]; [6; 8]]%float y x = Some v ->
             exists w,
               Np.pix [ [[0; 2]; [4; 6]] ]%float y x 0 = Some w
               /\ (w <? 0)%float = false
               /\ w = if is_valid v
                      then let d := (v - (clipmean + 1 * stddev))%float
                           in if (d <? 0)%float then 0%float else d
                      else 0%float)
       /\ exists y x w,
            Np.pix [ [[0; 2]; [4; 6]] ]%float y x 0 = Some w
            /\ is_valid w = true.
Proof.
  refine ((fun E => conj E
             (SigmaClipShifter_output_never_negative
                (fun a s => Ret (1, 1, 1)%float)
                {| SigmaClipShifter.sigma := 1;
                   SigmaClipShifter.chid := -1 |}
                Example.ramp [ [[0; 2]; [4; 6]] ]%float 0
                [[2; 4]; [6; 8]]%float
                (or_introl eq_refl) E eq_refl)) _).
  vm_compute. reflexivity.
Defined.

(** ** Resizer *)

Lemma np_min_valid (a : list (list float)) (m : float) :
  Np.min (Np.select a (Np.valid2d a)) = Ret m -> is_valid m = true.
Proof.
  intros H. destruct (np_min_spec _ _ (select_valid_Forall a) H) as [Hin _].
  by apply select_valid_spec in Hin as (y & x & _ & Hv).
Qed.

Lemma for_range_Raise_own body rng acc e :
  writes_own_channel body ->
  for_range rng body acc = Raise e ->
  exists i a, i ∈ rng /\ length a = length acc /\ body i a = Raise e.
Proof.
  intros Hown. revert acc.
  induction rng as [|i rng IH]; intros acc H; simpl in H; [done|].
  destruct (body i acc) as [[a'|]|e'] eqn:Hi; [|done|].
  - destruct (IH _ H) as (j & a & Hj & Hlen & Hb). exists j, a.
    split; [apply elem_of_cons; by right|].
    destruct (Hown _ _ _ Hi) as [Hl _]. split; [congruence|done].
  - injection H as ->. exists i, acc.
    split; [apply elem_of_cons; by left|done].
Qed.

Lemma Resizer_pad_body_own :
  writes_own_channel (fun i data_resized =>
    data_ch ← Np.get_chan data_resized i;
    let cond_ch := Np.valid2d data_ch in
    let data_ch_1d := Np.select data_ch cond_ch in
    data_min ← Np.min data_ch_1d;
    let data_ch := Np.assign_unless cond_ch data_min data_ch in
    Ret (Some (Np.set_chan i data_ch data_resized))).
Proof.
  intros i a a' Hb. inv_outcome Hb; injection Hb as <-;
    first [apply set_chan_own | done].
Qed.

(** The padding loop: every channel keeps its valid pixels and gets its
    smallest valid pixel wherever a pixel was invalid. *)
Lemma Resizer_pad_loop (resized out : list (list (list float))) :
  for_range (seq 0 (Np.nchans resized))
    (fun i data_resized =>
       data_ch ← Np.get_chan data_resized i;
       let cond_ch := Np.valid2d data_ch in
       let data_ch_1d := Np.select data_ch cond_ch in
       data_min ← Np.min data_ch_1d;
       let data_ch := Np.assign_unless cond_ch data_min data_ch in
       Ret (Some (Np.set_chan i data_ch data_resized))) resized
  = Ret (Some out) ->
  forall y x c v, Np.pix resized y x c = Some v ->
    exists mn ch,
      resized !! c = Some ch
      /\ Np.min (Np.select ch (Np.valid2d ch)) = Ret mn
      /\ Np.pix out y x c = Some (if is_valid v then v else mn).
Proof.
  intros Hrun y x c v Hpix.
  destruct (pix_inv _ _ _ _ _ Hpix) as (ch & Hch & Hp2 & Hc).
  eapply for_range_channel in Hrun as (a & a' & Hla & Hfr & Hb & Hout);
    [|apply Resizer_pad_body_own|exact Hc].
  unfold Np.get_chan in Hb. rewrite Hfr, Hch in Hb by lia. simpl in Hb.
  destruct (Np.min (Np.select ch (Np.valid2d ch))) as [mn|] eqn:Hmin;
    [|done].
  simpl in Hb. injection Hb as <-. exists mn, ch.
  split; [done|]. split; [done|].
  unfold Np.pix. rewrite Hout. unfold Np.set_chan.
  rewrite list_lookup_insert_eq by lia. simpl.
  by rewrite pix2_assign_unless, pix2_valid2d, Hp2.
Qed.

(** What the padding loop leaves at a pixel, with the minimum spelled
    out: a valid pixel of the channel that no valid pixel of the channel
    is below. *)
Lemma Resizer_pad_pixel (resized out : list (list (list float))) y x c v :
  for_range (seq 0 (Np.nchans resized))
    (fun i data_resized =>
       data_ch ← Np.get_chan data_resized i;
       let cond_ch := Np.valid2d data_ch in
       let data_ch_1d := Np.select data_ch cond_ch in
       data_min ← Np.min data_ch_1d;
       let data_ch := Np.assign_unless cond_ch data_min data_ch in
       Ret (Some (Np.set_chan i data_ch data_resized))) resized
  = Ret (Some out) ->
  Np.pix resized y x c = Some v ->
  exists ch mn,
    resized !! c = Some ch
    /\ (exists y0 x0, Np.pix2 ch y0 x0 = Some mn /\ is_valid mn = true)
    /\ (forall y' x' u, Np.pix2 ch y' x' = Some u -> is_valid u = true ->
          (u <? mn)%float = false)
    /\ Np.pix out y x c = Some (if is_valid v then v else mn).
Proof.
  intros Hrun Hpix.
  destruct (Resizer_pad_loop _ _ Hrun _ _ _ _ Hpix)
    as (mn & ch & Hch & Hmin & Hout).
  destruct (np_min_spec _ _ (select_valid_Forall ch) Hmin) as [Hin Hle].
  apply select_valid_spec in Hin as (y0 & x0 & Hp0 & Hv0).
  exists ch, mn. split; [done|]. split; [eauto|]. split; [|done].
  intros y' x' u Hu Hvu. apply Hle. apply select_valid_spec. eauto.
Qed.

(** X19.  When Resizer has to resize and [set_pad_val_to_min] is on,
    what it returns is the resized array with every invalid pixel
    replaced by the smallest valid pixel of its own channel: at a valid
    pixel of the resized array the result holds that pixel, at an
    invalid one the minimum of the valid pixels of that channel of the
    resized array.  So no pixel of the result is zero or not finite. *)
Theorem Resizer_pads_invalid_pixels_with_channel_minimum
    (resize_img_v2 :
       list (list (list float)) -> option Z -> Z -> bool -> bool ->
       outcome (option (list (list (list float)))))
    (img_as_float64 :
       list (list (list float)) -> outcome (list (list (list float))))
    (self : Resizer.t) (data out : list (list (list float))) :
  Resizer.set_pad_val_to_min self = true ->
  (Z.of_nat (Np.ncols (hd [] data)) =? Resizer.resize_size self)%Z
  && (Z.of_nat (Np.nrows (hd [] data)) =? Resizer.resize_size self)%Z
  = false ->
  Resizer.call resize_img_v2 img_as_float64 self (Some data)
    = Ret (Some out) ->
  exists src resized,
    resize_img_v2 src
      (if Resizer.upscale self then Some (Resizer.resize_size self)
       else None)
      (Resizer.resize_size self)
      ((Resizer.resize_size self <? Z.of_nat (Np.ncols (hd [] data)))%Z
       && (Resizer.resize_size self <? Z.of_nat (Np.nrows (hd [] data)))%Z
       && Resizer.downscale_with_antialiasing self)
      (Resizer.preserve_range self)
    = Ret (Some resized)
    /\ (src = data \/ img_as_float64 data = Ret src)
    /\ (forall y x c v, Np.pix resized y x c = Some v ->
          exists ch mn,
            resized !! c = Some ch
            /\ (exists y0 x0, Np.pix2 ch y0 x0 = Some mn
                              /\ is_valid mn = true)
            /\ (forall y' x' u, Np.pix2 ch y' x' = Some u ->
                  is_valid u = true -> (u <? mn)%float = false)
            /\ Np.pix out y x c = Some (if is_valid v then v else mn)
            /\ is_valid (if is_valid v then v else mn) = true).
Proof.
  intros Hpad Hsize Hrun. unfold Resizer.call in Hrun.
  rewrite Hsize, Hpad in Hrun.
  assert (forall resized,
            for_range (seq 0 (Np.nchans resized))
              (fun i data_resized =>
                 data_ch ← Np.get_chan data_resized i;
                 let cond_ch := Np.valid2d data_ch in
                 let data_ch_1d := Np.select data_ch cond_ch in
                 data_min ← Np.min data_ch_1d;
                 let data_ch := Np.assign_unless cond_ch data_min data_ch in
                 Ret (Some (Np.set_chan i data_ch data_resized))) resized
            = Ret (Some out) ->
            forall y x c v, Np.pix resized y x c = Some v ->
              exists ch mn,
                resized !! c = Some ch
                /\ (exists y0 x0, Np.pix2 ch y0 x0 = Some mn
                                  /\ is_valid mn = true)
                /\ (forall y' x' u, Np.pix2 ch y' x' = Some u ->
                      is_valid u = true -> (u <? mn)%float = false)
                /\ Np.pix out y x c = Some (if is_valid v then v else mn)
                /\ is_valid (if is_valid v then v else mn) = true) as Hpadded.
  { intros resized Hloop y x c v Hpix.
    destruct (Resizer_pad_pixel _ _ _ _ _ _ Hloop Hpix)
      as (ch & mn & Hch & (y0 & x0 & Hp0 & Hv0) & Hle & Hout).
    exists ch, mn. split; [done|]. split; [eauto|]. split; [done|].
    split; [done|]. by destruct (is_valid v) eqn:Hv. }
  match type of Hrun with
  | context [match resize_img_v2 data ?a ?b ?c ?d with _ => _ end] =>
      destruct (resize_img_v2 data a b c d) as [r1|e1] eqn:H1
  end.
  - destruct r1 as [resized|]; [|done]. exists data, resized.
    split; [done|]. split; [by left|]. by apply Hpadded.
  - simpl in Hrun. unfold mbind, outcome_bind in Hrun.
    destruct (img_as_float64 data) as [data64|e2] eqn:H64; [|done].
    match type of Hrun with
    | context [match resize_img_v2 data64 ?a ?b ?c ?d with _ => _ end] =>
        destruct (resize_img_v2 data64 a b c d) as [r2|e3] eqn:H2; [|done]
    end.
    destruct r2 as [resized|]; [|done]. exists data64, resized.
    split; [done|]. split; [by right|]. by apply Hpadded.
Qed.

Lemma Resizer_pads_witness :
  Resizer.call (fun d _ _ _ _ => Ret (Some [ [[0; 3]; [nan; 2]] ]%float))
    (fun d => Ret d)
    {| Resizer.resize_size := 2; Resizer.preserve_range := true;
       Resizer.upscale := false;
       Resizer.downscale_with_antialiasing := false;
       Resizer.set_pad_val_to_min := true |}
    (Some [ [[7]] ]%float) = Ret (Some [ [[2; 3]; [2; 2]] ]%float)
  /\ exists src resized : list (list (list float)),
       Ret (Some [ [[0; 3]; [nan; 2]] ]%float) = Ret (Some resized)
       /\ (src = [ [[7]] ]%float \/ Ret [ [[7]] ]%float = Ret src)
       /\ (forall y x c v, Np.pix resized y x c = Some v ->
             exists ch mn,
               resized !! c = Some ch
               /\ (exists y0 x0, Np.pix2 ch y0 x0 = Some mn
                                 /\ is_valid mn = true)
               /\ (forall y' x' u, Np.pix2 ch y' x' = Some u ->
                     is_valid u = true -> (u <? mn)%float = false)
               /\ Np.pix [ [[2; 3]; [2; 2]] ]%float y x c
                  = Some (if is_valid v then v else mn)
               /\ is_valid (if is_valid v then v else mn) = true).
Proof.
  refine ((fun E => conj E
             (Resizer_pads_invalid_pixels_with_channel_minimum
                (fun d _ _ _ _ => Ret (Some [ [[0; 3]; [nan; 2]] ]%float))
                (fun d => Ret d)
                {| Resizer.resize_size := 2;
                   Resizer.preserve_range := true;
                   Resizer.upscale := false;
                   Resizer.downscale_with_antialiasing := false;
                   Resizer.set_pad_val_to_min := true |}
                [ [[7]] ]%float [ [[2; 3]; [2; 2]] ]%float
                eq_refl eq_refl E)) _).
  vm_compute. reflexivity.
Defined.

(** X20.  How a call of Resizer can end.  An array that already has the
    target size is returned as it is, and the resize function is not
    asked.  When both attempts to resize raise, the result is [None].
    No exception of the resize function escapes: the stage raises only
    with [set_pad_val_to_min], and then [AttributeError] (the resize
    gave [None]) or [ValueError] (a resized channel has no valid
    pixel). *)
Theorem Resizer_outcome
    (resize_img_v2 :
       list (list (list float)) -> option Z -> Z -> bool -> bool ->
       outcome (option (list (list (list float)))))
    (img_as_float64 :
       list (list (list float)) -> outcome (list (list (list float))))
    (self : Resizer.t) (data : list (list (list float))) :
  let nx := Z.of_nat (Np.ncols (hd [] data)) in
  let ny := Z.of_nat (Np.nrows (hd [] data)) in
  let same_size :=
    (nx =? Resizer.resize_size self)%Z
    && (ny =? Resizer.resize_size self)%Z in
  let attempt d :=
    resize_img_v2 d
      (if Resizer.upscale self then Some (Resizer.resize_size self)
       else None)
      (Resizer.resize_size self)
      ((Resizer.resize_size self <? nx)%Z
       && (Resizer.resize_size self <? ny)%Z
       && Resizer.downscale_with_antialiasing self)
      (Resizer.preserve_range self) in
  (same_size = true ->
   Resizer.call resize_img_v2 img_as_float64 self (Some data)
   = Ret (Some data))
  /\ (same_size = false ->
      (exists e1, attempt data = Raise e1) ->
      (forall src, img_as_float64 data = Ret src ->
         exists e2, attempt src = Raise e2) ->
      Resizer.call resize_img_v2 img_as_float64 self (Some data)
      = Ret None)
  /\ (forall e,
        Resizer.call resize_img_v2 img_as_float64 self (Some data)
        = Raise e ->
        Resizer.set_pad_val_to_min self = true
        /\ (e = AttributeError \/ e = ValueError)).
Proof.
  intros nx ny same_size attempt. unfold Resizer.call.
  fold nx ny. fold same_size. split; [by intros ->|]. split.
  - intros -> [e1 H1] H2. unfold attempt in H1. rewrite H1.
    simpl. unfold mbind, outcome_bind.
    destruct (img_as_float64 data) as [src|e2] eqn:E2; [|done].
    destruct (H2 src eq_refl) as [e3 H3]. unfold attempt in H3.
    by rewrite H3.
  - intros e Hrun. destruct same_size; [done|].
    match type of Hrun with
    | context [match ?r with Ret _ => if _ then _ else _ | Raise _ => _ end] =>
        destruct r as [data_resized|e'] eqn:Hret; [|done]
    end.
    destruct (Resizer.set_pad_val_to_min self); [|done].
    split; [done|]. destruct data_resized as [resized|].
    + right.
      apply for_range_Raise_own in Hrun as (i & a & Hi & Hlen & Hb);
        [|apply Resizer_pad_body_own].
      apply elem_of_seq in Hi as [_ Hi]. unfold Np.nchans in Hi.
      destruct (lookup_lt_is_Some_2 a i) as [ch Hch]; [lia|].
      unfold Np.get_chan in Hb. rewrite Hch in Hb. simpl in Hb.
      destruct (Np.select ch (Np.valid2d ch)); simpl in Hb; [|done].
      by injection Hb.
    + left. by injection Hrun.
Qed.

Lemma Resizer_outcome_witness :
  Resizer.call (fun d _ _ _ _ => Raise ValueError) (fun d => Ret d)
    {| Resizer.resize_size := 2; Resizer.preserve_range := true;
       Resizer.upscale := false;
       Resizer.downscale_with_antialiasing := false;
       Resizer.set_pad_val_to_min := true |}
    (Some [ [[7]] ]%float) = Ret None.
Proof.
  apply (Resizer_outcome (fun d _ _ _ _ => Raise ValueError) (fun d => Ret d)
           {| Resizer.resize_size := 2; Resizer.preserve_range := true;
              Resizer.upscale := false;
              Resizer.downscale_with_antialiasing := false;
              Resizer.set_pad_val_to_min := true |} [ [[7]] ]%float);
    [reflexivity|by exists ValueError|].
  intros src _. by exists ValueError.
Defined.

(** ** Stages that scale by a maximum *)

Lemma select_row_spec {A} (row : list A) : forall (mrow : list bool) v,
  v ∈ (zip row mrow ≫= fun q : A * bool => if snd q then [fst q] else [])
  <-> exists x, row !! x = Some v /\ mrow !! x = Some true.
Proof.
  induction row as [|w row IH]; intros mrow v; simpl.
  - rewrite elem_of_nil. split; [done|]. by intros (x & Hx & _).
  - destruct mrow as [|b mrow]; simpl.
    + rewrite elem_of_nil. split; [done|]. by intros (x & _ & Hx).
    + rewrite elem_of_app, IH. split.
      * intros [Hin|(x & Hx & Hm)].
        -- destruct b; simpl in Hin; [|by apply elem_of_nil in Hin].
           apply list_elem_of_singleton in Hin as ->. by exists 0.
        -- by exists (S x).
      * intros ([|x] & Hx & Hm); simpl in *.
        -- left. injection Hx as ->. injection Hm as ->. simpl.
           by apply list_elem_of_singleton.
        -- right. eauto.
Qed.

(** The elements a mask selects from a plane, and from a cube. *)
Lemma select_spec {A} (a : list (list A)) (m : list (list bool)) v :
  v ∈ Np.select a m
  <-> exists y x, Np.pix2 a y x = Some v /\ Np.pix2 m y x = Some true.
Proof.
  unfold Np.select, Np.pix2.
  rewrite list_elem_of_In, in_concat. split.
  - intros (l & Hl & Hv). apply list_elem_of_In in Hl, Hv.
    apply list_elem_of_lookup in Hl as [y Hy].
    rewrite lookup_zip_with in Hy.
    destruct (a !! y) as [row|] eqn:Hrow; simpl in Hy; [|done].
    destruct (m !! y) as [mrow|] eqn:Hmrow; simpl in Hy; [|done].
    injection Hy as <-. apply select_row_spec in Hv as (x & Hx & Hm).
    exists y, x. rewrite Hrow, Hmrow. done.
  - intros (y & x & Hp & Hm).
    destruct (a !! y) as [row|] eqn:Hrow; simpl in Hp; [|done].
    destruct (m !! y) as [mrow|] eqn:Hmrow; simpl in Hm; [|done].
    exists (zip row mrow ≫= fun q : A * bool =>
              if snd q then [fst q] else []).
    split; apply list_elem_of_In.
    + apply list_elem_of_lookup. exists y.
      by rewrite lookup_zip_with, Hrow, Hmrow.
    + apply select_row_spec. eauto.
Qed.

Lemma select3d_spec {A} (t : list (list (list A)))
    (m : list (list (list bool))) v :
  v ∈ concat (zip_with Np.select t m)
  <-> exists y x c, Np.pix t y x c = Some v /\ Np.pix m y x c = Some true.
Proof.
  unfold Np.pix. rewrite list_elem_of_In, in_concat. split.
  - intros (l & Hl & Hv). apply list_elem_of_In in Hl, Hv.
    apply list_elem_of_lookup in Hl as [c Hc].
    rewrite lookup_zip_with in Hc.
    destruct (t !! c) as [ch|] eqn:Hch; simpl in Hc; [|done].
    destruct (m !! c) as [mc|] eqn:Hmc; simpl in Hc; [|done].
    injection Hc as <-. apply select_spec in Hv as (y & x & Hp & Hm).
    exists y, x, c. by rewrite Hch, Hmc.
  - intros (y & x & c & Hp & Hm).
    destruct (t !! c) as [ch|] eqn:Hch; simpl in Hp; [|done].
    destruct (m !! c) as [mc|] eqn:Hmc; simpl in Hm; [|done].
    exists (Np.select ch mc). split; apply list_elem_of_In.
    + apply list_elem_of_lookup. exists c.
      by rewrite lookup_zip_with, Hch, Hmc.
    + apply select_spec. eauto.
Qed.

Lemma ma_max_np_max (l : list float) m :
  Ma.max l = Some m <-> Np.max l = Ret m.
Proof.
  destruct l as [|v l]; simpl; [done|].
  split; intros H.
  - by apply (inj Some) in H as ->.
  - apply (f_equal (fun o => match o with Ret s => Some s | _ => None end))
      in H. done.
Qed.

Lemma ma_max_None (l : list float) : Ma.max l = None <-> l = [].
Proof. by destruct l. Qed.

(** Of a valid number: not [<= 0] means above zero. *)
Lemma leb_zero_valid v :
  is_valid v = true -> (v <=? 0)%float = false -> (0 <? v)%float = true.
Proof.
  intros Hv Hle. apply is_valid_spec in Hv as (s & m & e & Hv).
  rewrite (ltb_zero_finite _ _ _ _ Hv).
  rewrite leb_spec, Hv, Prim2SF_zero in Hle. by destruct s.
Qed.


Lemma np_max_valid (a : list (list float)) (m : float) :
  Np.max (Np.select a (Np.valid2d a)) = Ret m -> is_valid m = true.
Proof.
  intros H. destruct (np_max_spec _ _ (select_valid_Forall a) H) as [Hin _].
  by apply select_valid_spec in Hin as (y & x & _ & Hv).
Qed.

(** X22.  ChanMaxScaler never divides by numpy.ma's constant [masked]:
    whenever it returns something for an array, this is a plain array.
    The region the maxima are taken over is the whole plane, or with
    [use_mask_box] the box [centre_box] computes from [mask_fract] and
    the shape of the reference channel.  The maximum of the reference
    channel over that region is a valid pixel above zero, every channel
    has a positive maximum there, and the result holds every valid pixel
    divided by the reference maximum and 0 at the invalid pixels. *)
Theorem ChanMaxScaler_scales_by_reference_maximum (self : ChanMaxScaler.t)
    (data : list (list (list float))) (r : Ma.result) :
  ChanMaxScaler.call self (Some data) = Ret (Some r) ->
  exists out iref ref box mx,
    r = Ma.Array out
    /\ Np.index (Np.nchans data) (ChanMaxScaler.chref self) = Ret iref
    /\ data !! iref = Some ref
    /\ (if ChanMaxScaler.use_mask_box self
        then exists b,
               centre_box (ChanMaxScaler.mask_fract self) (Np.nrows ref)
                 (Np.ncols ref) = Ret b
               /\ box = Some b
        else box = None)
    /\ Np.max (Np.select (ChanMaxScaler.crop box ref)
                 (Np.valid2d (ChanMaxScaler.crop box ref))) = Ret mx
    /\ is_valid mx = true /\ (0 <? mx)%float = true
    /\ (forall i ch, data !! i = Some ch ->
          exists m,
            Np.max (Np.select (ChanMaxScaler.crop box ch)
                      (Np.valid2d (ChanMaxScaler.crop box ch))) = Ret m
            /\ (0 <? m)%float = true)
    /\ (forall y x c v, Np.pix data y x c = Some v ->
          Np.pix out y x c
          = Some (if is_valid v then (v / mx)%float else 0%float)).
Proof.
  unfold ChanMaxScaler.call. intros Hrun.
  simpl in Hrun. unfold mbind, outcome_bind in Hrun.
  destruct (Np.index (Np.nchans data) (ChanMaxScaler.chref self))
    as [iref|] eqn:Hidx; [|done].
  destruct (Np.get_chan data iref) as [ref|] eqn:Href; [|done].
  apply get_chan_Ret in Href.
  assert (exists box,
            (if ChanMaxScaler.use_mask_box self
             then exists b,
                    centre_box (ChanMaxScaler.mask_fract self) (Np.nrows ref)
                      (Np.ncols ref) = Ret b
                    /\ box = Some b
             else box = None)
            /\ (if ChanMaxScaler.use_mask_box self
                then match centre_box (ChanMaxScaler.mask_fract self)
                             (Np.nrows ref) (Np.ncols ref) with
                     | Ret b => Ret (Some b)
                     | Raise e => Raise e
                     end
                else Ret None) = Ret box) as (box & Hnobox & Hbox).
  { destruct (ChanMaxScaler.use_mask_box self).
    - destruct (centre_box _ _ _) as [b|]; [|done]. exists (Some b). eauto.
    - by exists None. }
  rewrite Hbox in Hrun.
  match type of Hrun with
  | context [for_range ?l ?b ?a] =>
      destruct (for_range l b a) as [[chk|]|] eqn:Hloop; try discriminate
  end.
  assert (forall i ch, data !! i = Some ch ->
            exists m,
              Np.max (Np.select (ChanMaxScaler.crop box ch)
                        (Np.valid2d (ChanMaxScaler.crop box ch))) = Ret m
              /\ is_valid m = true /\ (0 <? m)%float = true) as Hall.
  { intros i ch Hch.
    eapply for_range_channel in Hloop as (a & a' & _ & _ & Hb & _);
      [| |by eapply lookup_lt_Some].
    2: { intros j b b' Hb. inv_outcome Hb. by injection Hb as <-. }
    unfold Np.get_chan in Hb. rewrite Hch in Hb. simpl in Hb.
    destruct (Np.max _) as [m|] eqn:Hm; [|done]. simpl in Hb.
    destruct ((m <=? 0)%float || negb (is_finite m)) eqn:Hbad; [done|].
    apply orb_false_elim in Hbad as [Hle _].
    pose proof (np_max_valid _ _ Hm) as Hv.
    exists m. repeat split; [done|]. by apply leb_zero_valid. }
  destruct (Hall iref ref Href) as (mx & Hmx & Hvmx & Hpos).
  pose proof (proj2 (ma_max_np_max _ _) Hmx) as Hma. rewrite Hma in Hrun.
  injection Hrun as <-. eexists _, iref, ref, box, mx.
  split; [reflexivity|]. split; [done|]. split; [done|]. split; [done|].
  split; [done|]. split; [done|]. split; [done|]. split.
  - intros i ch Hch. destruct (Hall i ch Hch) as (m & Hm & _ & Hp). eauto.
  - intros y x c v Hp. erewrite pix_restore3d; [done|done|].
    by rewrite pix_map3d, Hp.
Qed.

Lemma ChanMaxScaler_witness :
  exists r,
    ChanMaxScaler.call
      {| ChanMaxScaler.chref := 0; ChanMaxScaler.use_mask_box := true;
         ChanMaxScaler.mask_fract := 0.5 |} (Some Example.board)
    = Ret (Some r)
    /\ exists out iref ref box mx,
         r = Ma.Array out
         /\ Np.index (Np.nchans Example.board) 0 = Ret iref
         /\ Example.board !! iref = Some ref
         /\ (exists b,
               centre_box 0.5 (Np.nrows ref) (Np.ncols ref) = Ret b
               /\ box = Some b)
         /\ Np.max (Np.select (ChanMaxScaler.crop box ref)
                      (Np.valid2d (ChanMaxScaler.crop box ref))) = Ret mx
         /\ is_valid mx = true /\ (0 <? mx)%float = true
         /\ (forall i ch, Example.board !! i = Some ch ->
               exists m,
                 Np.max (Np.select (ChanMaxScaler.crop box ch)
                           (Np.valid2d (ChanMaxScaler.crop box ch))) = Ret m
                 /\ (0 <? m)%float = true)
         /\ (forall y x c v, Np.pix Example.board y x c = Some v ->
               Np.pix out y x c
               = Some (if is_valid v then (v / mx)%float else 0%float)).
Proof.
  eexists.
  refine ((fun E => conj E
             (ChanMaxScaler_scales_by_reference_maximum
                {| ChanMaxScaler.chref := 0;
                   ChanMaxScaler.use_mask_box := true;
                   ChanMaxScaler.mask_fract := 0.5 |}
                Example.board _ E)) _).
  vm_compute. reflexivity.
Defined.

(** X23.  AbsMaxScaler on an array.  The region the maximum is taken
    over is the whole cube, or with [use_mask_box] the box [centre_box]
    computes from [mask_fract] and the shape of the cube, the same in
    every channel.  When no valid pixel lies in that region the result
    is a numpy.ma array and no plain array; otherwise it is the array of
    the valid pixels divided by the largest valid pixel of the region,
    with 0 at the invalid pixels. *)
Theorem AbsMaxScaler_divides_by_cube_maximum (self : AbsMaxScaler.t)
    (data : list (list (list float))) (r : Ma.result) :
  AbsMaxScaler.call self (Some data) = Ret (Some r) ->
  exists region : nat -> nat -> bool,
    (if AbsMaxScaler.use_mask_box self
     then exists box,
            centre_box (AbsMaxScaler.mask_fract self)
              (Np.nrows (hd [] data)) (Np.ncols (hd [] data)) = Ret box
            /\ forall y x,
                 region y x
                 = in_box box (Np.nrows (hd [] data))
                     (Np.ncols (hd [] data)) y x
     else forall y x, region y x = true)
    /\ match r with
       | Ma.MaskedArray =>
           forall y x c v, Np.pix data y x c = Some v ->
             is_valid v = true -> region y x = false
       | Ma.Array out =>
           exists mx y1 x1 c1,
             Np.pix data y1 x1 c1 = Some mx
             /\ is_valid mx = true /\ region y1 x1 = true
             /\ (forall y x c v, Np.pix data y x c = Some v ->
                   is_valid v = true -> region y x = true ->
                   (mx <? v)%float = false)
             /\ (forall y x c v, Np.pix data y x c = Some v ->
                   Np.pix out y x c
                   = Some (if is_valid v then (v / mx)%float else 0%float))
       end.
Proof.
  unfold AbsMaxScaler.call. intros Hrun.
  simpl in Hrun. unfold mbind, outcome_bind in Hrun.
  set (ny := Np.nrows (hd [] data)) in *.
  set (nx := Np.ncols (hd [] data)) in *.
  assert (exists (region : nat -> nat -> bool) cond_max,
            (if AbsMaxScaler.use_mask_box self
             then exists box,
                    centre_box (AbsMaxScaler.mask_fract self) ny nx = Ret box
                    /\ forall y x, region y x = in_box box ny nx y x
             else forall y x, region y x = true)
            /\ (forall y x c v, Np.pix data y x c = Some v ->
                  Np.pix cond_max y x c = Some (is_valid v && region y x))
            /\ (forall y x c, Np.pix data y x c = None ->
                  Np.pix cond_max y x c <> Some true)
            /\ match Ma.max (concat (zip_with Np.select data cond_max)) with
               | Some data_max =>
                   Ret (Some (Ma.Array
                     (Np.assign_unless3d (Np.valid3d data) 0%float
                        (Np.map3d (fun v => v / data_max)%float data))))
               | None => Ret (Some Ma.MaskedArray)
               end = Ret (Some r))
    as (region & cond_max & Hreg & Hcm & Hcm' & Hrun').
  { destruct (AbsMaxScaler.use_mask_box self).
    - destruct (centre_box _ _ _) as [box|]; [|done].
      eexists (fun y x => in_box box ny nx y x), _.
      split; [by exists box|]. split; [|split; [|exact Hrun]].
      + intros y x c v Hp.
        destruct (pix_inv _ _ _ _ _ Hp) as (ch & Hch & Hp2 & _).
        unfold Np.zip3d, Np.pix.
        rewrite lookup_zip_with, list_lookup_fmap.
        unfold Np.valid3d, Np.map3d. rewrite list_lookup_fmap, Hch. simpl.
        by rewrite pix2_zip2d, pix2_map2d, pix2_imap2d, Hp2.
      + intros y x c Hp. unfold Np.zip3d, Np.pix.
        rewrite lookup_zip_with, list_lookup_fmap.
        unfold Np.valid3d, Np.map3d. rewrite list_lookup_fmap.
        unfold Np.pix in Hp.
        destruct (data !! c) as [ch|]; simpl in *; [|done].
        by rewrite pix2_zip2d, pix2_map2d, Hp.
    - exists (fun _ _ => true), (Np.valid3d data).
      split; [done|]. split; [|split; [|exact Hrun]].
      + intros y x c v Hp. by rewrite pix_valid3d, Hp, andb_true_r.
      + intros y x c Hp. by rewrite pix_valid3d, Hp. }
  clear Hrun. exists region. split; [exact Hreg|].
  assert (forall v, v ∈ concat (zip_with Np.select data cond_max)
            <-> exists y x c, Np.pix data y x c = Some v
                  /\ is_valid v = true /\ region y x = true) as Hsel.
  { intros v. rewrite select3d_spec. split.
    - intros (y & x & c & Hp & Hm). rewrite (Hcm _ _ _ _ Hp) in Hm.
      apply (inj Some) in Hm. apply andb_true_iff in Hm as [? ?].
      eauto 10.
    - intros (y & x & c & Hp & Hv & Hr). exists y, x, c.
      split; [done|]. by rewrite (Hcm _ _ _ _ Hp), Hv, Hr. }
  destruct (Ma.max (concat (zip_with Np.select data cond_max)))
    as [mx|] eqn:Hmax.
  - injection Hrun' as <-. apply ma_max_np_max in Hmax.
    destruct (np_max_spec _ _ (proj2 (Forall_forall _ _)
                (fun v Hv => match proj1 (Hsel v) Hv with
                             | ex_intro _ _ (ex_intro _ _ (ex_intro _ _
                                 (conj _ (conj H _)))) => H
                             end)) Hmax) as [Hin Hge].
    apply Hsel in Hin as (y1 & x1 & c1 & Hp1 & Hv1 & Hr1).
    exists mx, y1, x1, c1. repeat split; [done..| |].
    + intros y x c v Hp Hv Hr. apply Hge. apply Hsel. eauto 10.
    + intros y x c v Hp. erewrite pix_restore3d; [done|done|].
      by rewrite pix_map3d, Hp.
  - injection Hrun' as <-. apply ma_max_None in Hmax.
    intros y x c v Hp Hv. apply not_true_is_false. intros Hr.
    assert (v ∈ concat (zip_with Np.select data cond_max)) as Hin
      by (apply Hsel; eauto 10).
    rewrite Hmax in Hin. by apply elem_of_nil in Hin.
Qed.

Lemma AbsMaxScaler_witness :
  exists r,
    AbsMaxScaler.call
      {| AbsMaxScaler.use_mask_box := true;
         AbsMaxScaler.mask_fract := 0.5 |} (Some Example.board)
    = Ret (Some r)
    /\ exists region : nat -> nat -> bool,
         (exists box,
            centre_box 0.5 (Np.nrows (hd [] Example.board))
              (Np.ncols (hd [] Example.board)) = Ret box
            /\ forall y x,
                 region y x
                 = in_box box (Np.nrows (hd [] Example.board))
                     (Np.ncols (hd [] Example.board)) y x)
         /\ match r with
            | Ma.MaskedArray =>
                forall y x c v, Np.pix Example.board y x c = Some v ->
                  is_valid v = true -> region y x = false
            | Ma.Array out =>
                exists mx y1 x1 c1,
                  Np.pix Example.board y1 x1 c1 = Some mx
                  /\ is_valid mx = true /\ region y1 x1 = true
                  /\ (forall y x c v, Np.pix Example.board y x c = Some v ->
                        is_valid v = true -> region y x = true ->
                        (mx <? v)%float = false)
                  /\ (forall y x c v, Np.pix Example.board y x c = Some v ->
                        Np.pix out y x c
                        = Some (if is_valid v then (v / mx)%float
                                else 0%float))
            end.
Proof.
  eexists.
  refine ((fun E => conj E
             (AbsMaxScaler_divides_by_cube_maximum
                {| AbsMaxScaler.use_mask_box := true;
                   AbsMaxScaler.mask_fract := 0.5 |}
                Example.board _ E)) _).
  vm_compute. reflexivity.
Defined.

(** ** The custom augmenters *)

Lemma get_zscale_image_eq zscale (data : list (list (list float)))
    (contrasts : list float) :
  (length contrasts <? Np.nchans data) = false ->
  ZScaleAugmenter.get_zscale_image zscale (Some data) contrasts
  = ZScaleTransformer.call zscale
      {| ZScaleTransformer.contrasts := contrasts |} (Some data).
Proof.
  intros H. unfold ZScaleAugmenter.get_zscale_image, ZScaleTransformer.call.
  simpl. by rewrite H.
Qed.

Lemma percentile_body_own percentile (data : list (list (list float)))
    (percentiles : list float) :
  writes_own_channel (fun i data_thresholded =>
    q ← match percentiles !! i with
        | Some q => Ret q
        | None => Raise IndexError
        end;
    data_ch ← Np.get_chan data_thresholded i;
    let cond_ch := Np.valid2d data_ch in
    p ← percentile data q;
    let data_ch :=
      Np.map2d (fun v => if (v <? p)%float then 0%float else v) data_ch in
    let data_ch := Np.assign_unless cond_ch 0%float data_ch in
    Ret (Some (Np.set_chan i data_ch data_thresholded))).
Proof.
  intros i a a' Hb. inv_outcome Hb; injection Hb as <-;
    first [apply set_chan_own | done].
Qed.

(** What the image function of PercentileThrAugmenter leaves in a
    channel. *)
Lemma percentile_loop_pixel percentile (data dt : list (list (list float)))
    (percentiles : list float) y x c v :
  for_range (seq 0 (Np.nchans data)) (fun i data_thresholded =>
    q ← match percentiles !! i with
        | Some q => Ret q
        | None => Raise IndexError
        end;
    data_ch ← Np.get_chan data_thresholded i;
    let cond_ch := Np.valid2d data_ch in
    p ← percentile data q;
    let data_ch :=
      Np.map2d (fun v => if (v <? p)%float then 0%float else v) data_ch in
    let data_ch := Np.assign_unless cond_ch 0%float data_ch in
    Ret (Some (Np.set_chan i data_ch data_thresholded))) data
  = Ret (Some dt) ->
  Np.pix data y x c = Some v ->
  exists q p,
    percentiles !! c = Some q /\ percentile data q = Ret p
    /\ Np.pix dt y x c
       = Some (if is_valid v
               then (if (v <? p)%float then 0%float else v)
               else 0%float).
Proof.
  intros Hrun Hpix.
  destruct (pix_inv _ _ _ _ _ Hpix) as (ch & Hch & Hp2 & Hc).
  eapply for_range_channel in Hrun as (a & a' & Hla & Hfr & Hb & Hout);
    [|apply percentile_body_own|exact Hc].
  destruct (percentiles !! c) as [q|] eqn:Hq; [|done].
  simpl in Hb. unfold Np.get_chan in Hb. rewrite Hfr, Hch in Hb by lia.
  simpl in Hb. destruct (percentile data q) as [p|] eqn:Hp; [|done].
  simpl in Hb. injection Hb as <-. exists q, p.
  split; [done|]. split; [done|].
  unfold Np.pix. rewrite Hout. unfold Np.set_chan.
  rewrite list_lookup_insert_eq by lia. simpl.
  by rewrite pix2_restore, Hp2.
Qed.

Lemma get_zscale_image_not_None zscale (data : list (list (list float)))
    (params : list float) :
  ZScaleAugmenter.get_zscale_image zscale (Some data) params <> Ret None.
Proof.
  unfold ZScaleAugmenter.get_zscale_image.
  destruct (length params <? Np.nchans data); [done|].
  simpl. unfold mbind, outcome_bind.
  match goal with |- context [for_range ?l ?b ?a] =>
    destruct (for_range l b a) as [[r|]|] eqn:Hloop; try done end.
  apply for_range_None_inv in Hloop as (i & a & _ & Hb).
  inv_outcome Hb; discriminate.
Qed.

Lemma get_percentile_thresholded_image_not_None percentile
    (data : list (list (list float))) (params : list float) :
  PercentileThrAugmenter.get_percentile_thresholded_image percentile
    (Some data) params <> Ret None.
Proof.
  unfold PercentileThrAugmenter.get_percentile_thresholded_image.
  destruct (length params <? Np.nchans data); [done|].
  simpl. unfold mbind, outcome_bind.
  match goal with |- context [for_range ?l ?b ?a] =>
    destruct (for_range l b a) as [[r|]|] eqn:Hloop; try done end.
  apply for_range_None_inv in Hloop as (i & a & _ & Hb).
  inv_outcome Hb; discriminate.
Qed.

Lemma get_transformed_image_not_None rescale_intensity adjust_sigmoid cutoff
    (data : list (list (list float))) (params : list float) :
  SigmoidStretchAugmenter.get_transformed_image rescale_intensity
    adjust_sigmoid cutoff (Some data) params <> Ret None.
Proof.
  unfold SigmoidStretchAugmenter.get_transformed_image.
  destruct (length params <? Np.nchans data); [done|].
  simpl. unfold mbind, outcome_bind.
  match goal with |- context [for_range ?l ?b ?a] =>
    destruct (for_range l b a) as [[r|]|] eqn:Hloop; try done end.
  apply for_range_None_inv in Hloop as (i & a & _ & Hb).
  inv_outcome Hb; discriminate.
Qed.

(** X24.  The image functions of the three custom augmenters, called on
    an array: with fewer parameters than channels they raise
    [AttributeError] (the error message reads an attribute that does not
    exist) instead of returning [None]; they never return [None]; and
    an invalid pixel of the input is never anything but 0 in what they
    return. *)
Theorem augmenter_image_functions (data : list (list (list float)))
    (params : list float) :
  (forall zscale,
     (length params < Np.nchans data ->
      ZScaleAugmenter.get_zscale_image zscale (Some data) params
      = Raise AttributeError)
     /\ ZScaleAugmenter.get_zscale_image zscale (Some data) params
        <> Ret None
     /\ forall out y x c v,
          ZScaleAugmenter.get_zscale_image zscale (Some data) params
            = Ret (Some out) ->
          Np.pix data y x c = Some v -> is_valid v = false ->
          Np.pix out y x c = Some 0%float)
  /\ (forall percentile,
        (length params < Np.nchans data ->
         PercentileThrAugmenter.get_percentile_thresholded_image percentile
           (Some data) params = Raise AttributeError)
        /\ PercentileThrAugmenter.get_percentile_thresholded_image
             percentile (Some data) params <> Ret None
        /\ forall out y x c v,
             PercentileThrAugmenter.get_percentile_thresholded_image
               percentile (Some data) params = Ret (Some out) ->
             Np.pix data y x c = Some v -> is_valid v = false ->
             Np.pix out y x c = Some 0%float)
  /\ (forall rescale_intensity adjust_sigmoid cutoff,
        (length params < Np.nchans data ->
         SigmoidStretchAugmenter.get_transformed_image rescale_intensity
           adjust_sigmoid cutoff (Some data) params = Raise AttributeError)
        /\ SigmoidStretchAugmenter.get_transformed_image rescale_intensity
             adjust_sigmoid cutoff (Some data) params <> Ret None
        /\ forall out y x c v w,
             SigmoidStretchAugmenter.get_transformed_image
               rescale_intensity adjust_sigmoid cutoff (Some data) params
               = Ret (Some out) ->
             Np.pix data y x c = Some v -> is_valid v = false ->
             Np.pix out y x c = Some w -> w = 0%float).
Proof.
  split; [|split].
  - intros zscale. split; [|split].
    + intros Hlen. unfold ZScaleAugmenter.get_zscale_image.
      by rewrite (proj2 (Nat.ltb_lt _ _) Hlen).
    + apply get_zscale_image_not_None.
    + intros out y x c v Hrun Hp Hv.
      destruct (length params <? Np.nchans data) eqn:Hlen.
      * unfold ZScaleAugmenter.get_zscale_image in Hrun.
        by rewrite Hlen in Hrun.
      * rewrite get_zscale_image_eq in Hrun by done.
        eapply ZScaleTransformer_mask; eauto.
  - intros percentile. split; [|split].
    + intros Hlen.
      unfold PercentileThrAugmenter.get_percentile_thresholded_image.
      by rewrite (proj2 (Nat.ltb_lt _ _) Hlen).
    + apply get_percentile_thresholded_image_not_None.
    + intros out y x c v Hrun Hp Hv.
      unfold PercentileThrAugmenter.get_percentile_thresholded_image in Hrun.
      destruct (length params <? Np.nchans data); [done|].
      simpl in Hrun. unfold mbind, outcome_bind in Hrun.
      match type of Hrun with context [for_range ?l ?b ?a] =>
        destruct (for_range l b a) as [[dt|]|] eqn:Hloop; try done end.
      injection Hrun as <-.
      destruct (percentile_loop_pixel _ _ _ _ _ _ _ _ Hloop Hp)
        as (q & p & _ & _ & Hdt).
      erewrite pix_restore3d by done. by rewrite Hv.
  - intros rescale_intensity adjust_sigmoid cutoff. split; [|split].
    + intros Hlen. unfold SigmoidStretchAugmenter.get_transformed_image.
      by rewrite (proj2 (Nat.ltb_lt _ _) Hlen).
    + apply get_transformed_image_not_None.
    + intros out y x c v w Hrun Hp Hv Hw.
      unfold SigmoidStretchAugmenter.get_transformed_image in Hrun.
      destruct (length params <? Np.nchans data); [done|].
      simpl in Hrun. unfold mbind, outcome_bind in Hrun.
      match type of Hrun with context [for_range ?l ?b ?a] =>
        destruct (for_range l b a) as [[dt|]|] eqn:Hloop; try done end.
      injection Hrun as <-.
      rewrite pix_assign_unless3d, pix_valid3d, Hp in Hw. simpl in Hw.
      destruct (Np.pix dt y x c) as [u|]; simpl in Hw; [|done].
      rewrite Hv in Hw. by apply (inj Some) in Hw.
Qed.

(** X25.  PercentileThrAugmenter thresholds every channel at a
    percentile of the whole input cube, zeros and NaNs included, not of
    the channel's valid pixels: a pixel of the result is the input pixel
    when that is valid and not below the threshold, and 0 otherwise. *)
Theorem PercentileThrAugmenter_thresholds_at_cube_percentile
    (percentile : list (list (list float)) -> float -> outcome float)
    (data out : list (list (list float))) (percentiles : list float)
    (y x c : nat) (v : float) :
  PercentileThrAugmenter.get_percentile_thresholded_image percentile
    (Some data) percentiles = Ret (Some out) ->
  Np.pix data y x c = Some v ->
  exists q p,
    percentiles !! c = Some q
    /\ percentile data q = Ret p
    /\ Np.pix out y x c
       = Some (if is_valid v && negb (v <? p)%float then v else 0%float).
Proof.
  intros Hrun Hp.
  unfold PercentileThrAugmenter.get_percentile_thresholded_image in Hrun.
  destruct (length percentiles <? Np.nchans data); [done|].
  simpl in Hrun. unfold mbind, outcome_bind in Hrun.
  match type of Hrun with context [for_range ?l ?b ?a] =>
    destruct (for_range l b a) as [[dt|]|] eqn:Hloop; try done end.
  injection Hrun as <-.
  destruct (percentile_loop_pixel _ _ _ _ _ _ _ _ Hloop Hp)
    as (q & p & Hq & Hpq & Hdt).
  exists q, p. split; [done|]. split; [done|].
  erewrite pix_restore3d by done.
  by destruct (is_valid v), (v <? p)%float.
Qed.

Lemma PercentileThrAugmenter_witness :
  exists q p,
    [50; 50]%float !! 1 = Some q
    /\ (fun (_ : list (list (list float))) (_ : float) => Ret 5%float) 
         Example.ratio_scene q = Ret p
    /\ Np.pix [ [[5; 5; 5]]; [[10; 0; 15]] ]%float 0 0 1
       = Some (if is_valid 10 && negb (10 <? p)%float then 10%float
               else 0%float).
Proof.
  apply (PercentileThrAugmenter_thresholds_at_cube_percentile
           (fun _ _ => Ret 5%float) Example.ratio_scene
           [ [[5; 5; 5]]; [[10; 0; 15]] ]%float [50; 50]%float 0 0 1
           10%float); vm_compute; reflexivity.
Defined.

(** ** The batch loop of the custom augmenters *)

Section batch_lemmas.

Import CustomAugmenter.

Context {G : Type}.
Variable seed_rng : Z -> G.
Variable uniform : float -> float -> G -> float * G.
Variable transform :
  option (list (list (list float))) -> list float ->
  outcome (option (list (list (list float)))).

Lemma choose_per_ch_length (self : t) (n : nat) : forall s (acc : list float) g,
  length (fst (foldl (fun (st : list float * G) (k : nat) =>
                        let '(param_rand, g') :=
                          uniform (param_min self) (param_max self) (snd st)
                        in (fst st ++ [param_rand], g'))
                 (acc, g) (seq s n)))
  = length acc + n.
Proof.
  induction n as [|n IH]; intros s acc g; simpl; [lia|].
  destruct (uniform _ _ g) as [c g']. rewrite IH, length_app. simpl. lia.
Qed.

Lemma choose_length (self : t) (n : nat) (g : G) :
  length (fst (choose G uniform self n g)) = n.
Proof.
  unfold choose.
  destruct (random_param self); [|simpl; by rewrite length_replicate].
  destruct (random_param_per_ch self).
  - by rewrite choose_per_ch_length.
  - destruct (uniform _ _ g). simpl. by rewrite length_replicate.
Qed.

(** Once the parameters are chosen, the loop applies the image function
    with them to each image that is left, and draws nothing. *)
Lemma loop_with_params (self : t) (params : list float) (g : G) :
  params <> [] ->
  forall (todo : list (list (list (list float))))
         (outs : list (list (list (list float))))
         (done : list (option (list (list (list float))))),
    Forall2 (fun img out => transform (Some img) params = Ret (Some out))
      todo outs ->
    loop G uniform transform self (seq (length done) (length todo)) params
      (done ++ (Some <$> todo)) g
    = (None, done ++ (Some <$> outs), g).
Proof.
  intros Hne todo outs done Hall. revert done.
  induction Hall as [|img out todo outs Hone Hall IH]; intros done; simpl.
  - done.
  - rewrite lookup_app_r by lia. rewrite Nat.sub_diag. simpl.
    destruct params as [|p0 params']; [done|]. rewrite Hone.
    rewrite insert_app_r_alt by lia. rewrite Nat.sub_diag. simpl.
    specialize (IH (done ++ [Some out])).
    rewrite length_app, <- !app_assoc in IH. simpl in IH.
    rewrite Nat.add_1_r in IH. exact IH.
Qed.

(** If the image function never answers [None] for an array, the loop
    never raises the plain [Exception]. *)
Lemma loop_no_Exception (self : t) :
  (forall img params, transform (Some img) params <> Ret None) ->
  forall rng params images g,
    fst (fst (loop G uniform transform self rng params images g))
    <> Some Exception.
Proof.
  intros Hsome rng. induction rng as [|i rng IH]; intros params images g;
    simpl; [done|].
  destruct (images !! i) as [[image|]|]; [|done..].
  destruct (match params with
            | [] => choose G uniform self (Np.nchans image) g
            | _ :: _ => (params, g)
            end) as [params' g'].
  destruct (transform (Some image) params') as [[r|]|e] eqn:Ht; [|..|done].
  - apply IH.
  - by destruct (Hsome image params').
Qed.

(** X26.  One list of parameters per batch.  On a batch of arrays that
    all have [n >= 1] channels, [_augment_batch_] picks the parameters
    once, for the first image - after seeding the generator if a seed is
    set - and every image of the batch is replaced by what the image
    function gives with that same list; the generator is left as that
    single choice left it. *)
Theorem augment_batch_one_parameter_list (self : t)
    (images outs : list (list (list (list float)))) (g : G) (n : nat) :
  let g0 := match seed self with Some s => seed_rng s | None => g end in
  let params := fst (choose G uniform self n g0) in
  0 < n ->
  images <> [] ->
  Forall (fun img => Np.nchans img = n) images ->
  Forall2 (fun img out => transform (Some img) params = Ret (Some out))
    images outs ->
  augment_batch G seed_rng uniform transform self (Some (Some <$> images)) g
  = (None, Some (Some <$> outs), snd (choose G uniform self n g0)).
Proof.
  intros g0 params Hn Hne Hch Hall. unfold augment_batch. fold g0.
  rewrite length_fmap.
  destruct Hall as [|img out todo outs' Hone Hall]; [done|].
  apply Forall_cons in Hch as [Hc0 _].
  simpl. rewrite Hc0.
  destruct (choose G uniform self n g0) as [ps g1] eqn:Hchoose.
  simpl in params. subst params. rewrite Hone.
  assert (ps <> []) as Hps.
  { intros ->. pose proof (choose_length self n g0) as Hl.
    rewrite Hchoose in Hl. simpl in Hl. lia. }
  pose proof (loop_with_params self ps g1 Hps todo outs' [Some out] Hall)
    as Hloop.
  simpl in Hloop. unfold fmap in Hloop |- *. rewrite Hloop. done.
Qed.

End batch_lemmas.

Lemma augment_batch_witness :
  CustomAugmenter.augment_batch nat (fun s => 0) (fun lo hi g => (lo, S g))
    (fun data params =>
       Ret (Np.map3d (fun v => v * default 1 (params !! 0%nat))%float <$> data))
    {| CustomAugmenter.param := 2; CustomAugmenter.random_param := true;
       CustomAugmenter.random_param_per_ch := false;
       CustomAugmenter.param_min := 3; CustomAugmenter.param_max := 4;
       CustomAugmenter.seed := None |}
    (Some (Some <$> [ [ [[1]] ]; [ [[2]] ] ]%float)) 7
  = (None, Some (Some <$> [ [ [[3]] ]; [ [[6]] ] ]%float), 8).
Proof.
  apply (augment_batch_one_parameter_list (fun s => 0)
           (fun lo hi g => (lo, S g))
           (fun data params =>
              Ret (Np.map3d (fun v => v * default 1 (params !! 0%nat))%float
                   <$> data))
           {| CustomAugmenter.param := 2;
              CustomAugmenter.random_param := true;
              CustomAugmenter.random_param_per_ch := false;
              CustomAugmenter.param_min := 3; CustomAugmenter.param_max := 4;
              CustomAugmenter.seed := None |}
           [ [ [[1]] ]; [ [[2]] ] ]%float [ [ [[3]] ]; [ [[6]] ] ]%float 7 1).
  - lia.
  - done.
  - by repeat constructor.
  - repeat constructor; vm_compute; reflexivity.
Defined.

(** X27.  The [raise Exception] of the three batch functions is never
    reached: their image functions do not return [None] for an array,
    and an entry [None] in the batch raises [AttributeError] before the
    image function is called.  So whatever a batch run raises is a
    built-in exception; and the stage Augmenter, which runs the
    augmenters, raises nothing: it answers [None] exactly when it is
    given [None] or the augmentation raised. *)
Theorem augmenters_never_raise_plain_Exception {G : Type}
    (seed_rng : Z -> G) (uniform : float -> float -> G -> float * G)
    (self : CustomAugmenter.t)
    (images : option (list (option (list (list (list float)))))) (g : G) :
  (forall zscale,
     fst (fst (ZScaleAugmenter.augment_batch zscale G seed_rng uniform
                 self images g)) <> Some CustomAugmenter.Exception)
  /\ (forall percentile,
        fst (fst (PercentileThrAugmenter.augment_batch percentile G seed_rng
                    uniform self images g))
        <> Some CustomAugmenter.Exception)
  /\ (forall rescale_intensity adjust_sigmoid cutoff,
        fst (fst (SigmoidStretchAugmenter.augment_batch rescale_intensity
                    adjust_sigmoid G seed_rng uniform cutoff self images g))
        <> Some CustomAugmenter.Exception)
  /\ (forall (W : Type) augment_image data (w : W),
        exists r,
          fst (Augmenter.call W augment_image data w) = Ret r
          /\ (r = None <->
              data = None
              \/ exists d e, data = Some d
                             /\ fst (augment_image d w) = Raise e)).
Proof.
  assert (forall transform,
            (forall img params, transform (Some img) params <> Ret None) ->
            fst (fst (CustomAugmenter.augment_batch G seed_rng uniform
                        transform self images g))
            <> Some CustomAugmenter.Exception) as Hgen.
  { intros transform Hsome. unfold CustomAugmenter.augment_batch.
    destruct images as [imgs|]; [|done].
    match goal with |- context [CustomAugmenter.loop ?a ?b ?c ?d ?e ?f ?h ?k] =>
      pose proof (loop_no_Exception b c d Hsome e f h k) as Hl;
      destruct (CustomAugmenter.loop a b c d e f h k) as [[e0 im] g'] end.
    done. }
  split; [|split; [|split]].
  - intros. apply Hgen. intros img params.
    apply get_zscale_image_not_None.
  - intros. apply Hgen. intros img params.
    apply get_percentile_thresholded_image_not_None.
  - intros. apply Hgen. intros img params.
    apply get_transformed_image_not_None.
  - intros W augment_image data w. unfold Augmenter.call.
    destruct data as [d|].
    + destruct (augment_image d w) as [[a|e] w'] eqn:Ha; simpl.
      * eexists. split; [done|]. split; [done|].
        intros [?|(d' & e & Hd & He)]; [done|].
        injection Hd as <-. rewrite Ha in He. done.
      * exists None. split; [done|]. split; [|done].
        intros _. right. exists d, e. by rewrite Ha.
    + exists None. split; [done|]. split; [by left|done].
Qed.

(** ** The sign of a difference *)

Local Open Scope Z_scope.

Lemma digits2_upper p : Zpos p < 2 ^ Zpos (digits2_pos p).
Proof.
  rewrite digits2_size. pose proof (Pos.size_gt p) as H.
  apply Pos2Z.pos_lt_pos in H. by rewrite Pos2Z.inj_pow in H.
Qed.

Lemma binary_round_sign s p e :
  emin <= e ->
  (exists m' e', binary_round prec emax s p e = S754_finite s m' e')
  \/ binary_round prec emax s p e = S754_infinity s.
Proof.
  intros He. unfold binary_round, shl_align.
  destruct (fexp prec emax (Zpos (digits2_pos p) + e) - e) eqn:En;
    apply binary_round_aux_pos; try done.
  unfold fexp, SpecFloat.emin, prec, emax in *. lia.
Qed.

(** A difference that is not negative rounds to a number whose sign bit
    is clear. *)
Lemma binary_normalize_nonneg z e :
  0 <= z -> emin <= e ->
  binary_normalize prec emax z e false = S754_zero false
  \/ (exists m' e', binary_normalize prec emax z e false
                    = S754_finite false m' e')
  \/ binary_normalize prec emax z e false = S754_infinity false.
Proof.
  intros Hz He. destruct z as [|p|p]; [by left|simpl|lia].
  destruct (binary_round_sign false p e He) as [H|H]; eauto.
Qed.

(** A canonical number with the larger exponent has the larger aligned
    mantissa. *)
Lemma aligned_larger_exponent mx ex my ey :
  bounded prec emax mx ex = true ->
  bounded prec emax my ey = true ->
  ey < ex ->
  Zpos my <= Zpos mx * 2 ^ (ex - ey).
Proof.
  intros Hx Hy Hlt.
  apply bounded_canonical in Hx as [Hex Hcx], Hy as [Hey Hcy].
  pose proof (digits2_lower mx) as Hlo. pose proof (digits2_upper my) as Hup.
  assert (Zpos (digits2_pos mx) = 53) as Hdx
    by (unfold fexp, SpecFloat.emin, prec, emax in *; lia).
  assert (Zpos (digits2_pos my) <= 53) as Hdy
    by (unfold fexp, SpecFloat.emin, prec, emax in *; lia).
  rewrite Hdx in Hlo.
  assert (2 ^ Zpos (digits2_pos my) <= 2 ^ 53) as Hpow
    by (apply Z.pow_le_mono_r; lia).
  assert (2 ^ 1 <= 2 ^ (ex - ey)) as Hsh by (apply Z.pow_le_mono_r; lia).
  change (2 ^ 1) with 2 in Hsh. change (2 ^ (53 - 1)) with (2 ^ 52) in Hlo.
  assert (2 ^ 53 = 2 * 2 ^ 52) as E by reflexivity.
  nia.
Qed.

(** Aligned to a common exponent, a canonical number that is not below
    another has a signed mantissa that is not smaller. *)
Lemma aligned_order sx mx ex sy my ey :
  bounded prec emax mx ex = true ->
  bounded prec emax my ey = true ->
  ~ lt_finite (S754_finite sx mx ex) (S754_finite sy my ey) ->
  0 <= cond_Zopp sx (Zpos (fst (shl_align mx ex (Z.min ex ey))))
       - cond_Zopp sy (Zpos (fst (shl_align my ey (Z.min ex ey)))).
Proof.
  intros Hx Hy Hnlt.
  destruct (shl_align_fst mx ex (Z.min ex ey)) as [Hvx _]; [lia|].
  destruct (shl_align_fst my ey (Z.min ex ey)) as [Hvy _]; [lia|].
  rewrite Hvx, Hvy. clear Hvx Hvy. simpl in Hnlt.
  destruct sx, sy; simpl in *.
  - (* both negative *)
    assert (ex <= ey /\ (ex = ey -> Zpos mx <= Zpos my)) as [Hle Heq] by lia.
    rewrite Z.min_l by lia. rewrite Z.sub_diag, Z.mul_1_r.
    destruct (decide (ex = ey)) as [->|Hne].
    + rewrite Z.sub_diag. lia.
    + pose proof (aligned_larger_exponent my ey mx ex Hy Hx) as H. lia.
  - by destruct Hnlt.
  - lia.
  - (* both positive *)
    assert (ey <= ex /\ (ex = ey -> Zpos my <= Zpos mx)) as [Hle Heq] by lia.
    rewrite Z.min_r by lia. rewrite Z.sub_diag, Z.mul_1_r.
    destruct (decide (ex = ey)) as [->|Hne].
    + rewrite Z.sub_diag. lia.
    + pose proof (aligned_larger_exponent mx ex my ey Hx Hy) as H. lia.
Qed.

Local Close Scope Z_scope.

(** Subtracting a number from one that is not below it never gives a
    number below zero. *)
Lemma sub_not_below (a b : float) :
  is_valid a = true -> is_valid b = true ->
  (a <? b)%float = false -> (a - b <? 0)%float = false.
Proof.
  intros Ha Hb Hnlt.
  assert (~ lt_finite (Prim2SF a) (Prim2SF b)) as Hn.
  { intros H. apply (ltb_valid a b Ha Hb) in H. congruence. }
  pose proof (Prim2SF_valid a) as Va. pose proof (Prim2SF_valid b) as Vb.
  apply is_valid_spec in Ha as (sa & ma & ea & Ha).
  apply is_valid_spec in Hb as (sb & mb & eb & Hb).
  rewrite Ha in Va, Hn. rewrite Hb in Vb, Hn. simpl in Va, Vb.
  rewrite ltb_spec, FloatAxioms.sub_spec, Ha, Hb, Prim2SF_zero.
  unfold SF64sub, SFsub. cbv zeta.
  destruct (binary_normalize_nonneg
              (cond_Zopp sa (Zpos (fst (shl_align ma ea (Z.min ea eb))))
               - cond_Zopp sb (Zpos (fst (shl_align mb eb (Z.min ea eb)))))%Z
              (Z.min ea eb)) as [->|[(m' & e' & ->)| ->]]; try done.
  - by apply aligned_order.
  - apply bounded_canonical in Va as [? _], Vb as [? _]. lia.
Qed.

(** A channel shifted by its smallest valid pixel, with its invalid
    pixels at 0, holds no pixel below zero. *)
Lemma shifted_channel_not_negative (ch : list (list float)) (mn : float)
    y x w :
  Np.min (Np.select ch (Np.valid2d ch)) = Ret mn ->
  Np.pix2 (Np.assign_unless (Np.valid2d ch) 0%float
             (Np.map2d (fun v => v - mn)%float ch)) y x = Some w ->
  (w <? 0)%float = false.
Proof.
  intros Hmin Hw. rewrite pix2_restore in Hw.
  destruct (Np.pix2 ch y x) as [v|] eqn:Hp; [|done]. simpl in Hw.
  apply (inj Some) in Hw as <-.
  destruct (is_valid v) eqn:Hv; [|apply ltb_irrefl_any].
  destruct (np_min_spec _ _ (select_valid_Forall ch) Hmin) as [Hin Hle].
  apply select_valid_spec in Hin as (y0 & x0 & _ & Hvm).
  apply sub_not_below; [done..|]. apply Hle. apply select_valid_spec. eauto.
Qed.

(** X28.  Shifting to the minimum leaves nothing below zero: no pixel of
    a channel that MinShifter processed is negative, and after
    NegativeDataFixer no pixel is negative in a channel whose valid
    pixels were all negative (a channel with a positive valid pixel is
    left as it is, its negative pixels included). *)
Theorem shift_to_minimum_leaves_no_negative_pixel
    (data out : list (list (list float))) (c : nat)
    (y x : nat) (w : float) :
  Np.pix out y x c = Some w ->
  (forall self,
     MinShifter.chid self = (-1)%Z \/ MinShifter.chid self = Z.of_nat c ->
     MinShifter.call self (Some data) = Ret (Some out) ->
     (w <? 0)%float = false)
  /\ (forall ch,
        data !! c = Some ch ->
        (forall y' x' v, Np.pix2 ch y' x' = Some v -> is_valid v = true ->
           (0 <? v)%float = false) ->
        NegativeDataFixer.call (Some data) = Ret (Some out) ->
        (w <? 0)%float = false).
Proof.
  intros Hw. destruct (pix_inv _ _ _ _ _ Hw) as (och & Hoch & Hw2 & _).
  split.
  - intros self Hsel Hrun. unfold MinShifter.call in Hrun.
    destruct (decide (c < Np.nchans data)) as [Hc|Hc].
    + destruct (lookup_lt_is_Some_2 data c Hc) as [ch Hch].
      eapply for_range_channel in Hrun as (a & a' & Hla & _ & Hb & Hout);
        [|apply MinShifter_body_own|exact Hc].
      rewrite (chid_gate_open _ _ Hsel) in Hb. unfold Np.get_chan in Hb.
      rewrite Hch in Hb. simpl in Hb.
      destruct (Np.min (Np.select ch (Np.valid2d ch))) as [mn|] eqn:Hmin;
        [|done].
      simpl in Hb. injection Hb as <-. rewrite Hoch in Hout.
      unfold Np.set_chan in Hout.
      rewrite list_lookup_insert_eq in Hout by (unfold Np.nchans in Hc; lia).
      apply (inj Some) in Hout as ->.
      by eapply shifted_channel_not_negative.
    + apply for_range_frame in Hrun as [Hlen _];
        [|apply MinShifter_body_own].
      apply lookup_lt_Some in Hoch. unfold Np.nchans in Hc. lia.
  - intros ch Hch Hneg Hrun. unfold NegativeDataFixer.call in Hrun.
    pose proof (lookup_lt_Some _ _ _ Hch) as Hc.
    eapply for_range_channel in Hrun as (a & a' & Hla & _ & Hb & Hout);
      [|apply NegativeDataFixer_body_own|exact Hc].
    unfold Np.get_chan in Hb. rewrite Hch in Hb. simpl in Hb.
    destruct (Np.min (Np.select ch (Np.valid2d ch))) as [mn|] eqn:Hmin;
      [|done].
    simpl in Hb.
    destruct (Np.max (Np.select ch (Np.valid2d ch))) as [mx|] eqn:Hmax;
      [|done].
    simpl in Hb.
    destruct (np_max_spec _ _ (select_valid_Forall ch) Hmax) as [Hinx _].
    apply select_valid_spec in Hinx as (y1 & x1 & Hp1 & Hv1).
    rewrite (Hneg _ _ _ Hp1 Hv1) in Hb. injection Hb as <-.
    rewrite Hoch in Hout. unfold Np.set_chan in Hout.
    rewrite list_lookup_insert_eq in Hout by lia.
    apply (inj Some) in Hout as ->.
    by eapply shifted_channel_not_negative.
Qed.

Lemma shift_to_minimum_witness :
  Np.pix [ [[0; 2]; [4; 6]] ]%float 1 0 0 = Some 4%float
  /\ MinShifter.call {| MinShifter.chid := -1 |} (Some Example.ramp)
     = Ret (Some [ [[0; 2]; [4; 6]] ]%float)
  /\ (4 <? 0)%float = false.
Proof.
  refine ((fun (E : MinShifter.call {| MinShifter.chid := -1 |}
                      (Some Example.ramp)
                    = Ret (Some [ [[0; 2]; [4; 6]] ]%float)) =>
             conj eq_refl (conj E
               (proj1 (shift_to_minimum_leaves_no_negative_pixel
                         Example.ramp [ [[0; 2]; [4; 6]] ]%float 0 1 0
                         4%float eq_refl)
                  {| MinShifter.chid := -1 |} (or_introl eq_refl) E))) _).
  vm_compute. reflexivity.
Defined.

(** ** Normalising by a range *)

Lemma ma_min_np_min (l : list float) m :
  Ma.min l = Some m <-> Np.min l = Ret m.
Proof.
  destruct l as [|v l]; simpl; [done|].
  split; intros H.
  - by apply (inj Some) in H as ->.
  - apply (f_equal (fun o => match o with Ret s => Some s | _ => None end))
      in H. done.
Qed.

(** The valid pixels of a cube. *)
Lemma select3d_valid_spec (data : list (list (list float))) v :
  v ∈ concat (zip_with Np.select data (Np.valid3d data))
  <-> exists y x c, Np.pix data y x c = Some v /\ is_valid v = true.
Proof.
  rewrite select3d_spec. split.
  - intros (y & x & c & Hp & Hm). rewrite pix_valid3d, Hp in Hm.
    simpl in Hm. apply (inj Some) in Hm. eauto 10.
  - intros (y & x & c & Hp & Hv). exists y, x, c. split; [done|].
    by rewrite pix_valid3d, Hp, <- Hv.
Qed.

Lemma select3d_valid_Forall (data : list (list (list float))) :
  Forall (fun v => is_valid v = true)
    (concat (zip_with Np.select data (Np.valid3d data))).
Proof.
  apply Forall_forall. intros v Hv.
  by apply select3d_valid_spec in Hv as (y & x & c & _ & H).
Qed.

(** Zero divided by zero, scaled and shifted: not a number. *)
Lemma normalized_flat_is_nan (v a b : float) :
  is_valid v = true -> ((v - v) / (v - v) * a + b)%float = nan.
Proof.
  intros Hv. apply is_valid_spec in Hv as (s & m & e & Hv).
  apply Prim2SF_inj.
  rewrite FloatAxioms.add_spec, FloatAxioms.mul_spec, FloatAxioms.div_spec,
    (sub_self _ _ _ _ Hv).
  reflexivity.
Qed.

(** X29.  AbsMinMaxNormalizer on an array: without any valid pixel the
    result is a numpy.ma array and no plain array; otherwise every valid
    pixel is rescaled with the smallest and the largest valid pixel of
    the whole cube, the same for every channel, and the invalid pixels
    are 0. *)
Theorem AbsMinMaxNormalizer_normalizes_by_cube_range
    (self : AbsMinMaxNormalizer.t) (data : list (list (list float)))
    (r : Ma.result) :
  AbsMinMaxNormalizer.call self (Some data) = Ret (Some r) ->
  match r with
  | Ma.MaskedArray =>
      forall y x c v, Np.pix data y x c = Some v -> is_valid v = false
  | Ma.Array out =>
      exists mn mx,
        (exists y x c, Np.pix data y x c = Some mn /\ is_valid mn = true)
        /\ (exists y x c, Np.pix data y x c = Some mx /\ is_valid mx = true)
        /\ (forall y x c v, Np.pix data y x c = Some v ->
              is_valid v = true ->
              (v <? mn)%float = false /\ (mx <? v)%float = false)
        /\ (forall y x c v, Np.pix data y x c = Some v ->
              Np.pix out y x c
              = Some (if is_valid v
                      then ((v - mn) / (mx - mn)
                            * (AbsMinMaxNormalizer.norm_max self
                               - AbsMinMaxNormalizer.norm_min self)
                            + AbsMinMaxNormalizer.norm_min self)%float
                      else 0%float))
  end.
Proof.
  unfold AbsMinMaxNormalizer.call. intros Hrun. simpl in Hrun.
  destruct (Ma.min (concat (zip_with Np.select data (Np.valid3d data))))
    as [mn|] eqn:Hmin.
  - destruct (Ma.max (concat (zip_with Np.select data (Np.valid3d data))))
      as [mx|] eqn:Hmax.
    + injection Hrun as <-.
      apply ma_min_np_min in Hmin. apply ma_max_np_max in Hmax.
      destruct (np_min_spec _ _ (select3d_valid_Forall data) Hmin)
        as [Hin Hle].
      destruct (np_max_spec _ _ (select3d_valid_Forall data) Hmax)
        as [Hinx Hge].
      apply select3d_valid_spec in Hin, Hinx.
      exists mn, mx. split; [done|]. split; [done|]. split.
      * intros y x c v Hp Hv.
        assert (v ∈ concat (zip_with Np.select data (Np.valid3d data)))
          by (apply select3d_valid_spec; eauto 10).
        split; [by apply Hle|by apply Hge].
      * intros y x c v Hp. erewrite pix_restore3d; [done|done|].
        by rewrite pix_map3d, Hp.
    + apply ma_max_None in Hmax. rewrite Hmax in Hmin. done.
  - injection Hrun as <-. intros y x c v Hp. apply not_true_is_false.
    intros Hv.
    assert (v ∈ concat (zip_with Np.select data (Np.valid3d data))) as Hin
      by (apply select3d_valid_spec; eauto 10).
    destruct (concat (zip_with Np.select data (Np.valid3d data))); [|done].
    by apply elem_of_nil in Hin.
Qed.

Lemma AbsMinMaxNormalizer_witness :
  exists mn mx,
    (exists y x c, Np.pix Example.ramp y x c = Some mn
                   /\ is_valid mn = true)
    /\ (exists y x c, Np.pix Example.ramp y x c = Some mx
                      /\ is_valid mx = true)
    /\ (forall y x c v, Np.pix Example.ramp y x c = Some v ->
          is_valid v = true ->
          (v <? mn)%float = false /\ (mx <? v)%float = false)
    /\ (forall y x c v, Np.pix Example.ramp y x c = Some v ->
          Np.pix [ [[0; 1]; [2; 3]] ]%float y x c
          = Some (if is_valid v
                  then ((v - mn) / (mx - mn) * (3 - 0) + 0)%float
                  else 0%float)).
Proof.
  apply (AbsMinMaxNormalizer_normalizes_by_cube_range
           {| AbsMinMaxNormalizer.norm_min := 0;
              AbsMinMaxNormalizer.norm_max := 3 |}
           Example.ramp (Ma.Array [ [[0; 1]; [2; 3]] ]%float)).
  vm_compute. reflexivity.
Defined.

(** X30.  Data whose valid pixels all hold one value are normalised to
    NaN: MinMaxNormalizer puts NaN at every valid pixel of a channel
    whose valid pixels are all equal, and AbsMinMaxNormalizer at every
    valid pixel of a cube whose valid pixels are all equal (the range
    is zero, and zero divided by zero is not a number). *)
Theorem normalizing_flat_data_gives_nan (data : list (list (list float)))
    (u : float) :
  (forall self out c ch,
     MinMaxNormalizer.call self (Some data) = Ret (Some out) ->
     data !! c = Some ch ->
     (forall y x v, Np.pix2 ch y x = Some v -> is_valid v = true -> v = u) ->
     forall y x v, Np.pix2 ch y x = Some v -> is_valid v = true ->
       Np.pix out y x c = Some nan)
  /\ (forall self out,
        AbsMinMaxNormalizer.call self (Some data)
          = Ret (Some (Ma.Array out)) ->
        (forall y x c v, Np.pix data y x c = Some v -> is_valid v = true ->
           v = u) ->
        forall y x c v, Np.pix data y x c = Some v -> is_valid v = true ->
          Np.pix out y x c = Some nan).
Proof.
  split.
  - intros self out c ch Hrun Hch Hflat y x v Hp Hv.
    unfold MinMaxNormalizer.call in Hrun.
    pose proof (lookup_lt_Some _ _ _ Hch) as Hc.
    eapply for_range_channel in Hrun as (a & a' & Hla & _ & Hb & Hout);
      [| |exact Hc].
    2: { intros i b b' Hb. inv_outcome Hb. injection Hb as <-.
         apply set_chan_own. }
    unfold Np.get_chan in Hb. rewrite Hch in Hb. simpl in Hb.
    destruct (length (Np.select ch (Np.valid2d ch)) =? 0)%nat; [done|].
    destruct (Np.min (Np.select ch (Np.valid2d ch))) as [mn|] eqn:Hmin;
      [|done].
    simpl in Hb.
    destruct (Np.max (Np.select ch (Np.valid2d ch))) as [mx|] eqn:Hmax;
      [|done].
    simpl in Hb. injection Hb as <-.
    destruct (np_min_spec _ _ (select_valid_Forall ch) Hmin) as [Hin _].
    destruct (np_max_spec _ _ (select_valid_Forall ch) Hmax) as [Hinx _].
    apply select_valid_spec in Hin as (y0 & x0 & Hp0 & Hv0).
    apply select_valid_spec in Hinx as (y1 & x1 & Hp1 & Hv1).
    rewrite (Hflat _ _ _ Hp0 Hv0), (Hflat _ _ _ Hp1 Hv1) in *.
    unfold Np.pix. rewrite Hout. unfold Np.set_chan.
    rewrite list_lookup_insert_eq by lia. simpl.
    rewrite pix2_restore, Hp. simpl. rewrite Hv. f_equal.
    pose proof (Hflat _ _ _ Hp Hv) as Hvu. rewrite Hvu in Hv |- *.
    by apply normalized_flat_is_nan.
  - intros self out Hrun Hflat y x c v Hp Hv.
    unfold AbsMinMaxNormalizer.call in Hrun. simpl in Hrun.
    destruct (Ma.min (concat (zip_with Np.select data (Np.valid3d data))))
      as [mn|] eqn:Hmin; [|done].
    destruct (Ma.max (concat (zip_with Np.select data (Np.valid3d data))))
      as [mx|] eqn:Hmax; [|done].
    apply (f_equal (fun o => match o with
                             | Ret (Some (Ma.Array a)) => a
                             | _ => []
                             end)) in Hrun.
    simpl in Hrun. subst out.
    apply ma_min_np_min in Hmin. apply ma_max_np_max in Hmax.
    destruct (np_min_spec _ _ (select3d_valid_Forall data) Hmin) as [Hin _].
    destruct (np_max_spec _ _ (select3d_valid_Forall data) Hmax) as [Hinx _].
    apply select3d_valid_spec in Hin as (y0 & x0 & c0 & Hp0 & Hv0).
    apply select3d_valid_spec in Hinx as (y1 & x1 & c1 & Hp1 & Hv1).
    rewrite (Hflat _ _ _ _ Hp0 Hv0), (Hflat _ _ _ _ Hp1 Hv1) in *.
    erewrite pix_restore3d; [|done|by rewrite pix_map3d, Hp].
    rewrite Hv. f_equal.
    pose proof (Hflat _ _ _ _ Hp Hv) as Hvu. rewrite Hvu in Hv |- *.
    by apply normalized_flat_is_nan.
Qed.

Lemma normalizing_flat_witness :
  exists out,
    MinMaxNormalizer.call
      {| MinMaxNormalizer.norm_min := 0; MinMaxNormalizer.norm_max := 1 |}
      (Some [ [[5; 0; 5]] ]%float) = Ret (Some out)
    /\ Np.pix out 0 0 0 = Some nan.
Proof.
  eexists.
  refine ((fun E => conj E
             (proj1 (normalizing_flat_data_gives_nan
                       [ [[5; 0; 5]] ]%float 5%float)
                {| MinMaxNormalizer.norm_min := 0;
                   MinMaxNormalizer.norm_max := 1 |}
                _ 0 [[5; 0; 5]]%float E eq_refl _ 0 0 5%float
                eq_refl eq_refl)) _).
  2: vm_compute; reflexivity.
  intros y x v Hp Hv.
  destruct y as [|y]; [|by destruct y].
  destruct x as [|[|[|x]]]; simpl in Hp; try discriminate;
    apply (inj Some) in Hp as <-; try reflexivity.
  vm_compute in Hv. discriminate.
Defined.
